(** * Flat routes: the route discovery and path-segment parser of
    packages/remix-dev/config/flat-routes.ts, embedded in Rocq.

    Strings are Stdlib strings of 8-bit characters, JavaScript's [undefined]
    is [None], a thrown [Error] is a value of [Error] carried by [Throw]. *)

From Stdlib Require Import Ascii ZArith Lia Bool.
From Stdlib Require String.
From stdpp Require Import gmap strings list fin_maps.

Local Open Scope Z_scope.
Local Open Scope nat_scope.

(** ** JavaScript string and array primitives used by the source *)

Module Js.

(** A string is truthy unless it is empty ([if (s)], [!s], [s || d]). *)
Definition truthy (s : string) : bool :=
  match s with
  | EmptyString => false
  | String _ _ => true
  end.

(** [s.startsWith(p)] *)
Fixpoint startsWith (s p : string) : bool :=
  match p, s with
  | EmptyString, _ => true
  | String _ _, EmptyString => false
  | String a p', String b s' => Ascii.eqb a b && startsWith s' p'
  end.

(** [s.includes(p)]: [p] starts at some position of [s]. *)
Fixpoint includes (s p : string) : bool :=
  startsWith s p ||
  match s with
  | EmptyString => false
  | String _ s' => includes s' p
  end.

(** [s.endsWith(p)] *)
Fixpoint endsWith (s p : string) : bool :=
  String.eqb s p ||
  match s with
  | EmptyString => false
  | String _ s' => endsWith s' p
  end.

(** [s.slice(n)] for [n >= 0]. *)
Fixpoint sliceFrom (n : nat) (s : string) : string :=
  match n, s with
  | O, _ => s
  | S _, EmptyString => EmptyString
  | S n', String _ s' => sliceFrom n' s'
  end.

(** [s.slice(0, -1)] *)
Fixpoint sliceInit (s : string) : string :=
  match s with
  | EmptyString => EmptyString
  | String _ EmptyString => EmptyString
  | String c s' => String c (sliceInit s')
  end.

(** The first [n] characters. *)
Fixpoint take (n : nat) (s : string) : string :=
  match n, s with
  | O, _ => EmptyString
  | S _, EmptyString => EmptyString
  | S n', String c s' => String c (take n' s')
  end.

(** [s.substring(a, b)]: both ends are clamped to [0, length], and swapped
    when [a > b]. *)
Definition substring (s : string) (a b : Z) : string :=
  let clamp (i : Z) := Z.to_nat (Z.min (Z.max i 0) (Z.of_nat (String.length s))) in
  let lo := Nat.min (clamp a) (clamp b) in
  let hi := Nat.max (clamp a) (clamp b) in
  take (hi - lo) (sliceFrom lo s).

(** [s.lastIndexOf(c)] for a one-character [c]; [-1] when absent. The
    worker returns the last index at or after position [i]. *)
Fixpoint lastIndexFrom (i : Z) (c : ascii) (s : string) : Z :=
  match s with
  | EmptyString => (-1)%Z
  | String b s' =>
      let later := lastIndexFrom (i + 1) c s' in
      if (0 <=? later)%Z then later
      else if Ascii.eqb b c then i else (-1)%Z
  end.

Definition lastIndexOf (s : string) (c : ascii) : Z := lastIndexFrom 0 c s.

(** [a.join(sep)] *)
Fixpoint join (sep : string) (a : list string) : string :=
  match a with
  | [] => EmptyString
  | [x] => x
  | x :: a' => x +:+ sep +:+ join sep a'
  end.

(** [a.slice(0, -1)] on arrays. *)
Definition arrayInit {A} (a : list A) : list A := removelast a.

(** [s.split(c)] for a one-character separator: never the empty array. *)
Fixpoint split (c : ascii) (s : string) : list string :=
  match s with
  | EmptyString => [EmptyString]
  | String b s' =>
      if Ascii.eqb b c then EmptyString :: split c s'
      else match split c s' with
           | [] => [String b EmptyString]
           | x :: xs => String b x :: xs
           end
  end.

(** [s + c] for a single character [c]. *)
Definition snoc (s : string) (c : ascii) : string := s +:+ String c EmptyString.

(** *** Regular expressions

    The fragment of JavaScript regular expressions the source uses, without
    flags: [^] matches only at position 0 and [$] only at the end of the
    input. *)

Inductive regex : Type :=
| Eps
| Bol                                   (* ^ *)
| Eol                                   (* $ *)
| Chr (c : ascii)
| Cls (negated : bool) (cs : list ascii) (* [..] and [^..] *)
| ClsPlus (negated : bool) (cs : list ascii) (* [..]+ and [^..]+ *)
| Seq (r1 r2 : regex)
| Alt (r1 r2 : regex)
| Opt (r : regex).                      (* r? *)

Fixpoint Lit (s : string) : regex :=
  match s with
  | EmptyString => Eps
  | String c s' => Seq (Chr c) (Lit s')
  end.

Definition inClass (negated : bool) (cs : list ascii) (c : ascii) : bool :=
  xorb negated (existsb (Ascii.eqb c) cs).

(** One or more characters of the class, every split point offered to the
    continuation. *)
Fixpoint matchPlus (negated : bool) (cs : list ascii) (pos : nat) (s : string)
    (k : nat -> string -> bool) : bool :=
  match s with
  | EmptyString => false
  | String c s' =>
      inClass negated cs c &&
      (k (S pos) s' || matchPlus negated cs (S pos) s' k)
  end.

(** Backtracking matcher in continuation style: [pos] is the index of the
    first character of [s] in the whole input. *)
Fixpoint matchAt (r : regex) (pos : nat) (s : string)
    (k : nat -> string -> bool) : bool :=
  match r with
  | Eps => k pos s
  | Bol => Nat.eqb pos 0 && k pos s
  | Eol => match s with EmptyString => k pos s | _ => false end
  | Chr c =>
      match s with
      | String b s' => Ascii.eqb b c && k (S pos) s'
      | EmptyString => false
      end
  | Cls negated cs =>
      match s with
      | String b s' => inClass negated cs b && k (S pos) s'
      | EmptyString => false
      end
  | ClsPlus negated cs => matchPlus negated cs pos s k
  | Seq r1 r2 => matchAt r1 pos s (fun pos' s' => matchAt r2 pos' s' k)
  | Alt r1 r2 => matchAt r1 pos s k || matchAt r2 pos s k
  | Opt r1 => matchAt r1 pos s k || k pos s
  end.

Fixpoint searchFrom (r : regex) (pos : nat) (s : string) : bool :=
  matchAt r pos s (fun _ _ => true) ||
  match s with
  | EmptyString => false
  | String _ s' => searchFrom r (S pos) s'
  end.

(** [r.test(s)] *)
Definition test (r : regex) (s : string) : bool := searchFrom r 0 s.

End Js.

(** ** Errors and results *)

(** The three [throw new Error(...)] sites of the file, by the values
    interpolated in their messages. *)
Inductive Error : Type :=
| UnsupportedSegmentChar (segment routeId char : string)
| RouteConflict (fullPath : option string) (routeId conflict : string)
| InvalidIndexChild (routeId : string).

Inductive result (A : Type) : Type :=
| Ok (a : A)
| Throw (e : Error).
Arguments Ok {A} a.
Arguments Throw {A} e.

#[global] Instance result_bind : MBind result := fun A B f m =>
  match m with
  | Ok a => f a
  | Throw e => Throw e
  end.
#[global] Instance result_ret : MRet result := fun A a => Ok a.

Definition isThrow {A} (m : result A) : bool :=
  match m with Ok _ => false | Throw _ => true end.

(** ** routesConvention *)

(** Modelled from the spec: routesConvention.ts is not under src/. The
    delimiters are the ones section 4.1 names (escape-start `[`, optional-start
    `(`, param prefix `$`) with their closing counterparts, and the separators
    are the ones the comment on [State] in flat-routes.ts lists: `/`, `.`
    and `\`. *)
Definition paramPrefixChar : ascii := "$".

(** Modelled from the spec: [escapeStart] of routesConvention.ts. *)
Definition escapeStart : ascii := "[".

(** Modelled from the spec: [escapeEnd] of routesConvention.ts. *)
Definition escapeEnd : ascii := "]".

(** Modelled from the spec: [optionalStart] of routesConvention.ts. *)
Definition optionalStart : ascii := "(".

(** Modelled from the spec: [optionalEnd] of routesConvention.ts. *)
Definition optionalEnd : ascii := ")".

(** Modelled from the spec: [isSegmentSeparator] of routesConvention.ts,
    with the separators of the comment on [State]: `/`, `.` and `\`. *)
Definition isSegmentSeparator (checkChar : ascii) : bool :=
  existsb (Ascii.eqb checkChar) ["/"; "."; "\"]%char.

(** [path.posix.sep] *)
Definition posixSep : ascii := "/".

(** ** Index-route detection *)

(** /((^|[.]|[+]\/)(index|_index))(\/[^/]+)?$|(\/_?index\/)/ *)
Definition indexRouteRegex : Js.regex :=
  Js.Alt
    (Js.Seq
       (Js.Seq
          (Js.Alt Js.Bol
             (Js.Alt (Js.Cls false ["."%char])
                (Js.Seq (Js.Cls false ["+"%char]) (Js.Chr "/"))))
          (Js.Alt (Js.Lit "index") (Js.Lit "_index")))
       (Js.Seq
          (Js.Opt (Js.Seq (Js.Chr "/") (Js.ClsPlus true ["/"%char])))
          Js.Eol))
    (Js.Seq (Js.Chr "/") (Js.Seq (Js.Opt (Js.Chr "_")) (Js.Lit "index/"))).

Definition isIndexRoute (routeId : string) : bool :=
  let isFlatFile := negb (Js.includes routeId (String posixSep EmptyString)) in
  if isFlatFile then Js.endsWith routeId "_index"
  else Js.test indexRouteRegex routeId.

(** ** Segment tokenizer *)

Inductive State : Type := NORMAL | ESCAPE | OPTIONAL | OPTIONAL_ESCAPE.

(** The mutable locals of [getRouteSegments]. *)
Record Tokenizer : Type := mkTokenizer {
  routeSegments : list string;
  routeSegment : string;
  rawRouteSegment : string;
  state : State;
}.

(** [pushRouteSegment]: the closure reads [rawRouteSegment] and [routeId]
    and appends to [routeSegments]. *)
Definition pushRouteSegment (routeId rawRouteSegment : string)
    (routeSegments : list string) (routeSegment : string)
    : result (list string) :=
  if negb (Js.truthy routeSegment) then Ok routeSegments
  else if Js.includes rawRouteSegment "*" then
    Throw (UnsupportedSegmentChar rawRouteSegment routeId "*")
  else if Js.includes rawRouteSegment ":" then
    Throw (UnsupportedSegmentChar rawRouteSegment routeId ":")
  else if Js.includes rawRouteSegment "/" then
    Throw (UnsupportedSegmentChar routeSegment routeId "/")
  else Ok (routeSegments ++ [routeSegment]).

(** The param-prefix branch shared by NORMAL and OPTIONAL: [atEnd] is
    [index === routeId.length] after [index++]. *)
Definition paramPrefix (atEnd : bool) (char : ascii) (t : Tokenizer) : Tokenizer :=
  if atEnd then
    mkTokenizer (routeSegments t) (Js.snoc (routeSegment t) "*")
      (Js.snoc (rawRouteSegment t) char) (state t)
  else
    mkTokenizer (routeSegments t) (Js.snoc (routeSegment t) ":")
      (Js.snoc (rawRouteSegment t) char) (state t).

Definition appendChar (char : ascii) (t : Tokenizer) : Tokenizer :=
  mkTokenizer (routeSegments t) (Js.snoc (routeSegment t) char)
    (Js.snoc (rawRouteSegment t) char) (state t).

Definition setState (s : State) (t : Tokenizer) : Tokenizer :=
  mkTokenizer (routeSegments t) (routeSegment t) (rawRouteSegment t) s.

(** One iteration of the [while] loop: the [switch] on [state]. *)
Definition step (routeId : string) (char : ascii) (atEnd : bool)
    (t : Tokenizer) : result Tokenizer :=
  match state t with
  | NORMAL =>
      if isSegmentSeparator char then
        segs ← pushRouteSegment routeId (rawRouteSegment t) (routeSegments t)
                 (routeSegment t);
        Ok (mkTokenizer segs EmptyString EmptyString NORMAL)
      else if Ascii.eqb char escapeStart then Ok (setState ESCAPE t)
      else if Ascii.eqb char optionalStart then Ok (setState OPTIONAL t)
      else if negb (Js.truthy (routeSegment t)) && Ascii.eqb char paramPrefixChar
      then Ok (paramPrefix atEnd char t)
      else Ok (appendChar char t)
  | ESCAPE =>
      if Ascii.eqb char escapeEnd then Ok (setState NORMAL t)
      else Ok (appendChar char t)
  | OPTIONAL =>
      if Ascii.eqb char optionalEnd then
        Ok (mkTokenizer (routeSegments t) (Js.snoc (routeSegment t) "?")
              (Js.snoc (rawRouteSegment t) "?") NORMAL)
      else if Ascii.eqb char escapeStart then Ok (setState OPTIONAL_ESCAPE t)
      else if negb (Js.truthy (routeSegment t)) && Ascii.eqb char paramPrefixChar
      then Ok (paramPrefix atEnd char t)
      else Ok (appendChar char t)
  | OPTIONAL_ESCAPE =>
      if Ascii.eqb char escapeEnd then Ok (setState OPTIONAL t)
      else Ok (appendChar char t)
  end.

(** The [while (index < routeId.length)] loop over the characters not yet
    read. *)
Fixpoint scan (routeId : string) (rest : string) (t : Tokenizer)
    : result Tokenizer :=
  match rest with
  | EmptyString => Ok t
  | String char rest' =>
      t' ← step routeId char (negb (Js.truthy rest')) t;
      scan routeId rest' t'
  end.

(** The folder-marker special case before the loop: a trailing [/index]
    or [/route] is cut off. *)
Definition stripFolderMarker (routeId : string) : string :=
  let hasFolder := Js.test (Js.Cls false ["/"; "\"]%char) routeId in
  if hasFolder && (Js.endsWith routeId "/index" || Js.endsWith routeId "/route")
  then
    let last := Js.lastIndexOf routeId posixSep in
    if (0 <=? last)%Z then Js.substring routeId 0 last else routeId
  else routeId.

Definition initialTokenizer : Tokenizer :=
  mkTokenizer [] EmptyString EmptyString NORMAL.

Definition getRouteSegments (routeId : string) : result (list string) :=
  let routeId := stripFolderMarker routeId in
  t ← scan routeId routeId initialTokenizer;
  pushRouteSegment routeId (rawRouteSegment t) (routeSegments t) (routeSegment t).

(** ** Path builder *)

Definition createRoutePath (routeSegments : list string) (isIndex : bool)
    : option string :=
  let routeSegments :=
    if isIndex then Js.arrayInit routeSegments else routeSegments in
  let result :=
    fold_left
      (fun result segment =>
         if Js.startsWith segment "_" then result
         else
           let segment :=
             if Js.endsWith segment "_" then Js.sliceInit segment else segment in
           result +:+ "/" +:+ segment)
      routeSegments EmptyString in
  if Js.truthy result then Some result else None.

(** ** Route infos and parent resolution *)

(** [RouteInfo extends ConfigRoute]: the fields the file reads or writes. *)
Record RouteInfo : Type := mkRouteInfo {
  id : string;
  path : option string;
  file : string;
  name : string;
  segments : list string;
  index : bool;
  parentId : option string;
}.

(** The [while (parentName)] loop of [findParentRouteId]; [None] when the
    fuel runs out before the loop ends. *)
Fixpoint findParentLoop (fuel : nat) (nameMap : gmap string RouteInfo)
    (parentName : string) : option (option string) :=
  match fuel with
  | O => None
  | S fuel' =>
      if Js.truthy parentName then
        match nameMap !! parentName with
        | Some parentRoute => Some (Some (id parentRoute))
        | None =>
            findParentLoop fuel' nameMap
              (Js.substring parentName 0 (Js.lastIndexOf parentName "/"))
        end
      else Some None
  end.

(** Each turn of the loop shortens [parentName], so its length plus one
    bounds the number of turns ([findParentLoop_spec] below). *)
Definition findParentRouteId (routeInfo : RouteInfo)
    (nameMap : gmap string RouteInfo) : option string :=
  let parentName := Js.join "/" (Js.arrayInit (segments routeInfo)) in
  match findParentLoop (S (String.length parentName)) nameMap parentName with
  | Some r => r
  | None => None
  end.

(** ** JavaScript [Map]s *)

Module JsMap.

(** A [Map<string, V>]: its entries in insertion order. *)
Definition t (V : Type) : Type := list (string * V).

Definition empty {V} : t V := [].

Fixpoint get {V} (m : t V) (key : string) : option V :=
  match m with
  | [] => None
  | (k, v) :: m' => if String.eqb k key then Some v else get m' key
  end.

(** [m.set(key, v)]: an existing key keeps its place in the order. *)
Fixpoint set {V} (m : t V) (key : string) (v : V) : t V :=
  match m with
  | [] => [(key, v)]
  | (k, w) :: m' =>
      if String.eqb k key then (k, v) :: m' else (k, w) :: set m' key v
  end.

(** [m.values()] *)
Definition values {V} (m : t V) : list V := map snd m.

(** [Object.values(m)] on a [Map]: the own enumerable string-keyed
    properties of the object. The entries of a [Map] are not properties, so
    a [Map] that was only filled through [set] has none. *)
Definition objectValues {V} (m : t V) : list V := [].

End JsMap.

(** ** Tree assembly *)

#[local] Set Warnings "-register-all".

(** One call of [defineRoute]: its path, file, the [id] and [index] options,
    and the calls made by its children callback. *)
Inductive RouteNode : Type :=
| Node (nodePath nodeFile nodeId : string) (nodeIndex : bool)
       (children : list RouteNode).

(** A computation that may throw, under a recursion budget: [None] when the
    budget is used up. *)
Definition fueled (A : Type) : Type := option (result A).

Definition andThen {A B} (m : fueled A) (f : A -> fueled B) : fueled B :=
  match m with
  | None => None
  | Some (Throw e) => Some (Throw e)
  | Some (Ok a) => f a
  end.

(** [s.replace(/^\//, "")] *)
Definition removeLeadingSlash (s : string) : string :=
  match s with
  | String "/" s' => s'
  | _ => s
  end.

(** [(fullPath || "") + (index ? "?index" : "")] *)
Definition uniqueRouteIdOf (fullPath : option string) (index : bool) : string :=
  (match fullPath with
   | Some p => if Js.truthy p then p else EmptyString
   | None => EmptyString
   end) +:+ (if index then "?index" else EmptyString).

Section TreeAssembly.

(** [path.posix.join] of Node.js. *)
Variable posixJoin : string -> string -> string.
Variable prefix : string.
Variable routeMap : JsMap.t RouteInfo.

Definition routes : list RouteInfo := JsMap.values routeMap.

(** Modelled from the spec: ./routes (defineRoutes, defineRoute) is not
    under src/. [defineRoute] records the route it is given and runs the
    children callback inside it, so the calls of the callback become the
    children of the emitted node (section 4.6: emit the route and recurse
    into its children). *)
Definition defineRoute {S} (nodePath nodeFile nodeId : string) (nodeIndex : bool)
    (children : option (S -> fueled (S * list RouteNode))) (s : S)
    : fueled (S * RouteNode) :=
  match children with
  | None => Some (Ok (s, Node nodePath nodeFile nodeId nodeIndex []))
  | Some callback =>
      andThen (callback s) (fun '(s', nodes) =>
        Some (Ok (s', Node nodePath nodeFile nodeId nodeIndex nodes)))
  end.

(** The [if (uniqueRouteId) { ... }] block of the loop body: the conflict
    check and the registration in [uniqueRoutes]. *)
Definition checkUnique (childRoute : RouteInfo)
    (uniqueRoutes : gmap string string) : result (gmap string string) :=
  let index := index childRoute in
  let fullPath := path childRoute in
  let uniqueRouteId := uniqueRouteIdOf fullPath index in
  if Js.truthy uniqueRouteId then
    match uniqueRoutes !! uniqueRouteId with
    | Some conflict =>
        if Js.truthy conflict then
          Throw (RouteConflict fullPath (id childRoute) conflict)
        else Ok (<[uniqueRouteId := id childRoute]> uniqueRoutes)
    | None => Ok (<[uniqueRouteId := id childRoute]> uniqueRoutes)
    end
  else Ok uniqueRoutes.

(** The body of [for (let childRoute of childRoutes)]; [recurse] is
    [defineNestedRoutes] itself, the state is [uniqueRoutes]. *)
Definition defineChild
    (recurse : option string -> gmap string string ->
               fueled (gmap string string * list RouteNode))
    (parentRoutePath : string) (childRoute : RouteInfo)
    (uniqueRoutes : gmap string string)
    : fueled (gmap string string * RouteNode) :=
  let routePath :=
    match path childRoute with
    | Some p => Js.sliceFrom (String.length parentRoutePath) p
    | None => EmptyString
    end in
  let routePath := removeLeadingSlash routePath in
  let index := index childRoute in
  andThen (Some (checkUnique childRoute uniqueRoutes))
    (fun uniqueRoutes =>
       if index then
         let invalidChildRoutes :=
           filter (fun routeInfo : RouteInfo =>
                     parentId routeInfo = Some (id childRoute))
                  (JsMap.objectValues routeMap) in
         if Nat.ltb 0 (length invalidChildRoutes) then
           Some (Throw (InvalidIndexChild (id childRoute)))
         else
           defineRoute routePath (file childRoute)
             (posixJoin prefix (id childRoute)) true None uniqueRoutes
       else
         defineRoute routePath (file childRoute)
           (posixJoin prefix (id childRoute)) false
           (Some (recurse (Some (id childRoute)))) uniqueRoutes).

(** The [for ... of] loop, threading [uniqueRoutes] and collecting the
    emitted nodes in order. *)
Fixpoint forEachChild
    (body : RouteInfo -> gmap string string ->
            fueled (gmap string string * RouteNode))
    (childRoutes : list RouteInfo) (uniqueRoutes : gmap string string)
    : fueled (gmap string string * list RouteNode) :=
  match childRoutes with
  | [] => Some (Ok (uniqueRoutes, []))
  | childRoute :: rest =>
      andThen (body childRoute uniqueRoutes) (fun '(uniqueRoutes', node) =>
        andThen (forEachChild body rest uniqueRoutes')
          (fun '(uniqueRoutes'', nodes) =>
             Some (Ok (uniqueRoutes'', node :: nodes))))
  end.

Definition parentRoutePathOf (parentId : option string) : string :=
  let parentRoute :=
    match parentId with
    | Some p => if Js.truthy p then JsMap.get routeMap p else None
    | None => None
    end in
  match parentRoute with
  | Some r => match path r with Some p => p | None => "/" end
  | None => "/"
  end.

(** [routes.filter((routeInfo) => routeInfo.parentId === parentId)] *)
Definition childRoutesOf (parent : option string) : list RouteInfo :=
  filter (fun routeInfo : RouteInfo => parentId routeInfo = parent) routes.

(** [fuel] bounds the nesting depth of the recursion. *)
Fixpoint defineNestedRoutes (fuel : nat) (parentId : option string)
    (uniqueRoutes : gmap string string)
    : fueled (gmap string string * list RouteNode) :=
  match fuel with
  | O => None
  | S fuel' =>
      forEachChild
        (defineChild (defineNestedRoutes fuel') (parentRoutePathOf parentId))
        (childRoutesOf parentId) uniqueRoutes
  end.

(** Modelled from the spec: ./routes is not under src/. [defineRoutes]
    runs the callback once with its [defineRoute] and returns what was
    defined; the manifest is kept as the emitted tree, whose nesting is the
    parent linkage (section 6). *)
Definition defineRoutes
    (callback : gmap string string -> fueled (gmap string string * list RouteNode))
    : fueled (list RouteNode) :=
  andThen (callback ∅) (fun '(_, nodes) => Some (Ok nodes)).

(** The tree assembly of [flatRoutesUniversal], from the route map on. No
    route is visited twice on one branch, so a depth of one more than the
    number of routes is never reached ([assemble_fuel] below). *)
Definition assemble : fueled (list RouteNode) :=
  defineRoutes (defineNestedRoutes (S (length routes)) None).

End TreeAssembly.

(** ** Route map builder *)

(** /(([+][/\\][^/\\:?*]+)|[/\\](index|route)|(_[^/\\:?*]+))\.(tsx?|jsx?|mdx?)$$/ *)
Definition routeRegex : Js.regex :=
  let slash := Js.Cls false ["/"; "\"]%char in
  let segmentChars := Js.ClsPlus true ["/"; "\"; ":"; "?"; "*"]%char in
  Js.Seq
    (Js.Alt (Js.Seq (Js.Cls false ["+"%char]) (Js.Seq slash segmentChars))
       (Js.Alt (Js.Seq slash (Js.Alt (Js.Lit "index") (Js.Lit "route")))
          (Js.Seq (Js.Chr "_") segmentChars)))
    (Js.Seq (Js.Chr ".")
       (Js.Seq
          (Js.Alt (Js.Seq (Js.Lit "ts") (Js.Opt (Js.Chr "x")))
             (Js.Alt (Js.Seq (Js.Lit "js") (Js.Opt (Js.Chr "x")))
                (Js.Seq (Js.Lit "md") (Js.Opt (Js.Chr "x")))))
          (Js.Seq Js.Eol Js.Eol))).

Section RouteMap.

(** [path.join], [path.extname], [path.sep] and [path.posix.join] of
    Node.js; [createRouteId] of ./routes and [routeModuleExts] of
    ./routesConvention, neither under src/. *)
Variable pathJoin : string -> string -> string.
Variable pathExtname : string -> string.
Variable pathSep : ascii.
Variable posixJoin : string -> string -> string.
Variable createRouteId : string -> string.
Variable routeModuleExts : list string.

Definition isRouteModuleFile (filePath : string) : bool :=
  let isFlatFile := negb (Js.includes filePath (String pathSep EmptyString)) in
  if isFlatFile then
    existsb (String.eqb (pathExtname filePath)) routeModuleExts
  else Js.test routeRegex filePath.

Definition createFlatRouteId (filePath : string) : string :=
  let routeId := createRouteId filePath in
  if Js.includes routeId (String posixSep EmptyString)
     && Js.endsWith routeId "/index"
  then Js.join (String posixSep EmptyString)
         (Js.arrayInit (Js.split posixSep routeId))
  else routeId.

Definition getRouteInfo (appDirectory routeDirectory filePath : string)
    : result RouteInfo :=
  let filePathWithoutApp :=
    Js.sliceFrom (String.length appDirectory + 1) filePath in
  let routeId := createFlatRouteId filePathWithoutApp in
  let routeIdWithoutRoutes :=
    Js.sliceFrom (String.length routeDirectory + 1) routeId in
  let index := isIndexRoute routeIdWithoutRoutes in
  routeSegments ← getRouteSegments routeIdWithoutRoutes;
  let routePath := createRoutePath routeSegments index in
  Ok {| id := routeIdWithoutRoutes;
        path := routePath;
        file := filePathWithoutApp;
        name := Js.join "/" routeSegments;
        segments := routeSegments;
        index := index;
        parentId := None |}.

(** The first loop of [getRouteMap], filling [routeMap] and [nameMap]. *)
Fixpoint collectRoutes (appDirectory prefix : string) (routePaths : list string)
    (routeMap : JsMap.t RouteInfo) (nameMap : gmap string RouteInfo)
    : result (JsMap.t RouteInfo * gmap string RouteInfo) :=
  match routePaths with
  | [] => Ok (routeMap, nameMap)
  | routePath :: rest =>
      let routesDirectory := pathJoin appDirectory prefix in
      let pathWithoutAppRoutes :=
        Js.sliceFrom (String.length routesDirectory + 1) routePath in
      if isRouteModuleFile pathWithoutAppRoutes then
        routeInfo ← getRouteInfo appDirectory prefix routePath;
        collectRoutes appDirectory prefix rest
          (JsMap.set routeMap (id routeInfo) routeInfo)
          (<[name routeInfo := routeInfo]> nameMap)
      else collectRoutes appDirectory prefix rest routeMap nameMap
  end.

(** [routeInfo.parentId = parentId] *)
Definition setParentId (parent : option string) (routeInfo : RouteInfo)
    : RouteInfo :=
  {| id := id routeInfo; path := path routeInfo; file := file routeInfo;
     name := name routeInfo; segments := segments routeInfo;
     index := index routeInfo; parentId := parent |}.

(** The second loop assigns [parentId] in every entry of [routeMap]; the
    lookups in [nameMap] read only the [id] of an entry, which the
    assignment leaves alone. *)
Definition getRouteMap (appDirectory : string) (routePaths : list string)
    (prefix : string) : result (JsMap.t RouteInfo) :=
  '(routeMap, nameMap) ←
    collectRoutes appDirectory prefix routePaths JsMap.empty ∅;
  Ok (map (fun '(key, routeInfo) =>
             (key, setParentId (findParentRouteId routeInfo nameMap) routeInfo))
          routeMap).

Definition flatRoutesUniversal (appDirectory : string)
    (routePaths : list string) (prefix : string) : fueled (list RouteNode) :=
  match getRouteMap appDirectory routePaths prefix with
  | Throw e => Some (Throw e)
  | Ok routeMap => assemble posixJoin prefix routeMap
  end.

End RouteMap.

(** * Specification-side definitions and example data *)

(** ** Path builder *)

(** The path builder in the words of section 4.2. *)
Module PathSpec.

Definition dropIndexMarker (segs : list string) (isIndex : bool) : list string :=
  if isIndex then removelast segs else segs.

(** A segment is pathless when its first character is [_]. *)
Definition isPathless (seg : string) : bool :=
  match seg with
  | String c _ => Ascii.eqb c "_"
  | EmptyString => false
  end.

(** The segment without its last character, when that character is [_];
    only one is removed. *)
Fixpoint stripTrailingMarker (seg : string) : string :=
  match seg with
  | EmptyString => EmptyString
  | String c EmptyString => if Ascii.eqb c "_" then EmptyString else seg
  | String c rest => String c (stripTrailingMarker rest)
  end.

(** The segments that contribute to the URL, in order. *)
Definition remaining (segs : list string) (isIndex : bool) : list string :=
  map stripTrailingMarker
    (List.filter (fun seg => negb (isPathless seg)) (dropIndexMarker segs isIndex)).

Fixpoint concatPrefixed (segs : list string) : string :=
  match segs with
  | [] => EmptyString
  | seg :: rest => "/" +:+ seg +:+ concatPrefixed rest
  end.

Definition routePath (segs : list string) (isIndex : bool) : option string :=
  match remaining segs isIndex with
  | [] => None
  | kept => Some (concatPrefixed kept)
  end.

End PathSpec.

(** ** Segment tokenizer *)

(** The raw segment holds a character the flush rejects. *)
Definition rejected (raw : string) : bool :=
  Js.includes raw "*" || Js.includes raw ":" || Js.includes raw "/".

Definition isReserved (c : ascii) : bool :=
  Ascii.eqb "*" c || Ascii.eqb ":" c || Ascii.eqb "/" c.

(** Where the characters of the route id end up, in the words of section
    4.1: the state after a character, and whether the character is added to
    the raw segment. *)
Module TokenSpec.

Definition next (st : State) (c : ascii) : State :=
  match st with
  | NORMAL =>
      if isSegmentSeparator c then NORMAL
      else if Ascii.eqb c "[" then ESCAPE
      else if Ascii.eqb c "(" then OPTIONAL
      else NORMAL
  | ESCAPE => if Ascii.eqb c "]" then NORMAL else ESCAPE
  | OPTIONAL =>
      if Ascii.eqb c ")" then NORMAL
      else if Ascii.eqb c "[" then OPTIONAL_ESCAPE
      else OPTIONAL
  | OPTIONAL_ESCAPE => if Ascii.eqb c "]" then OPTIONAL else OPTIONAL_ESCAPE
  end.

(** A [/] read in NORMAL state separates segments; anywhere else it is
    part of one. *)
Definition slashInside (st : State) (c : ascii) : bool :=
  Ascii.eqb "/" c && match st with NORMAL => false | _ => true end.

(** The route id has a [*] or a [:] anywhere, or a [/] between brackets or
    parentheses. *)
Fixpoint reservedFrom (st : State) (s : string) : bool :=
  match s with
  | EmptyString => false
  | String c rest =>
      Ascii.eqb "*" c || Ascii.eqb ":" c || slashInside st c
      || reservedFrom (next st c) rest
  end.

Definition reserved (routeId : string) : bool := reservedFrom NORMAL routeId.

(** The same scan, counting only the characters outside [[ ]]: the
    reserved characters outside of escape syntax of section 7. *)
Fixpoint unescapedReservedFrom (st : State) (s : string) : bool :=
  match s with
  | EmptyString => false
  | String c rest =>
      match st with
      | ESCAPE | OPTIONAL_ESCAPE => false
      | _ => Ascii.eqb "*" c || Ascii.eqb ":" c || slashInside st c
      end
      || unescapedReservedFrom (next st c) rest
  end.

Definition unescapedReserved (routeId : string) : bool :=
  unescapedReservedFrom NORMAL routeId.

End TokenSpec.

(** The two accumulators grow together. *)
Definition inStep (t : Tokenizer) : Prop :=
  Js.truthy (routeSegment t) = Js.truthy (rawRouteSegment t).

(** The string has a [/]. *)
Definition hasSlash (s : string) : bool := Js.includes s "/".

(** ** Parent resolution *)

(** Prefixes of a name that end just before a [/], in the words of section
    4.5. *)
Module ParentSpec.

(** [p] is [name] truncated at one of its [/]. *)
Definition truncation (p name : string) : Prop :=
  exists rest, name = p +:+ String "/" rest.



(** What [getRouteSegments] emits: not empty, and without a [/]. *)
Definition segmentOk (seg : string) : Prop :=
  seg <> EmptyString /\ hasSlash seg = false.

End ParentSpec.

(** The invariant of the tokenizer behind well-formed segments: the
    segments emitted so far are well formed, and the segment and its raw
    copy agree on having a [/]. *)
Definition segmentsOk (t : Tokenizer) : Prop :=
  Forall ParentSpec.segmentOk (routeSegments t) /\
  hasSlash (routeSegment t) = hasSlash (rawRouteSegment t).

(** A candidate of the loop: the name it holds, or a truncation of it; the
    loop stops at the empty name. *)
Definition candidate (s p : string) : Prop :=
  p <> EmptyString /\ (p = s \/ ParentSpec.truncation p s).



(** ** Tree assembly *)

(** The nodes of an emitted tree, parents before children: id, file and
    index flag of each. *)
Fixpoint nodesOf (n : RouteNode) : list (string * string * bool) :=
  match n with
  | Node _ nodeFile nodeId nodeIndex children =>
      (nodeId, nodeFile, nodeIndex) :: flat_map nodesOf children
  end.

(** No node emitted with the index flag has children. *)
Fixpoint indexNodesAreLeaves (n : RouteNode) : bool :=
  match n with
  | Node _ _ _ nodeIndex children =>
      (negb nodeIndex || match children with [] => true | _ => false end)
      && forallb indexNodesAreLeaves children
  end.

(** The relative path [defineRoute] is given. *)
Definition relativePath (parentRoutePath : string) (c : RouteInfo) : string :=
  removeLeadingSlash
    (match path c with
     | Some p => Js.sliceFrom (String.length parentRoutePath) p
     | None => EmptyString
     end).

Section TraversalOrder.

Variable posixJoin : string -> string -> string.
Variable prefix : string.
Variable routeMap : JsMap.t RouteInfo.

#[local] Abbreviation routes := (routes routeMap).
#[local] Abbreviation childRoutesOf := (childRoutesOf routeMap).

(** The routes the recursion goes through below [parent], in order, when
    nothing throws. *)
Fixpoint visited (fuel : nat) (parent : option string) : list RouteInfo :=
  match fuel with
  | O => []
  | S fuel' =>
      flat_map
        (fun c => c :: if index c then [] else visited fuel' (Some (id c)))
        (childRoutesOf parent)
  end.

(** The conflict checks of a sequence of routes. *)
Fixpoint checkAll (l : list RouteInfo) (uniqueRoutes : gmap string string)
    : result (gmap string string) :=
  match l with
  | [] => Ok uniqueRoutes
  | c :: l' => uniqueRoutes' ← checkUnique c uniqueRoutes; checkAll l' uniqueRoutes'
  end.

(** What [defineRoute] is given for a route. *)
Definition nodeOf (c : RouteInfo) : string * string * bool :=
  (posixJoin prefix (id c), file c, index c).

(** A route the assembly gets to: its chain of parents leads to the root
    and goes through no index route. *)
Inductive visitable : RouteInfo -> Prop :=
| visitable_root r :
    In r routes -> parentId r = None -> visitable r
| visitable_child r p :
    In r routes -> visitable p -> index p = false ->
    parentId r = Some (id p) -> visitable r.

(** The routes from the current parent up to the root. *)
Inductive chain : list RouteInfo -> option string -> Prop :=
| chain_nil : chain [] None
| chain_cons c anc parent :
    chain anc parent -> In c routes -> parentId c = parent ->
    chain (c :: anc) (Some (id c)).

(** What a run that stays within its budget has to do with the order of
    visit: the same conflict checks in the same order, and one node for
    each route. *)
Definition follows (l : list RouteInfo) (u : gmap string string)
    (r : fueled (gmap string string * list RouteNode)) : Prop :=
  match r with
  | None => True
  | Some (Throw e) => checkAll l u = Throw e
  | Some (Ok (u', nodes)) =>
      checkAll l u = Ok u' /\
      flat_map nodesOf nodes = map nodeOf l /\
      forallb indexNodesAreLeaves nodes = true
  end.

End TraversalOrder.

(** Every entry of [uniqueRoutes] was put there by one of the routes
    [done]. *)
Definition registeredBy (u : gmap string string) (done : list RouteInfo) : Prop :=
  forall k v, u !! k = Some v ->
    exists c, In c done /\ uniqueRouteIdOf (path c) (index c) = k /\ id c = v.

(** The keys of the map are distinct and each is the id of its entry. *)
Definition keyedById (m : JsMap.t RouteInfo) : Prop :=
  NoDup (map fst m) /\ Forall (fun kv => fst kv = id (snd kv)) m.

(** ** Examples on a POSIX file system *)

(** Node.js [path] on POSIX, on the paths of the examples: [join] of an
    absolute normalized directory and a relative normalized path, and
    [extname] of a path whose last dot is in its last component and is not
    its first character. *)
Module Posix.

Definition sep : ascii := "/".

Definition join (a b : string) : string := a +:+ "/" +:+ b.

Definition extname (p : string) : string :=
  let dot := Js.lastIndexOf p "." in
  if (0 <? dot)%Z then Js.sliceFrom (Z.to_nat dot) p else EmptyString.

End Posix.

(** Modelled from the spec: [createRouteId] of ./routes is not under src/.
    Section 4.3: the file path with the extension removed and the
    separators normalized. *)
Definition createRouteId (file : string) : string :=
  let dot := Js.lastIndexOf file "." in
  let stripped := if (0 <=? dot)%Z then Js.substring file 0 dot else file in
  Js.join "/" (Js.split "\" stripped).

(** Modelled from the spec: [routeModuleExts] of ./routesConvention is not
    under src/. Section 6 lists the recognized extensions. *)
Definition routeModuleExts : list string :=
  [".js"; ".jsx"; ".ts"; ".tsx"; ".md"; ".mdx"].

Definition posixRouteMap : string -> list string -> string ->
                           result (JsMap.t RouteInfo) :=
  getRouteMap Posix.join Posix.extname Posix.sep createRouteId routeModuleExts.

Definition posixFlatRoutes : string -> list string -> string ->
                             fueled (list RouteNode) :=
  flatRoutesUniversal Posix.join Posix.extname Posix.sep Posix.join
    createRouteId routeModuleExts.

(** An index route and a route below it. *)
Definition indexWithChild : JsMap.t RouteInfo :=
  [("a._index",
    {| id := "a._index"; path := Some "/a"; file := "routes/a._index.tsx";
       name := "a/_index"; segments := ["a"; "_index"]; index := true;
       parentId := None |});
   ("a._index.b",
    {| id := "a._index.b"; path := Some "/a/b"; file := "routes/a._index.b.tsx";
       name := "a/_index/b"; segments := ["a"; "_index"; "b"]; index := false;
       parentId := Some "a._index" |})].

(** Two pathless layout routes. *)
Definition pathlessA : RouteInfo :=
  {| id := "_a"; path := None; file := "routes/_a.tsx"; name := "_a";
     segments := ["_a"]; index := false; parentId := None |}.

Definition pathlessB : RouteInfo :=
  {| id := "_b"; path := None; file := "routes/_b.tsx"; name := "_b";
     segments := ["_b"]; index := false; parentId := None |}.

(** Two routes at [/users]. *)
Definition usersRoute : RouteInfo :=
  {| id := "users"; path := Some "/users"; file := "routes/users.tsx";
     name := "users"; segments := ["users"]; index := false;
     parentId := None |}.

Definition usersInLayout : RouteInfo :=
  {| id := "_a.users"; path := Some "/users"; file := "routes/_a.users.tsx";
     name := "_a/users"; segments := ["_a"; "users"]; index := false;
     parentId := None |}.

Definition twoUsers : JsMap.t RouteInfo :=
  [("users", usersRoute); ("_a.users", usersInLayout)].

(** ** Definitions for the further properties *)

(** Every character of the string passes the test. *)
Fixpoint allChars (P : ascii -> bool) (s : string) : bool :=
  match s with
  | EmptyString => true
  | String c s' => P c && allChars P s'
  end.

(** Some character of the string passes the test. *)
Fixpoint anyChar (P : ascii -> bool) (s : string) : bool :=
  match s with
  | EmptyString => false
  | String c s' => P c || anyChar P s'
  end.

(** The characters a state of the tokenizer appends as they are: in NORMAL
    state all but the separators, the two opening delimiters and the param
    prefix; between brackets all but the closing bracket; between
    parentheses all but the closing parenthesis, the opening bracket and the
    param prefix. *)
Definition literalIn (st : State) (c : ascii) : bool :=
  match st with
  | NORMAL =>
      negb (isSegmentSeparator c) && negb (Ascii.eqb c "[")
      && negb (Ascii.eqb c "(") && negb (Ascii.eqb c "$")
  | ESCAPE | OPTIONAL_ESCAPE => negb (Ascii.eqb c "]")
  | OPTIONAL =>
      negb (Ascii.eqb c ")") && negb (Ascii.eqb c "[")
      && negb (Ascii.eqb c "$")
  end.

(** A character a state appends as it is and the flush accepts. *)
Definition ordinaryIn (st : State) (c : ascii) : bool :=
  literalIn st c && negb (isReserved c).

(** The non-empty runs of characters between separators, in order; [acc]
    is the run read so far. *)
Fixpoint runsFrom (acc : string) (s : string) : list string :=
  match s with
  | EmptyString => if Js.truthy acc then [acc] else []
  | String c s' =>
      if isSegmentSeparator c then
        (if Js.truthy acc then [acc] else []) ++ runsFrom EmptyString s'
      else runsFrom (Js.snoc acc c) s'
  end.

Definition runs (s : string) : list string := runsFrom EmptyString s.

(** The path of a segment list as a string, empty when there is none. *)
Definition pathOrEmpty (segs : list string) : string :=
  match createRoutePath segs false with
  | Some p => p
  | None => EmptyString
  end.

(** The path [defineRoute] was given for a node. *)
Definition nodePathOf (n : RouteNode) : string :=
  match n with Node nodePath _ _ _ _ => nodePath end.

(** A route info agrees with its id: segments, name, index flag and path are
    what the extractor computes from the id. *)
Definition derivedFromId (r : RouteInfo) : Prop :=
  getRouteSegments (id r) = Ok (segments r) /\
  name r = Js.join "/" (segments r) /\
  index r = isIndexRoute (id r) /\
  path r = createRoutePath (segments r) (index r).

(** A route with an index route among its ancestors. *)
Inductive underIndex (routeMap : JsMap.t RouteInfo) : RouteInfo -> Prop :=
| underIndex_child r q :
    In r (routes routeMap) -> In q (routes routeMap) ->
    index q = true -> parentId r = Some (id q) -> underIndex routeMap r
| underIndex_below r q :
    In r (routes routeMap) -> In q (routes routeMap) ->
    parentId r = Some (id q) -> underIndex routeMap q ->
    underIndex routeMap r.

(** A segment other than the catch-all: not empty, and either free of
    [*], [:] and [/], or a [:] followed by a name free of them. *)
Definition innerSegment (s : string) : Prop :=
  s <> EmptyString /\
  (rejected s = false \/
   exists name, s = String ":" name /\ rejected name = false).

(** The segment agrees with its raw copy but for a param prefix at the
    start; the catch-all stands alone at the end of the input. *)
Definition shaped (rest : string) (t : Tokenizer) : Prop :=
  Forall innerSegment (routeSegments t) /\
  (routeSegment t = rawRouteSegment t \/
   (exists raw', rawRouteSegment t = String "$" raw' /\
                 routeSegment t = String ":" raw') \/
   (routeSegment t = "*" /\ rawRouteSegment t = "$" /\ rest = EmptyString)).

(** The extensions the pattern of nested route modules ends with. *)
Definition nestedExtensions : list string :=
  ["ts"; "tsx"; "js"; "jsx"; "md"; "mdx"].

(** The two maps of [getRouteMap] while they are filled: the route map is
    keyed by id, every entry agrees with its id, and every entry of the name
    map is filed under its name and has its id among the keys of the route
    map. *)
Definition linked (m : JsMap.t RouteInfo) (nameMap : gmap string RouteInfo)
    : Prop :=
  keyedById m /\
  Forall (fun kv => derivedFromId (snd kv)) m /\
  forall k v, nameMap !! k = Some v ->
    name v = k /\ derivedFromId v /\ In (id v) (map fst m).

(** [routes/users.$id.tsx], whose parent is [routes/users.tsx]. *)
Definition userParam : RouteInfo :=
  {| id := "users.$id"; path := Some "/users/:id";
     file := "routes/users.$id.tsx"; name := "users/:id";
     segments := ["users"; ":id"]; index := false;
     parentId := Some "users" |}.

Definition usersWithParam : JsMap.t RouteInfo :=
  [("users", usersRoute); ("users.$id", userParam)].

(** [routes/a.b.tsx] and [routes/a/b/route.tsx]: two ids, one name. *)
Definition dottedRoute : RouteInfo :=
  {| id := "a.b"; path := Some "/a/b"; file := "routes/a.b.tsx";
     name := "a/b"; segments := ["a"; "b"]; index := false;
     parentId := None |}.

Definition folderRoute : RouteInfo :=
  {| id := "a/b/route"; path := Some "/a/b"; file := "routes/a/b/route.tsx";
     name := "a/b"; segments := ["a"; "b"]; index := false;
     parentId := None |}.

Definition sameNameRoutes : JsMap.t RouteInfo :=
  [("a.b", dottedRoute); ("a/b/route", folderRoute)].


(** * Properties *)

(** ** Strings *)

Lemma append_nil_l (s : string) : EmptyString +:+ s = s.
Proof. reflexivity. Qed.

Lemma append_cons (c : ascii) (s t : string) :
  String c s +:+ t = String c (s +:+ t).
Proof. reflexivity. Qed.

Lemma append_nil_r (s : string) : s +:+ EmptyString = s.
Proof.
  induction s as [|c s IH]; [reflexivity|].
  rewrite append_cons, IH. reflexivity.
Qed.

Lemma append_assoc (s t u : string) : (s +:+ t) +:+ u = s +:+ (t +:+ u).
Proof.
  induction s as [|c s IH]; [reflexivity|].
  rewrite !append_cons, IH. reflexivity.
Qed.

Lemma append_length (s t : string) :
  String.length (s +:+ t) = String.length s + String.length t.
Proof.
  induction s as [|c s IH]; [reflexivity|].
  rewrite append_cons. simpl. rewrite IH. reflexivity.
Qed.

Lemma truthy_false (s : string) : Js.truthy s = false <-> s = EmptyString.
Proof. destruct s; simpl; split; congruence. Qed.

Lemma truthy_true (s : string) : Js.truthy s = true <-> s <> EmptyString.
Proof. destruct s; simpl; split; congruence. Qed.

Lemma truthy_append (s t : string) :
  Js.truthy (s +:+ t) = Js.truthy s || Js.truthy t.
Proof. destruct s; reflexivity. Qed.

Lemma snoc_truthy (s : string) (c : ascii) : Js.truthy (Js.snoc s c) = true.
Proof. unfold Js.snoc. rewrite truthy_append. apply orb_true_r. Qed.

(** ** Index-route detection (C3) *)


(** A flat id is an index route exactly when it ends in [_index]. *)
Lemma isIndexRoute_flat (routeId : string) :
  Js.includes routeId "/" = false ->
  isIndexRoute routeId = Js.endsWith routeId "_index".
Proof. intros H. unfold isIndexRoute, posixSep. rewrite H. reflexivity. Qed.


(** ** Path builder (C6, C7) *)

(** C6, as the spec has it, fails on the code: the path builder copies a
    [$] as it is. *)
Lemma createRoutePath_dollar_refuted :
  createRoutePath ["users"; "$id"] false <> Some "/users/:id".
Proof. vm_compute. discriminate. Qed.

(** C6 (amended): the path builder maps the normalized segments [users],
    [:id] to [/users/:id]; the rewrite of [$id] into [:id] is the
    tokenizer's, and the segments [users], [$id] give [/users/$id]. *)
Theorem createRoutePath_users_id :
  createRoutePath ["users"; ":id"] false = Some "/users/:id" /\
  getRouteSegments "users.$id" = Ok ["users"; ":id"] /\
  createRoutePath ["users"; "$id"] false = Some "/users/$id".
Proof. repeat split; vm_compute; reflexivity. Qed.

(** The two tests of the loop body against the words of the spec. *)
Lemma isPathless_startsWith (seg : string) :
  PathSpec.isPathless seg = Js.startsWith seg "_".
Proof.
  destruct seg as [|c seg]; [reflexivity|].
  cbn [PathSpec.isPathless Js.startsWith].
  rewrite Ascii.eqb_sym. destruct seg; rewrite andb_true_r; reflexivity.
Qed.

Lemma stripTrailingMarker_slice (seg : string) :
  PathSpec.stripTrailingMarker seg
  = if Js.endsWith seg "_" then Js.sliceInit seg else seg.
Proof.
  induction seg as [|c seg IH]; [reflexivity|].
  destruct seg as [|d seg].
  - cbn [PathSpec.stripTrailingMarker Js.endsWith Js.sliceInit String.eqb].
    rewrite orb_false_r. destruct (Ascii.eqb c "_"); reflexivity.
  - change (PathSpec.stripTrailingMarker (String c (String d seg)))
      with (String c (PathSpec.stripTrailingMarker (String d seg))).
    rewrite IH.
    change (Js.endsWith (String c (String d seg)) "_")
      with (String.eqb (String c (String d seg)) "_"
            || Js.endsWith (String d seg) "_").
    change (Js.sliceInit (String c (String d seg)))
      with (String c (Js.sliceInit (String d seg))).
    replace (String.eqb (String c (String d seg)) "_") with false
      by (cbn [String.eqb]; destruct (Ascii.eqb c "_"); reflexivity).
    cbn [orb]. destruct (Js.endsWith (String d seg) "_"); reflexivity.
Qed.

Lemma stripTrailingMarker_last (s : string) (c : ascii) :
  PathSpec.stripTrailingMarker (s +:+ String c EmptyString)
  = if Ascii.eqb c "_" then s else s +:+ String c EmptyString.
Proof.
  induction s as [|a s IH]; [reflexivity|].
  rewrite append_cons.
  destruct (s +:+ String c EmptyString) as [|b t] eqn:E.
  - destruct s; discriminate.
  - change (PathSpec.stripTrailingMarker (String a (String b t)))
      with (String a (PathSpec.stripTrailingMarker (String b t))).
    rewrite IH. destruct (Ascii.eqb c "_"); reflexivity.
Qed.

Lemma createRoutePath_loop (segs : list string) (acc : string) :
  fold_left
    (fun result segment =>
       if Js.startsWith segment "_" then result
       else
         let segment :=
           if Js.endsWith segment "_" then Js.sliceInit segment else segment in
         result +:+ "/" +:+ segment)
    segs acc
  = acc +:+ PathSpec.concatPrefixed
              (map PathSpec.stripTrailingMarker
                 (List.filter (fun seg => negb (PathSpec.isPathless seg)) segs)).
Proof.
  revert acc. induction segs as [|seg segs IH]; intros acc;
    cbn [fold_left List.filter map].
  - cbn [PathSpec.concatPrefixed]. rewrite append_nil_r. reflexivity.
  - rewrite isPathless_startsWith.
    destruct (Js.startsWith seg "_"); cbn [negb].
    + apply IH.
    + cbn [map PathSpec.concatPrefixed].
      rewrite IH, stripTrailingMarker_slice, !append_assoc. reflexivity.
Qed.

(** C7: [createRoutePath] drops the last segment of an index route, skips
    the segments that start with [_], strips one trailing [_], prefixes each
    remaining segment with [/] and concatenates them in order, and returns
    [undefined] when none remain; [_auth], [login] gives [/login]. The
    stripping is that of the spec: a segment that ends in [_] loses that one
    character, as [c_] and [c__] do, and any other segment is kept as it
    is; a pathless segment is one whose first character is [_]. *)
Theorem createRoutePath_spec :
  (forall (routeSegments : list string) (isIndex : bool),
     createRoutePath routeSegments isIndex
     = PathSpec.routePath routeSegments isIndex) /\
  (forall (s : string) (c : ascii),
     PathSpec.stripTrailingMarker (s +:+ String c EmptyString)
     = if Ascii.eqb c "_" then s else s +:+ String c EmptyString) /\
  PathSpec.stripTrailingMarker EmptyString = EmptyString /\
  (forall (c : ascii) (s : string),
     PathSpec.isPathless (String c s) = Ascii.eqb c "_") /\
  PathSpec.isPathless EmptyString = false /\
  createRoutePath ["_auth"; "login"] false = Some "/login" /\
  createRoutePath ["a"; "_b"; "c_"; "d"] false = Some "/a/c/d" /\
  createRoutePath ["c__"] false = Some "/c_" /\
  createRoutePath ["a_"; "b"; "_index"] true = Some "/a/b" /\
  createRoutePath ["a"; "b"] true = Some "/a" /\
  createRoutePath ["_a"; "_b"] false = None /\
  createRoutePath ["index"] true = None.
Proof.
  split; [|split; [exact stripTrailingMarker_last|
                   repeat (split; [try (vm_compute; reflexivity);
                                   try reflexivity|]);
                   vm_compute; reflexivity]].
  intros segs isIndex. unfold createRoutePath, PathSpec.routePath.
  rewrite createRoutePath_loop, append_nil_l.
  unfold PathSpec.remaining, PathSpec.dropIndexMarker, Js.arrayInit.
  destruct (map _ _) as [|seg kept]; reflexivity.
Qed.

(** ** Segment tokenizer (C4, C5, C9) *)

#[local] Arguments Ascii.eqb : simpl never.

Lemma startsWith_char (s : string) (d : ascii) :
  Js.startsWith s (String d EmptyString)
  = match s with String b _ => Ascii.eqb d b | EmptyString => false end.
Proof.
  destruct s as [|b s]; simpl; [reflexivity|].
  destruct s; apply andb_true_r.
Qed.

Lemma includes_snoc (s : string) (c d : ascii) :
  Js.includes (Js.snoc s c) (String d EmptyString)
  = Js.includes s (String d EmptyString) || Ascii.eqb d c.
Proof.
  unfold Js.snoc. induction s as [|b s IH].
  - rewrite append_nil_l. simpl. rewrite andb_true_r, orb_false_r. reflexivity.
  - rewrite append_cons.
    change (Js.includes (String b ?t) ?p)
      with (Js.startsWith (String b t) p || Js.includes t p).
    rewrite IH, !startsWith_char, orb_assoc. reflexivity.
Qed.

Lemma rejected_snoc (raw : string) (c : ascii) :
  rejected (Js.snoc raw c) = rejected raw || isReserved c.
Proof.
  unfold rejected, isReserved. rewrite !includes_snoc.
  destruct (Js.includes raw "*"), (Js.includes raw ":"), (Js.includes raw "/"),
    (Ascii.eqb "*" c), (Ascii.eqb ":" c), (Ascii.eqb "/" c); reflexivity.
Qed.

Lemma pushRouteSegment_throws (routeId raw : string) (segs : list string)
    (seg : string) :
  isThrow (pushRouteSegment routeId raw segs seg) = Js.truthy seg && rejected raw.
Proof.
  unfold pushRouteSegment, rejected.
  destruct (Js.truthy seg), (Js.includes raw "*"), (Js.includes raw ":"),
    (Js.includes raw "/"); reflexivity.
Qed.

Lemma pushRouteSegment_ok (routeId raw : string) (segs : list string)
    (seg : string) :
  rejected raw = false ->
  pushRouteSegment routeId raw segs seg
  = Ok (if Js.truthy seg then segs ++ [seg] else segs).
Proof.
  unfold pushRouteSegment, rejected. intros H.
  apply orb_false_iff in H as [H H3]. apply orb_false_iff in H as [H1 H2].
  rewrite H1, H2, H3. destruct (Js.truthy seg); reflexivity.
Qed.

Lemma isThrow_bind {A B} (m : result A) (f : A -> result B) :
  isThrow (m ≫= f)
  = match m with Ok a => isThrow (f a) | Throw _ => true end.
Proof. destruct m; reflexivity. Qed.

Lemma scan_throws (routeId rest : string) (t : Tokenizer) :
  inStep t ->
  isThrow (t' ← scan routeId rest t;
           pushRouteSegment routeId (rawRouteSegment t') (routeSegments t')
             (routeSegment t'))
  = rejected (rawRouteSegment t) || TokenSpec.reservedFrom (state t) rest.
Proof.
  revert t. induction rest as [|c rest IH]; intros [segs seg raw st] Hin;
    unfold inStep in Hin; simpl in Hin.
  - simpl. rewrite pushRouteSegment_throws, orb_false_r, Hin.
    unfold rejected. destruct raw; reflexivity.
  - change (scan routeId (String c rest) ?t)
      with (t' ← step routeId c (negb (Js.truthy rest)) t; scan routeId rest t').
    assert (Hsep : isSegmentSeparator c = true -> isReserved c = Ascii.eqb "/" c).
    { unfold isSegmentSeparator, isReserved. simpl.
      destruct (Ascii.eqb_spec c "/") as [->|]; [reflexivity|].
      destruct (Ascii.eqb_spec c ".") as [->|]; [reflexivity|].
      destruct (Ascii.eqb_spec c "\") as [->|]; [reflexivity|]. discriminate. }
    assert (Hnsep : isSegmentSeparator c = false -> Ascii.eqb "/" c = false).
    { unfold isSegmentSeparator. simpl. rewrite (Ascii.eqb_sym "/" c).
      destruct (Ascii.eqb c "/"); [discriminate|reflexivity]. }
    destruct st; unfold step; simpl state; simpl routeSegment;
      simpl rawRouteSegment; simpl routeSegments.
    + (* NORMAL *)
      destruct (isSegmentSeparator c) eqn:Esep.
      * destruct (pushRouteSegment routeId raw segs seg) as [segs'|e] eqn:Epush.
        -- pose proof (pushRouteSegment_throws routeId raw segs seg) as Hp.
           rewrite Epush, Hin in Hp. simpl in Hp.
           change (isThrow (t' ← scan routeId rest
                                    (mkTokenizer segs' EmptyString EmptyString NORMAL);
                            pushRouteSegment routeId (rawRouteSegment t')
                              (routeSegments t') (routeSegment t'))
                   = rejected raw
                     || TokenSpec.reservedFrom NORMAL (String c rest)).
           rewrite IH by reflexivity. simpl.
           unfold TokenSpec.slashInside. rewrite Esep, andb_false_r, orb_false_r.
           assert (Hraw : rejected raw = false).
           { destruct raw; [reflexivity|]. simpl in Hp. symmetry. exact Hp. }
           rewrite Hraw. simpl.
           assert (Hc : Ascii.eqb "*" c || Ascii.eqb ":" c = false).
           { unfold isSegmentSeparator in Esep. simpl in Esep.
             destruct (Ascii.eqb_spec c "/") as [->|]; [reflexivity|].
             destruct (Ascii.eqb_spec c ".") as [->|]; [reflexivity|].
             destruct (Ascii.eqb_spec c "\") as [->|]; [reflexivity|].
             discriminate. }
           rewrite Hc. reflexivity.
        -- pose proof (pushRouteSegment_throws routeId raw segs seg) as Hp.
           rewrite Epush, Hin in Hp. simpl in Hp.
           assert (Hraw : rejected raw = true).
           { destruct (Js.truthy raw); simpl in Hp; [symmetry; exact Hp|discriminate]. }
           rewrite Hraw. reflexivity.
      * specialize (Hnsep eq_refl).
        destruct (Ascii.eqb c escapeStart) eqn:Eesc;
          [|destruct (Ascii.eqb c optionalStart) eqn:Eopt;
            [|destruct (negb (Js.truthy seg) && Ascii.eqb c paramPrefixChar) eqn:Epar]].
        -- change (isThrow (t' ← scan routeId rest (mkTokenizer segs seg raw ESCAPE);
                            pushRouteSegment routeId (rawRouteSegment t')
                              (routeSegments t') (routeSegment t'))
                   = rejected raw || TokenSpec.reservedFrom NORMAL (String c rest)).
           rewrite IH by exact Hin. simpl.
           unfold escapeStart in Eesc. rewrite Esep, Eesc.
           apply Ascii.eqb_eq in Eesc as ->. reflexivity.
        -- change (isThrow (t' ← scan routeId rest (mkTokenizer segs seg raw OPTIONAL);
                            pushRouteSegment routeId (rawRouteSegment t')
                              (routeSegments t') (routeSegment t'))
                   = rejected raw || TokenSpec.reservedFrom NORMAL (String c rest)).
           rewrite IH by exact Hin. simpl.
           unfold escapeStart in Eesc. unfold optionalStart in Eopt.
           rewrite Esep, Eesc, Eopt.
           apply Ascii.eqb_eq in Eopt as ->. reflexivity.
        -- apply andb_true_iff in Epar as [_ Epar].
           apply Ascii.eqb_eq in Epar as ->.
           change (isThrow (t' ← scan routeId rest
                                    (paramPrefix (negb (Js.truthy rest)) "$"
                                       (mkTokenizer segs seg raw NORMAL));
                            pushRouteSegment routeId (rawRouteSegment t')
                              (routeSegments t') (routeSegment t'))
                   = rejected raw || TokenSpec.reservedFrom NORMAL (String "$" rest)).
           rewrite IH.
           ++ unfold paramPrefix. destruct (negb (Js.truthy rest)); simpl;
                rewrite rejected_snoc; change (isReserved "$") with false;
             rewrite orb_false_r; reflexivity.
           ++ unfold inStep, paramPrefix. destruct (negb (Js.truthy rest)); simpl;
                rewrite !snoc_truthy; reflexivity.
        -- change (isThrow (t' ← scan routeId rest
                                    (appendChar c (mkTokenizer segs seg raw NORMAL));
                            pushRouteSegment routeId (rawRouteSegment t')
                              (routeSegments t') (routeSegment t'))
                   = rejected raw || TokenSpec.reservedFrom NORMAL (String c rest)).
           rewrite IH by (unfold inStep; simpl; rewrite !snoc_truthy; reflexivity).
           simpl. rewrite rejected_snoc. unfold isReserved, TokenSpec.slashInside.
           unfold escapeStart in Eesc. unfold optionalStart in Eopt.
           rewrite Esep, Eesc, Eopt, Hnsep. simpl.
           rewrite !orb_false_r, !orb_assoc. reflexivity.
    + (* ESCAPE *)
      destruct (Ascii.eqb c escapeEnd) eqn:Eend.
      * change (isThrow (t' ← scan routeId rest (mkTokenizer segs seg raw NORMAL);
                         pushRouteSegment routeId (rawRouteSegment t')
                           (routeSegments t') (routeSegment t'))
                = rejected raw || TokenSpec.reservedFrom ESCAPE (String c rest)).
        rewrite IH by exact Hin. simpl. unfold escapeEnd in Eend. rewrite Eend.
        apply Ascii.eqb_eq in Eend as ->. reflexivity.
      * change (isThrow (t' ← scan routeId rest
                                 (appendChar c (mkTokenizer segs seg raw ESCAPE));
                         pushRouteSegment routeId (rawRouteSegment t')
                           (routeSegments t') (routeSegment t'))
                = rejected raw || TokenSpec.reservedFrom ESCAPE (String c rest)).
        rewrite IH by (unfold inStep; simpl; rewrite !snoc_truthy; reflexivity).
        simpl. rewrite rejected_snoc. unfold isReserved, TokenSpec.slashInside.
        unfold escapeEnd in Eend. rewrite Eend, andb_true_r, !orb_assoc.
        reflexivity.
    + (* OPTIONAL *)
      destruct (Ascii.eqb c optionalEnd) eqn:Eend;
        [|destruct (Ascii.eqb c escapeStart) eqn:Eesc;
          [|destruct (negb (Js.truthy seg) && Ascii.eqb c paramPrefixChar) eqn:Epar]].
      * change (isThrow (t' ← scan routeId rest
                                 (mkTokenizer segs (Js.snoc seg "?") (Js.snoc raw "?")
                                    NORMAL);
                         pushRouteSegment routeId (rawRouteSegment t')
                           (routeSegments t') (routeSegment t'))
                = rejected raw || TokenSpec.reservedFrom OPTIONAL (String c rest)).
        rewrite IH by (unfold inStep; simpl; rewrite !snoc_truthy; reflexivity).
        simpl. rewrite rejected_snoc. unfold optionalEnd in Eend. rewrite Eend.
        apply Ascii.eqb_eq in Eend as ->. simpl. rewrite orb_false_r. reflexivity.
      * change (isThrow (t' ← scan routeId rest
                                 (mkTokenizer segs seg raw OPTIONAL_ESCAPE);
                         pushRouteSegment routeId (rawRouteSegment t')
                           (routeSegments t') (routeSegment t'))
                = rejected raw || TokenSpec.reservedFrom OPTIONAL (String c rest)).
        rewrite IH by exact Hin. simpl.
        unfold optionalEnd in Eend. unfold escapeStart in Eesc.
        rewrite Eend, Eesc. apply Ascii.eqb_eq in Eesc as ->. reflexivity.
      * apply andb_true_iff in Epar as [_ Epar].
        apply Ascii.eqb_eq in Epar as ->.
        change (isThrow (t' ← scan routeId rest
                                 (paramPrefix (negb (Js.truthy rest)) "$"
                                    (mkTokenizer segs seg raw OPTIONAL));
                         pushRouteSegment routeId (rawRouteSegment t')
                           (routeSegments t') (routeSegment t'))
                = rejected raw || TokenSpec.reservedFrom OPTIONAL (String "$" rest)).
        rewrite IH.
        -- unfold paramPrefix. destruct (negb (Js.truthy rest)); simpl;
             rewrite rejected_snoc; change (isReserved "$") with false;
             rewrite orb_false_r; reflexivity.
        -- unfold inStep, paramPrefix. destruct (negb (Js.truthy rest)); simpl;
             rewrite !snoc_truthy; reflexivity.
      * change (isThrow (t' ← scan routeId rest
                                 (appendChar c (mkTokenizer segs seg raw OPTIONAL));
                         pushRouteSegment routeId (rawRouteSegment t')
                           (routeSegments t') (routeSegment t'))
                = rejected raw || TokenSpec.reservedFrom OPTIONAL (String c rest)).
        rewrite IH by (unfold inStep; simpl; rewrite !snoc_truthy; reflexivity).
        simpl. rewrite rejected_snoc. unfold isReserved, TokenSpec.slashInside.
        unfold optionalEnd in Eend. unfold escapeStart in Eesc.
        rewrite Eend, Eesc, andb_true_r, !orb_assoc. reflexivity.
    + (* OPTIONAL_ESCAPE *)
      destruct (Ascii.eqb c escapeEnd) eqn:Eend.
      * change (isThrow (t' ← scan routeId rest (mkTokenizer segs seg raw OPTIONAL);
                         pushRouteSegment routeId (rawRouteSegment t')
                           (routeSegments t') (routeSegment t'))
                = rejected raw
                  || TokenSpec.reservedFrom OPTIONAL_ESCAPE (String c rest)).
        rewrite IH by exact Hin. simpl. unfold escapeEnd in Eend. rewrite Eend.
        apply Ascii.eqb_eq in Eend as ->. reflexivity.
      * change (isThrow (t' ← scan routeId rest
                                 (appendChar c
                                    (mkTokenizer segs seg raw OPTIONAL_ESCAPE));
                         pushRouteSegment routeId (rawRouteSegment t')
                           (routeSegments t') (routeSegment t'))
                = rejected raw
                  || TokenSpec.reservedFrom OPTIONAL_ESCAPE (String c rest)).
        rewrite IH by (unfold inStep; simpl; rewrite !snoc_truthy; reflexivity).
        simpl. rewrite rejected_snoc. unfold isReserved, TokenSpec.slashInside.
        unfold escapeEnd in Eend. rewrite Eend, andb_true_r, !orb_assoc.
        reflexivity.
Qed.

(** C4, as the spec has it, fails on the code: [[*]] has its only reserved
    character between the escape delimiters, and the tokenizer throws. *)
Lemma getRouteSegments_escaped_star_refuted :
  ~ (isThrow (getRouteSegments "[*]")
     = TokenSpec.unescapedReserved (stripFolderMarker "[*]")).
Proof. vm_compute. discriminate. Qed.

(** C4 (amended): [getRouteSegments] throws the unsupported-segment-character
    error if and only if the route id, after the folder marker is cut off,
    has a [*] or a [:] anywhere, or a [/] inside brackets or parentheses;
    reserved characters written between [[] and []] do make it throw. *)
Theorem getRouteSegments_throws_iff :
  (forall routeId : string,
     isThrow (getRouteSegments routeId)
     = TokenSpec.reserved (stripFolderMarker routeId)) /\
  getRouteSegments "[*]" = Throw (UnsupportedSegmentChar "*" "[*]" "*") /\
  getRouteSegments "a[:]" = Throw (UnsupportedSegmentChar "a:" "a[:]" ":") /\
  getRouteSegments "a[/]b" = Throw (UnsupportedSegmentChar "a/b" "a[/]b" "/").
Proof.
  split; [|repeat split; vm_compute; reflexivity].
  intros routeId. unfold getRouteSegments.
  rewrite scan_throws by reflexivity. reflexivity.
Qed.

(** C5: a [$] read in NORMAL or OPTIONAL state while the segment is still
    empty starts the segment with [*] when it is the last character of the
    route id and with [:] otherwise, the state staying as it is, so the
    characters that follow are appended as the parameter name; a [$] read
    while the segment is not empty is appended as it is. The route id is
    the one the loop scans, after the folder marker is cut off: in
    [a/$/index] the [$] is its last character. *)
Theorem paramPrefix_rewrite :
  (forall (routeId rest : string) (segs : list string) (raw : string)
          (optional : bool),
     let st := if optional then OPTIONAL else NORMAL in
     scan routeId (String "$" rest) (mkTokenizer segs EmptyString raw st)
     = scan routeId rest
         (mkTokenizer segs (if Js.truthy rest then ":" else "*")
            (Js.snoc raw "$") st)) /\
  (forall (routeId rest : string) (segs : list string) (c : ascii)
          (seg raw : string) (optional : bool),
     let st := if optional then OPTIONAL else NORMAL in
     scan routeId (String "$" rest) (mkTokenizer segs (String c seg) raw st)
     = scan routeId rest
         (mkTokenizer segs (Js.snoc (String c seg) "$") (Js.snoc raw "$") st)) /\
  getRouteSegments "$" = Ok ["*"] /\
  getRouteSegments "$id" = Ok [":id"] /\
  getRouteSegments "files.$" = Ok ["files"; "*"] /\
  getRouteSegments "$lang/$ref" = Ok [":lang"; ":ref"] /\
  getRouteSegments "($" = Ok ["*"] /\
  getRouteSegments "($id)" = Ok [":id?"] /\
  getRouteSegments "a$" = Ok ["a$"] /\
  getRouteSegments "(a$)" = Ok ["a$?"] /\
  getRouteSegments "a/$/index" = Ok ["a"; "*"].
Proof.
  split; [|split; [|repeat split; vm_compute; reflexivity]].
  - intros routeId rest segs raw [|]; destruct rest; reflexivity.
  - intros routeId rest segs c seg raw [|]; reflexivity.
Qed.

(** C9: whatever state the loop ends in, the segment accumulated so far is
    flushed: the only error left is the one for a reserved character in the
    raw segment, and without one the result is the segments emitted so far
    followed by the last segment when it is not empty. An unterminated
    bracket or parenthesis is not an error. *)
Theorem unterminated_is_flushed :
  forall (routeId : string) (t : Tokenizer),
    scan (stripFolderMarker routeId) (stripFolderMarker routeId)
      initialTokenizer = Ok t ->
    state t <> NORMAL ->
    (rejected (rawRouteSegment t) = false ->
     getRouteSegments routeId
     = Ok (if Js.truthy (routeSegment t)
           then routeSegments t ++ [routeSegment t]
           else routeSegments t)) /\
    (forall e, getRouteSegments routeId = Throw e ->
       rejected (rawRouteSegment t) = true /\
       exists segment char,
         e = UnsupportedSegmentChar segment (stripFolderMarker routeId) char).
Proof.
  intros routeId t Hscan _. unfold getRouteSegments. rewrite Hscan.
  change (Ok t ≫= ?f) with (f t). cbv beta. split.
  - apply pushRouteSegment_ok.
  - intros e He.
    pose proof (pushRouteSegment_throws (stripFolderMarker routeId)
                  (rawRouteSegment t) (routeSegments t) (routeSegment t)) as Hp.
    rewrite He in Hp. simpl in Hp. symmetry in Hp.
    apply andb_true_iff in Hp as [_ Hp]. split; [exact Hp|].
    unfold pushRouteSegment in He.
    repeat match type of He with
           | (if ?b then _ else _) = _ => destruct b
           end; inversion He; eauto.
Qed.

(** An unterminated escape, optional segment and escape inside an optional
    segment, each flushed at the end of the input. *)
Lemma unterminated_is_flushed_witness :
  getRouteSegments "a.b[c" = Ok ["a"; "bc"] /\
  getRouteSegments "a.(b" = Ok ["a"; "b"] /\
  getRouteSegments "a.(b[c" = Ok ["a"; "bc"] /\
  getRouteSegments "a.[" = Ok ["a"].
Proof.
  split; [|split; [|split]].
  - apply (unterminated_is_flushed "a.b[c" (mkTokenizer ["a"] "bc" "bc" ESCAPE));
      [reflexivity|discriminate|reflexivity].
  - apply (unterminated_is_flushed "a.(b" (mkTokenizer ["a"] "b" "b" OPTIONAL));
      [reflexivity|discriminate|reflexivity].
  - apply (unterminated_is_flushed "a.(b[c"
             (mkTokenizer ["a"] "bc" "bc" OPTIONAL_ESCAPE));
      [reflexivity|discriminate|reflexivity].
  - apply (unterminated_is_flushed "a.[" (mkTokenizer ["a"] "" "" ESCAPE));
      [reflexivity|discriminate|reflexivity].
Defined.

(** ** Parent lookup *)

Lemma hasSlash_cons (b : ascii) (s : string) :
  hasSlash (String b s) = Ascii.eqb "/" b || hasSlash s.
Proof.
  unfold hasSlash.
  change (Js.includes (String b s) "/")
    with (Js.startsWith (String b s) "/" || Js.includes s "/").
  rewrite startsWith_char. reflexivity.
Qed.

Lemma hasSlash_append (s t : string) :
  hasSlash (s +:+ t) = hasSlash s || hasSlash t.
Proof.
  induction s as [|b s IH]; [reflexivity|].
  rewrite append_cons, !hasSlash_cons, IH, orb_assoc. reflexivity.
Qed.

Lemma take_append (q t : string) : Js.take (String.length q) (q +:+ t) = q.
Proof.
  induction q as [|b q IH]; [destruct t; reflexivity|].
  rewrite append_cons. simpl. rewrite IH. reflexivity.
Qed.

Lemma substring_prefix (q t : string) :
  Js.substring (q +:+ t) 0 (Z.of_nat (String.length q)) = q.
Proof.
  unfold Js.substring. rewrite append_length.
  replace (Z.to_nat (Z.min (Z.max 0 0) _)) with 0 by lia.
  replace (Z.to_nat (Z.min (Z.max (Z.of_nat (String.length q)) 0) _))
    with (String.length q) by lia.
  rewrite Nat.min_0_l, Nat.max_0_l, Nat.sub_0_r. simpl Js.sliceFrom.
  apply take_append.
Qed.

Lemma substring_absent (s : string) : Js.substring s 0 (-1) = EmptyString.
Proof.
  unfold Js.substring.
  replace (Z.to_nat (Z.min (Z.max 0 0) _)) with 0 by lia.
  replace (Z.to_nat (Z.min (Z.max (-1) 0) _)) with 0 by lia.
  reflexivity.
Qed.

(** [lastIndexOf] either finds no [/], or splits the string at its last
    [/]. *)
Lemma lastIndexFrom_spec (k : Z) (s : string) :
  (0 <= k)%Z ->
  (hasSlash s = false /\ Js.lastIndexFrom k "/" s = (-1)%Z) \/
  (exists q rest,
     s = q +:+ String "/" rest /\ hasSlash rest = false /\
     Js.lastIndexFrom k "/" s = (k + Z.of_nat (String.length q))%Z).
Proof.
  revert k. induction s as [|b s IH]; intros k Hk.
  - left. split; reflexivity.
  - simpl Js.lastIndexFrom. rewrite hasSlash_cons.
    destruct (IH (k + 1)%Z ltac:(lia))
      as [[Hno Hidx]|(q & rest & -> & Hrest & Hidx)].
    + rewrite Hidx. simpl (0 <=? -1)%Z. cbv iota.
      rewrite (Ascii.eqb_sym b "/"). destruct (Ascii.eqb_spec "/" b) as [<-|Hb].
      * right. exists EmptyString, s. rewrite Z.add_0_r. auto.
      * left. rewrite Hno. auto.
    + right. exists (String b q), rest. rewrite Hidx.
      replace (0 <=? k + 1 + Z.of_nat (String.length q))%Z with true
        by (symmetry; apply Z.leb_le; lia).
      repeat split; [assumption|]. simpl String.length. lia.
Qed.

Lemma truncation_length (p name : string) :
  ParentSpec.truncation p name -> String.length p < String.length name.
Proof.
  intros [rest ->]. rewrite append_length. simpl. lia.
Qed.

Lemma truncation_no_slash (p name : string) :
  hasSlash name = false -> ~ ParentSpec.truncation p name.
Proof.
  intros H [rest ->]. rewrite hasSlash_append, hasSlash_cons in H.
  change (Ascii.eqb "/" "/") with true in H.
  rewrite orb_true_r in H. discriminate.
Qed.

(** The truncations of [q/rest], when [rest] has no [/], are [q] and the
    truncations of [q]. *)
Lemma truncation_split (p q rest : string) :
  hasSlash rest = false ->
  ParentSpec.truncation p (q +:+ String "/" rest) <->
  p = q \/ ParentSpec.truncation p q.
Proof.
  intros Hrest. split.
  - intros [r Heq]. revert q Heq.
    induction p as [|a p IH]; intros [|c q] Heq.
    + left. reflexivity.
    + right. rewrite append_nil_l, append_cons in Heq.
      injection Heq as -> <-. exists q. reflexivity.
    + rewrite append_nil_l, append_cons in Heq. injection Heq as _ Heq.
      subst rest.
      rewrite hasSlash_append, hasSlash_cons in Hrest.
      change (Ascii.eqb "/" "/") with true in Hrest.
      rewrite orb_true_r in Hrest. discriminate.
    + rewrite !append_cons in Heq. injection Heq as -> Heq.
      destruct (IH q Heq) as [->|[r' ->]]; [left; reflexivity|].
      right. exists r'. reflexivity.
  - intros [->|[r' ->]].
    + exists rest. reflexivity.
    + exists (r' +:+ String "/" rest).
      rewrite append_assoc, append_cons. reflexivity.
Qed.

Lemma candidate_length (s p : string) :
  candidate s p -> String.length p <= String.length s.
Proof.
  intros [_ [->|H]]; [lia|]. apply truncation_length in H. lia.
Qed.

Lemma candidate_step (s p : string) :
  let s' := Js.substring s 0 (Js.lastIndexOf s "/") in
  String.length s' < String.length s \/ s = EmptyString ->
  candidate s p <-> (p <> EmptyString /\ p = s) \/ candidate s' p.
Proof.
  unfold Js.lastIndexOf, candidate.
  destruct (lastIndexFrom_spec 0 s ltac:(lia)) as [[Hno ->]|(q & rest & -> & Hrest & ->)];
    cbv zeta; intros _.
  - rewrite substring_absent. split.
    + intros [Hp [->|H]]; [left; auto|].
      exfalso. exact (truncation_no_slash _ _ Hno H).
    + intros [[Hp ->]|[Hp [->|[r H]]]]; [auto|congruence|].
      destruct p; discriminate.
  - rewrite Z.add_0_l, substring_prefix, truncation_split by exact Hrest.
    tauto.
Qed.

Lemma substring_shorter (s : string) :
  s <> EmptyString ->
  String.length (Js.substring s 0 (Js.lastIndexOf s "/")) < String.length s.
Proof.
  intros Hs. unfold Js.lastIndexOf.
  destruct (lastIndexFrom_spec 0 s ltac:(lia)) as [[Hno ->]|(q & rest & -> & Hrest & ->)].
  - rewrite substring_absent. destruct s; [congruence|simpl; lia].
  - rewrite Z.add_0_l, substring_prefix, append_length. simpl. lia.
Qed.

(** The loop ends within its budget and returns the id registered under
    the longest candidate. *)
Lemma findParentLoop_spec (nameMap : gmap string RouteInfo) (fuel : nat)
    (s : string) :
  String.length s < fuel ->
  exists res,
    findParentLoop fuel nameMap s = Some res /\
    match res with
    | Some pid =>
        exists p r,
          candidate s p /\ nameMap !! p = Some r /\ id r = pid /\
          forall p', candidate s p' -> String.length p < String.length p' ->
                     nameMap !! p' = None
    | None => forall p, candidate s p -> nameMap !! p = None
    end.
Proof.
  revert s. induction fuel as [|fuel IH]; intros s Hlen; [lia|].
  simpl findParentLoop. destruct (Js.truthy s) eqn:Hs.
  - apply truthy_true in Hs.
    destruct (nameMap !! s) as [r|] eqn:Hlook.
    + exists (Some (id r)). split; [reflexivity|].
      exists s, r. split; [unfold candidate; auto|].
      split; [exact Hlook|]. split; [reflexivity|].
      intros p' Hc Hlt. apply candidate_length in Hc. lia.
    + pose proof (substring_shorter s Hs) as Hshort.
      destruct (IH (Js.substring s 0 (Js.lastIndexOf s "/"))) as (res & -> & Hres);
        [lia|].
      exists res. split; [reflexivity|].
      pose proof (fun p => candidate_step s p (or_introl Hshort)) as Hstep.
      cbv zeta in Hstep.
      destruct res as [pid|].
      * destruct Hres as (p & r & Hc & Hp & Hid & Hmax).
        exists p, r. split; [apply Hstep; right; exact Hc|].
        split; [exact Hp|]. split; [exact Hid|].
        intros p' Hc' Hlt. apply Hstep in Hc' as [[_ ->]|Hc']; auto.
      * intros p Hc. apply Hstep in Hc as [[_ ->]|Hc]; auto.
  - apply truthy_false in Hs as ->.
    exists None. split; [reflexivity|].
    intros p [Hp [->|H]]; [congruence|].
    apply truncation_length in H. simpl in H. lia.
Qed.

Lemma join_snoc (l : list string) (x : string) :
  l <> [] -> Js.join "/" (l ++ [x]) = Js.join "/" l +:+ String "/" x.
Proof.
  induction l as [|y l IH]; intros Hl; [congruence|].
  destruct l as [|z l]; [reflexivity|].
  change (Js.join "/" ((y :: z :: l) ++ [x]))
    with (y +:+ "/" +:+ Js.join "/" ((z :: l) ++ [x])).
  rewrite IH by discriminate.
  change (Js.join "/" (y :: z :: l)) with (y +:+ "/" +:+ Js.join "/" (z :: l)).
  rewrite !append_assoc. reflexivity.
Qed.

Lemma list_last_cases {A} (l : list A) :
  l = [] \/ exists l' x, l = l' ++ [x].
Proof. induction l using rev_ind; eauto. Qed.

(** A name made of well-formed segments does not begin with a [/]. *)
Lemma join_no_leading_slash (l : list string) :
  Forall ParentSpec.segmentOk l -> ~ ParentSpec.truncation EmptyString (Js.join "/" l).
Proof.
  intros Hl [rest Heq]. rewrite append_nil_l in Heq.
  destruct Hl as [|x l [Hx Hslash] _]; [discriminate|].
  destruct x as [|c x]; [congruence|].
  rewrite hasSlash_cons in Hslash. apply orb_false_iff in Hslash as [Hc _].
  assert (Hhead : exists t, Js.join "/" (String c x :: l) = String c t).
  { destruct l; [exists x; reflexivity|]. eexists. reflexivity. }
  destruct Hhead as [t Ht]. rewrite Ht in Heq. injection Heq as -> _.
  discriminate Hc.
Qed.

Lemma join_truthy (x : string) (l : list string) :
  x <> EmptyString -> Js.join "/" (x :: l) <> EmptyString.
Proof.
  intros Hx. destruct x as [|c x]; [congruence|]. destruct l; discriminate.
Qed.



Lemma hasSlash_snoc (s : string) (c : ascii) :
  hasSlash (Js.snoc s c) = hasSlash s || Ascii.eqb "/" c.
Proof.
  unfold Js.snoc. rewrite hasSlash_append, hasSlash_cons.
  change (hasSlash EmptyString) with false. rewrite orb_false_r. reflexivity.
Qed.

Lemma pushRouteSegment_segmentOk (routeId raw : string) (segs segs' : list string)
    (seg : string) :
  Forall ParentSpec.segmentOk segs ->
  hasSlash seg = hasSlash raw ->
  pushRouteSegment routeId raw segs seg = Ok segs' ->
  Forall ParentSpec.segmentOk segs'.
Proof.
  intros Hsegs Hslash. unfold pushRouteSegment.
  destruct (Js.truthy seg) eqn:Hseg; simpl; [|congruence].
  destruct (Js.includes raw "*"); [discriminate|].
  destruct (Js.includes raw ":"); [discriminate|].
  destruct (Js.includes raw "/") eqn:Hraw; [discriminate|].
  intros [= <-]. apply Forall_app. split; [exact Hsegs|].
  constructor; [|constructor]. split.
  - apply truthy_true. exact Hseg.
  - rewrite Hslash. exact Hraw.
Qed.

Lemma step_segmentsOk (routeId : string) (c : ascii) (atEnd : bool)
    (t t' : Tokenizer) :
  segmentsOk t -> step routeId c atEnd t = Ok t' -> segmentsOk t'.
Proof.
  destruct t as [segs seg raw st]. intros [Hsegs Hslash].
  cbn [routeSegments routeSegment rawRouteSegment] in Hsegs, Hslash.
  assert (Hpar : forall b, b && Ascii.eqb c paramPrefixChar = true ->
                           Ascii.eqb "/" c = false).
  { intros b Hb. apply andb_true_iff in Hb as [_ Hb].
    apply Ascii.eqb_eq in Hb as ->. reflexivity. }
  unfold step, paramPrefix, appendChar, setState.
  cbn [routeSegments routeSegment rawRouteSegment state].
  destruct st, atEnd.
  all: unfold mbind, result_bind.
  all: repeat match goal with
              | |- (if ?b then _ else _) = _ -> _ => destruct b eqn:?
              | |- match pushRouteSegment ?r ?w ?l ?g with _ => _ end = _ -> _ =>
                  destruct (pushRouteSegment r w l g) eqn:?
              end.
  all: try discriminate.
  all: intros [= <-]; split; cbn [routeSegments routeSegment rawRouteSegment].
  all: try exact Hsegs.
  all: try (eapply pushRouteSegment_segmentOk; eassumption).
  all: rewrite ?hasSlash_snoc, ?Hslash, ?(Hpar _ ltac:(eassumption));
    reflexivity.
Qed.

Lemma scan_segmentsOk (routeId rest : string) (t t' : Tokenizer) :
  segmentsOk t -> scan routeId rest t = Ok t' -> segmentsOk t'.
Proof.
  revert t. induction rest as [|c rest IH]; intros t Ht.
  - intros [= <-]. exact Ht.
  - simpl scan.
    destruct (step routeId c (negb (Js.truthy rest)) t) as [t1|e] eqn:Hstep;
      [|discriminate].
    intros Hscan. apply (IH t1); [|exact Hscan].
    exact (step_segmentsOk _ _ _ _ _ Ht Hstep).
Qed.

Lemma getRouteSegments_segmentOk (routeId : string) (segs : list string) :
  getRouteSegments routeId = Ok segs -> Forall ParentSpec.segmentOk segs.
Proof.
  unfold getRouteSegments.
  destruct (scan _ _ initialTokenizer) as [t|e] eqn:Hscan; [|discriminate].
  intros Hpush.
  assert (Ht : segmentsOk t).
  { eapply scan_segmentsOk; [|exact Hscan].
    split; [constructor|reflexivity]. }
  destruct Ht as [Hsegs Hslash].
  exact (pushRouteSegment_segmentOk _ _ _ _ _ Hsegs Hslash Hpush).
Qed.

(** ** Tree assembly (C1, C2, C10) *)

Section AssemblyFacts.

Variable posixJoin : string -> string -> string.
Variable prefix : string.
Variable routeMap : JsMap.t RouteInfo.

#[local] Abbreviation routes := (routes routeMap).
#[local] Abbreviation childrenOf := (childRoutesOf routeMap).
#[local] Abbreviation visit := (visited routeMap).
#[local] Abbreviation node := (nodeOf posixJoin prefix).
#[local] Abbreviation nested := (defineNestedRoutes posixJoin prefix routeMap).
#[local] Abbreviation childBody := (defineChild posixJoin prefix routeMap).
#[local] Abbreviation agrees := (follows posixJoin prefix).

(** The loop body, case by case. The index-child check never fires:
    [Object.values] of the route map is empty. *)
Lemma defineChild_eq
    (recurse : option string -> gmap string string ->
               fueled (gmap string string * list RouteNode))
    (parentRoutePath : string) (c : RouteInfo) (u : gmap string string) :
  childBody recurse parentRoutePath c u
  = (match checkUnique c u with
    | Throw e => Some (Throw e)
    | Ok u1 =>
        if index c then
          Some (Ok (u1, Node (relativePath parentRoutePath c) (file c)
                          (posixJoin prefix (id c)) true []))
        else
          match recurse (Some (id c)) u1 with
          | None => None
          | Some (Throw e) => Some (Throw e)
          | Some (Ok (u2, nodes)) =>
              Some (Ok (u2, Node (relativePath parentRoutePath c) (file c)
                              (posixJoin prefix (id c)) false nodes))
          end
    end).
Proof.
  unfold defineChild, relativePath, andThen.
  destruct (checkUnique c u) as [u1|e]; [|reflexivity].
  destruct (index c); [reflexivity|].
  unfold defineRoute, andThen.
  destruct (recurse (Some (id c)) u1) as [[[u2 nodes]|e]|]; reflexivity.
Qed.

Lemma bind_Ok {A B} (a : A) (f : A -> result B) : Ok a ≫= f = f a.
Proof. reflexivity. Qed.

Lemma checkAll_app (l1 l2 : list RouteInfo) (u : gmap string string) :
  checkAll (l1 ++ l2) u = checkAll l1 u ≫= checkAll l2.
Proof.
  revert u. induction l1 as [|c l1 IH]; intros u; [reflexivity|].
  simpl. destruct (checkUnique c u) as [u1|e]; [|reflexivity].
  apply IH.
Qed.

Lemma forEachChild_follows (fuel : nat) (parentRoutePath : string) :
  (forall parent u, agrees (visit fuel parent) u
                      (nested fuel parent u)) ->
  forall l u,
    agrees
      (flat_map (fun c => c :: if index c then [] else visit fuel (Some (id c))) l)
      u
      (forEachChild (childBody (nested fuel) parentRoutePath) l u).
Proof.
  intros IHfuel. induction l as [|c l IH]; intros u.
  - simpl. auto.
  - cbn [forEachChild flat_map]. rewrite defineChild_eq.
    assert (Hhead : forall X, checkAll (c :: X) u = checkUnique c u ≫= checkAll X)
      by reflexivity.
    destruct (checkUnique c u) as [u1|e] eqn:Hcu.
    2:{ cbn [andThen follows app]. rewrite Hhead. reflexivity. }
    destruct (index c) eqn:Hidx.
    + cbn [andThen app]. specialize (IH u1).
      destruct (forEachChild _ l u1) as [[[u2 nodes]|e]|];
        cbn [andThen follows] in *; rewrite ?Hhead, ?bind_Ok;
        [|exact IH|exact I].
      destruct IH as (Hc & Hn & Hl). split; [exact Hc|]. split.
      * cbn [flat_map nodesOf map app]. rewrite Hn.
        unfold nodeOf. rewrite Hidx. reflexivity.
      * cbn [forallb indexNodesAreLeaves]. rewrite Hl. reflexivity.
    + specialize (IHfuel (Some (id c)) u1).
      destruct (nested fuel (Some (id c)) u1) as [[[u2 sub]|e]|];
        cbn [andThen follows app] in *; rewrite ?Hhead, ?bind_Ok, ?checkAll_app;
        [|rewrite IHfuel; reflexivity|exact I].
      destruct IHfuel as (Hc & Hn & Hl). specialize (IH u2).
      destruct (forEachChild _ l u2) as [[[u3 nodes]|e]|];
        cbn [andThen follows] in *;
        rewrite ?Hhead, ?bind_Ok, ?checkAll_app, ?Hc, ?bind_Ok;
        [|exact IH|exact I].
      destruct IH as (Hc' & Hn' & Hl'). split; [exact Hc'|]. split.
      * cbn [flat_map nodesOf map app]. rewrite Hn, Hn', map_app.
        unfold nodeOf at 3. rewrite Hidx. reflexivity.
      * cbn [forallb indexNodesAreLeaves]. rewrite Hl, Hl'. reflexivity.
Qed.

Lemma defineNestedRoutes_follows (fuel : nat) (parent : option string)
    (u : gmap string string) :
  agrees (visit fuel parent) u (nested fuel parent u).
Proof.
  revert parent u. induction fuel as [|fuel IH]; intros parent u; [exact I|].
  apply forEachChild_follows. exact IH.
Qed.

Lemma in_childRoutesOf (c : RouteInfo) (parent : option string) :
  In c (childrenOf parent) <-> In c routes /\ parentId c = parent.
Proof.
  unfold childRoutesOf.
  rewrite <- !list_elem_of_In, list_elem_of_filter. tauto.
Qed.

(** A visited route is a child of the parent the visit started from, or of
    a route that is not an index route. *)
Lemma visited_parent (fuel : nat) (parent : option string) (c : RouteInfo) :
  In c (visit fuel parent) ->
  In c routes /\
  (parentId c = parent \/
   exists p, In p routes /\ index p = false /\ parentId c = Some (id p)).
Proof.
  revert parent. induction fuel as [|fuel IH]; intros parent; [intros []|].
  cbn [visited]. rewrite in_flat_map.
  intros (c0 & Hc0 & Hin). apply in_childRoutesOf in Hc0 as [Hc0 Hpar].
  destruct Hin as [<-|Hin]; [auto|].
  destruct (index c0) eqn:Hidx; [destruct Hin|].
  apply IH in Hin as [Hc [Hp|Hp]]; [|auto].
  split; [exact Hc|]. right. exists c0. auto.
Qed.

Lemma checkUnique_throw (c : RouteInfo) (u : gmap string string) (e : Error) :
  checkUnique c u = Throw e ->
  exists conflict,
    e = RouteConflict (path c) (id c) conflict /\
    Js.truthy (uniqueRouteIdOf (path c) (index c)) = true /\
    u !! uniqueRouteIdOf (path c) (index c) = Some conflict /\
    Js.truthy conflict = true.
Proof.
  unfold checkUnique.
  destruct (Js.truthy (uniqueRouteIdOf (path c) (index c))) eqn:Hkey;
    [|discriminate].
  destruct (u !! uniqueRouteIdOf (path c) (index c)) as [conflict|] eqn:Hlook;
    [|discriminate].
  destruct (Js.truthy conflict) eqn:Hconflict; [|discriminate].
  intros [= <-]. exists conflict. auto.
Qed.

Lemma checkAll_throw (l : list RouteInfo) (u : gmap string string) (e : Error) :
  checkAll l u = Throw e ->
  exists fullPath routeId conflict, e = RouteConflict fullPath routeId conflict.
Proof.
  revert u. induction l as [|c l IH]; intros u; [discriminate|].
  cbn [checkAll]. destruct (checkUnique c u) as [u1|e1] eqn:Hcu.
  - rewrite bind_Ok. apply IH.
  - intros [= <-]. apply checkUnique_throw in Hcu as (conflict & -> & _).
    eauto.
Qed.

(** The index-child error is never raised. *)
Lemma defineNestedRoutes_no_index_child_error (fuel : nat)
    (parent : option string) (u : gmap string string) (routeId : string) :
  nested fuel parent u <> Some (Throw (InvalidIndexChild routeId)).
Proof.
  intros Hrun. pose proof (defineNestedRoutes_follows fuel parent u) as Hf.
  rewrite Hrun in Hf. cbn [follows] in Hf.
  apply checkAll_throw in Hf as (? & ? & ? & ?). discriminate.
Qed.

Lemma NoDup_map_eq {A B} (f : A -> B) (l : list A) (a b : A) :
  NoDup (map f l) -> In a l -> In b l -> f a = f b -> a = b.
Proof.
  induction l as [|x l IH]; [intros _ []|].
  cbn [map]. intros Hnd. apply NoDup_cons in Hnd as [Hx Hnd].
  rewrite list_elem_of_In in Hx.
  intros [<-|Ha] [<-|Hb] Heq; auto.
  - exfalso. apply Hx. rewrite Heq. apply in_map. exact Hb.
  - exfalso. apply Hx. rewrite <- Heq. apply in_map. exact Ha.
Qed.

(** C10: in a manifest that is returned, no node emitted with the index
    flag has children, and a route whose [parentId] is the id of an index
    route has no node: the recursion goes only into routes that are not
    index routes. Ids are unique in the route map, being its keys, and
    the emitted ids tell the routes apart. *)
Theorem routes_under_index_omitted :
  forall trees : list RouteNode,
    NoDup (map id routes) ->
    (forall a b, In a routes -> In b routes ->
                 posixJoin prefix (id a) = posixJoin prefix (id b) ->
                 id a = id b) ->
    assemble posixJoin prefix routeMap = Some (Ok trees) ->
    forallb indexNodesAreLeaves trees = true /\
    forall r q,
      In r routes -> In q routes -> index q = true ->
      parentId r = Some (id q) ->
      forall nodeId nodeFile nodeIndex,
        In (nodeId, nodeFile, nodeIndex) (flat_map nodesOf trees) ->
        nodeId <> posixJoin prefix (id r).
Proof.
  intros trees Hnd Hinj Hrun. unfold assemble, defineRoutes in Hrun.
  pose proof (defineNestedRoutes_follows (S (length routes)) None ∅) as Hf.
  destruct (nested (S (length routes)) None ∅)
    as [[[u nodes]|e]|]; cbn [andThen] in Hrun; try discriminate.
  injection Hrun as ->. destruct Hf as (_ & Hnodes & Hleaves).
  split; [exact Hleaves|].
  intros r q Hr Hq Hidx Hpar nodeId nodeFile nodeIndex Hnode ->.
  rewrite Hnodes in Hnode. apply in_map_iff in Hnode as (c & Hc & Hvis).
  injection Hc as Hid _ _.
  apply visited_parent in Hvis as [Hcin Hcpar].
  assert (c = r) as ->.
  { apply (NoDup_map_eq id routes); auto. }
  destruct Hcpar as [Hnone|(p & Hp & Hpidx & Hppar)]; [congruence|].
  assert (p = q) as ->.
  { apply (NoDup_map_eq id routes); auto. congruence. }
  congruence.
Qed.

Section UniqueIds.

(** The ids are the keys of the route map. *)
Hypothesis ids_unique : NoDup (map id routes).

#[local] Abbreviation chain := (chain routeMap).
#[local] Abbreviation visitable := (visitable routeMap).

Lemma same_id (a b : RouteInfo) :
  In a routes -> In b routes -> id a = id b -> a = b.
Proof. apply NoDup_map_eq. exact ids_unique. Qed.

Lemma chain_In (anc : list RouteInfo) (parent : option string) :
  chain anc parent -> forall p, In p anc -> In p routes.
Proof.
  induction 1 as [|c anc parent _ IH Hc _]; [intros ? []|].
  intros p [<-|Hp]; auto.
Qed.

Lemma chain_suffix (l1 l2 : list RouteInfo) (p : RouteInfo)
    (parent : option string) :
  chain (l1 ++ p :: l2) parent -> chain (p :: l2) (Some (id p)).
Proof.
  revert parent. induction l1 as [|x l1 IH]; intros parent Hch.
  - inversion Hch; subst. econstructor; eauto.
  - inversion Hch; subst. eapply IH. eassumption.
Qed.

(** A parent has one chain up to the root. *)
Lemma chain_unique (l l' : list RouteInfo) (parent : option string) :
  chain l parent -> chain l' parent -> l = l'.
Proof.
  intros Hl. revert l'. induction Hl as [|c anc parent Hanc IH Hc Hpar];
    intros l' Hl'.
  - inversion Hl'. reflexivity.
  - inversion Hl' as [|c' anc' parent' Hanc' Hc' Hpar' Heq]; subst.
    assert (c' = c) as -> by (apply same_id; auto).
    f_equal. apply IH. exact Hanc'.
Qed.

Lemma chain_NoDup (anc : list RouteInfo) (parent : option string) :
  chain anc parent -> NoDup (map id anc).
Proof.
  induction 1 as [|c anc parent Hanc IH Hc Hpar]; [constructor|].
  cbn [map]. apply NoDup_cons. split; [|exact IH].
  rewrite list_elem_of_In. intros Hin.
  apply in_map_iff in Hin as (p & Hid & Hp).
  assert (p = c) as ->
    by (apply same_id; [exact (chain_In _ _ Hanc p Hp)|exact Hc|exact Hid]).
  apply in_split in Hp as (l1 & l2 & ->).
  pose proof (chain_suffix _ _ _ _ Hanc) as Hsuffix.
  assert (Hfull : chain (c :: l1 ++ c :: l2) (Some (id c)))
    by (econstructor; eauto).
  pose proof (chain_unique _ _ _ Hsuffix Hfull) as Heq.
  apply (f_equal (@length RouteInfo)) in Heq.
  cbn [length] in Heq. rewrite length_app in Heq. cbn [length] in Heq. lia.
Qed.

Lemma chain_length (anc : list RouteInfo) (parent : option string) :
  chain anc parent -> length anc <= length routes.
Proof.
  intros Hch. rewrite <- (length_map id anc), <- (length_map id routes).
  apply NoDup_incl_length.
  - apply NoDup_ListNoDup. exact (chain_NoDup _ _ Hch).
  - intros i Hi. apply in_map_iff in Hi as (p & <- & Hp).
    apply in_map. exact (chain_In _ _ Hch p Hp).
Qed.

Lemma forEachChild_not_None
    (body : RouteInfo -> gmap string string ->
            fueled (gmap string string * RouteNode))
    (l : list RouteInfo) (u : gmap string string) :
  (forall c u', In c l -> body c u' <> None) ->
  forEachChild body l u <> None.
Proof.
  revert u. induction l as [|c l IH]; intros u Hbody; [discriminate|].
  cbn [forEachChild].
  destruct (body c u) as [[[u1 node]|e]|] eqn:Hc; cbn [andThen];
    [|discriminate|exfalso; exact (Hbody c u (or_introl eq_refl) Hc)].
  specialize (IH u1 (fun c' u' Hc' => Hbody c' u' (or_intror Hc'))).
  destruct (forEachChild body l u1) as [[[u2 nodes]|e]|]; cbn [andThen];
    congruence.
Qed.

(** The recursion stays within its budget: below a chain of ancestors there
    are no more levels than routes left. *)
Lemma defineNestedRoutes_fuel (fuel : nat) (anc : list RouteInfo)
    (parent : option string) (u : gmap string string) :
  chain anc parent ->
  length routes < fuel + length anc ->
  nested fuel parent u <> None.
Proof.
  revert anc parent u. induction fuel as [|fuel IH]; intros anc parent u Hch Hlen.
  - apply chain_length in Hch. lia.
  - cbn [defineNestedRoutes]. apply forEachChild_not_None.
    intros c u' Hc. apply in_childRoutesOf in Hc as [Hc Hpar].
    rewrite defineChild_eq.
    destruct (checkUnique c u') as [u1|e]; [|discriminate].
    destruct (index c); [discriminate|].
    pose proof (IH (c :: anc) (Some (id c)) u1) as Hrec.
    destruct (nested fuel (Some (id c)) u1) as [[[u2 nodes]|e]|];
      try discriminate.
    exfalso. apply Hrec; [econstructor; eauto|cbn [length]; lia|reflexivity].
Qed.

Lemma assemble_fuel : assemble posixJoin prefix routeMap <> None.
Proof.
  unfold assemble, defineRoutes.
  pose proof (defineNestedRoutes_fuel (S (length routes)) [] None ∅
                (chain_nil routeMap)) as Hfuel.
  destruct (nested (S (length routes)) None ∅) as [[[u nodes]|e]|];
    cbn [andThen]; try discriminate.
  exfalso. apply Hfuel; [cbn [length]; lia|reflexivity].
Qed.

Lemma NoDup_flat_map {A B} (f : A -> list B) (l : list A) :
  NoDup l ->
  (forall a, In a l -> NoDup (f a)) ->
  (forall a b x, In a l -> In b l -> In x (f a) -> In x (f b) -> a = b) ->
  NoDup (flat_map f l).
Proof.
  induction l as [|a l IH]; intros Hl Hf Hdisj; [constructor|].
  apply NoDup_cons in Hl as [Ha Hl]. rewrite list_elem_of_In in Ha.
  cbn [flat_map]. apply NoDup_app. split; [apply Hf; left; reflexivity|].
  split.
  - intros x Hx Hx'. rewrite list_elem_of_In in Hx, Hx'.
    apply in_flat_map in Hx' as (b & Hb & Hxb).
    assert (a = b) as -> by (apply (Hdisj a b x); simpl; auto).
    exact (Ha Hb).
  - apply IH; [exact Hl|intros; apply Hf; right; assumption|].
    intros b c x Hb Hc. apply Hdisj; right; assumption.
Qed.

(** A visited route has a chain of ancestors that continues the chain of
    the parent the visit started from. *)
Lemma visited_chain (fuel : nat) (anc : list RouteInfo)
    (parent : option string) (x : RouteInfo) :
  chain anc parent -> In x (visit fuel parent) ->
  exists pre, chain (x :: pre ++ anc) (Some (id x)).
Proof.
  revert anc parent. induction fuel as [|fuel IH]; intros anc parent Hch;
    [intros []|].
  cbn [visited]. rewrite in_flat_map.
  intros (c & Hc & Hx). apply in_childRoutesOf in Hc as [Hc Hpar].
  assert (Hcc : chain (c :: anc) (Some (id c))) by (econstructor; eauto).
  destruct Hx as [<-|Hx]; [exists []; exact Hcc|].
  destruct (index c); [destruct Hx|].
  destruct (IH _ _ Hcc Hx) as [pre Hpre].
  exists (pre ++ [c]). rewrite <- app_assoc. exact Hpre.
Qed.

(** No route is visited twice. *)
Lemma visited_NoDup (fuel : nat) (anc : list RouteInfo)
    (parent : option string) :
  chain anc parent -> NoDup (visit fuel parent).
Proof.
  revert anc parent. induction fuel as [|fuel IH]; intros anc parent Hch;
    [constructor|].
  cbn [visited].
  assert (Hsub : forall c x,
             In c (childrenOf parent) ->
             In x (c :: if index c then [] else visit fuel (Some (id c))) ->
             exists pre, chain (pre ++ c :: anc) (Some (id x))).
  { intros c x Hc Hx. apply in_childRoutesOf in Hc as [Hc Hpar].
    assert (Hcc : chain (c :: anc) (Some (id c))) by (econstructor; eauto).
    destruct Hx as [<-|Hx]; [exists []; exact Hcc|].
    destruct (index c); [destruct Hx|].
    destruct (visited_chain _ _ _ _ Hcc Hx) as [pre Hpre].
    exists (x :: pre). exact Hpre. }
  apply NoDup_flat_map.
  - apply NoDup_filter. apply NoDup_ListNoDup.
    apply (NoDup_map_inv id). apply NoDup_ListNoDup. exact ids_unique.
  - intros c Hc. apply in_childRoutesOf in Hc as [Hc Hpar].
    assert (Hcc : chain (c :: anc) (Some (id c))) by (econstructor; eauto).
    apply NoDup_cons. split.
    + rewrite list_elem_of_In. destruct (index c); [intros []|].
      intros Hin. destruct (visited_chain _ _ _ _ Hcc Hin) as [pre Hpre].
      pose proof (chain_unique _ _ _ Hpre Hcc) as Heq.
      apply (f_equal (@length RouteInfo)) in Heq.
      cbn [length] in Heq. rewrite length_app in Heq. cbn [length] in Heq. lia.
    + destruct (index c); [constructor|]. exact (IH _ _ Hcc).
  - intros a b x Ha Hb Hxa Hxb.
    destruct (Hsub a x Ha Hxa) as [pre1 H1].
    destruct (Hsub b x Hb Hxb) as [pre2 H2].
    pose proof (chain_unique _ _ _ H1 H2) as Heq.
    change (pre1 ++ a :: anc) with (pre1 ++ [a] ++ anc) in Heq.
    change (pre2 ++ b :: anc) with (pre2 ++ [b] ++ anc) in Heq.
    rewrite !app_assoc in Heq. apply app_inv_tail in Heq.
    apply app_inj_tail in Heq as [_ Heq]. exact Heq.
Qed.

Lemma forEachChild_ok_inv
    (body : RouteInfo -> gmap string string ->
            fueled (gmap string string * RouteNode))
    (l : list RouteInfo) (u : gmap string string)
    (r : gmap string string * list RouteNode) :
  forEachChild body l u = Some (Ok r) ->
  forall c, In c l -> exists u1 r1, body c u1 = Some (Ok r1).
Proof.
  revert u r. induction l as [|c l IH]; intros u r Hrun; [intros ? []|].
  cbn [forEachChild] in Hrun.
  destruct (body c u) as [[[u1 node]|e]|] eqn:Hc; cbn [andThen] in Hrun;
    try discriminate.
  destruct (forEachChild body l u1) as [[[u2 nodes]|e]|] eqn:Hl;
    cbn [andThen] in Hrun; try discriminate.
  intros c' [<-|Hc']; [eauto|]. exact (IH _ _ Hl c' Hc').
Qed.

(** In a run that returns, the children of a visited route that is not an
    index route are visited as well. *)
Lemma visited_child (fuel : nat) (parent : option string)
    (u : gmap string string) (r : gmap string string * list RouteNode)
    (p x : RouteInfo) :
  nested fuel parent u = Some (Ok r) ->
  In p (visit fuel parent) -> index p = false ->
  In x routes -> parentId x = Some (id p) ->
  In x (visit fuel parent).
Proof.
  intros Hrun Hp Hidx Hx Hpar. revert parent u r Hrun Hp.
  induction fuel as [|fuel IH]; intros parent u r Hrun; [discriminate|].
  cbn [defineNestedRoutes] in Hrun. cbn [visited].
  rewrite !in_flat_map. intros (c & Hc & Hp). exists c. split; [exact Hc|].
  destruct (forEachChild_ok_inv _ _ _ _ Hrun c Hc) as (u1 & r1 & Hbody).
  rewrite defineChild_eq in Hbody.
  destruct (checkUnique c u1) as [u2|e]; [|discriminate].
  right. destruct Hp as [->|Hp].
  - rewrite Hidx in *.
    destruct (nested fuel (Some (id p)) u2) as [[r2|e]|] eqn:Hrec;
      try discriminate.
    destruct fuel as [|fuel]; [discriminate|].
    cbn [visited]. apply in_flat_map. exists x. split.
    + apply in_childRoutesOf. auto.
    + left. reflexivity.
  - destruct (index c); [destruct Hp|].
    destruct (nested fuel (Some (id c)) u2) as [[r2|e]|] eqn:Hrec;
      try discriminate.
    exact (IH _ _ _ Hrec Hp).
Qed.

Lemma visitable_visited (fuel : nat) (u : gmap string string)
    (r : gmap string string * list RouteNode) (x : RouteInfo) :
  nested fuel None u = Some (Ok r) ->
  visitable x -> In x (visit fuel None).
Proof.
  intros Hrun. induction 1 as [x Hx Hpar|x p Hx Hp IH Hidx Hpar].
  - destruct fuel as [|fuel]; [discriminate|].
    cbn [visited]. apply in_flat_map. exists x. split.
    + apply in_childRoutesOf. auto.
    + left. reflexivity.
  - exact (visited_child _ _ _ _ _ _ Hrun IH Hidx Hx Hpar).
Qed.

Lemma checkUnique_ok (c : RouteInfo) (u u1 : gmap string string) :
  checkUnique c u = Ok u1 ->
  let key := uniqueRouteIdOf (path c) (index c) in
  (Js.truthy key = false /\ u1 = u) \/
  (Js.truthy key = true /\ u1 = <[key := id c]> u /\
   forall v, u !! key = Some v -> Js.truthy v = false).
Proof.
  unfold checkUnique. cbv zeta.
  destruct (Js.truthy (uniqueRouteIdOf (path c) (index c))) eqn:Hkey.
  - destruct (u !! uniqueRouteIdOf (path c) (index c)) as [v|] eqn:Hlook.
    + destruct (Js.truthy v) eqn:Hv; [discriminate|].
      intros [= <-]. right. repeat split. intros v' [= <-]. exact Hv.
    + intros [= <-]. right. repeat split. discriminate.
  - intros [= <-]. left. auto.
Qed.

Lemma registeredBy_step (c : RouteInfo) (u u1 : gmap string string)
    (done : list RouteInfo) :
  registeredBy u done -> checkUnique c u = Ok u1 ->
  registeredBy u1 (done ++ [c]).
Proof.
  intros Hreg Hcu k v Hlook.
  assert (Hold : u !! k = Some v ->
                 exists c0, In c0 (done ++ [c]) /\
                   uniqueRouteIdOf (path c0) (index c0) = k /\ id c0 = v).
  { intros H. destruct (Hreg k v H) as (c0 & Hc0 & Hk & Hv).
    exists c0. rewrite in_app_iff. auto. }
  apply checkUnique_ok in Hcu as [[_ ->]|(_ & -> & _)]; [auto|].
  destruct (decide (uniqueRouteIdOf (path c) (index c) = k)) as [<-|Hne].
  - rewrite lookup_insert_eq in Hlook. injection Hlook as <-.
    exists c. rewrite in_app_iff. simpl. auto.
  - rewrite lookup_insert_ne in Hlook by exact Hne. auto.
Qed.

(** A conflict is thrown at a route whose key an earlier route holds. *)
Lemma checkAll_conflict (done l : list RouteInfo) (u : gmap string string)
    (e : Error) :
  registeredBy u done -> checkAll l u = Throw e ->
  exists l1 c l2 c',
    l = l1 ++ c :: l2 /\ In c' (done ++ l1) /\
    e = RouteConflict (path c) (id c) (id c') /\
    uniqueRouteIdOf (path c') (index c') = uniqueRouteIdOf (path c) (index c).
Proof.
  revert done u. induction l as [|c l IH]; intros done u Hreg; [discriminate|].
  cbn [checkAll]. destruct (checkUnique c u) as [u1|e1] eqn:Hcu.
  - rewrite bind_Ok. intros Hrest.
    destruct (IH _ _ (registeredBy_step _ _ _ _ Hreg Hcu) Hrest)
      as (l1 & c1 & l2 & c' & -> & Hc' & -> & Hkey).
    exists (c :: l1), c1, l2, c'. rewrite <- app_assoc in Hc'. auto.
  - intros [= <-].
    apply checkUnique_throw in Hcu as (conflict & -> & _ & Hlook & _).
    destruct (Hreg _ _ Hlook) as (c' & Hc' & Hkey & <-).
    exists [], c, l, c'. rewrite app_nil_r. auto.
Qed.

(** After checks that all pass, every route checked holds its key. *)
Lemma checkAll_ok (l : list RouteInfo) (u u' : gmap string string) :
  checkAll l u = Ok u' ->
  (forall k v, u !! k = Some v -> Js.truthy v = true -> u' !! k = Some v) /\
  (forall c, In c l ->
     Js.truthy (uniqueRouteIdOf (path c) (index c)) = true ->
     Js.truthy (id c) = true ->
     u' !! uniqueRouteIdOf (path c) (index c) = Some (id c)).
Proof.
  revert u. induction l as [|c l IH]; intros u.
  - intros [= <-]. split; [auto|intros ? []].
  - cbn [checkAll]. destruct (checkUnique c u) as [u1|e1] eqn:Hcu; [|discriminate].
    rewrite bind_Ok. intros Hrest. destruct (IH _ Hrest) as [Hkeep Hnew].
    pose proof (checkUnique_ok _ _ _ Hcu) as Hstep. cbv zeta in Hstep.
    split.
    + intros k v Hlook Hv. apply Hkeep; [|exact Hv].
      destruct Hstep as [[_ ->]|(_ & -> & Hfree)]; [exact Hlook|].
      destruct (decide (uniqueRouteIdOf (path c) (index c) = k)) as [<-|Hne].
      * rewrite (Hfree _ Hlook) in Hv. discriminate.
      * rewrite lookup_insert_ne by exact Hne. exact Hlook.
    + intros c0 [<-|Hc0] Hkey Hid; [|auto].
      apply Hkeep; [|exact Hid].
      destruct Hstep as [[Hfalse _]|(_ & -> & _)]; [congruence|].
      apply lookup_insert_eq.
Qed.

Lemma uniqueRouteIdOf_index (fullPath : option string) :
  uniqueRouteIdOf fullPath true <> uniqueRouteIdOf fullPath false.
Proof.
  unfold uniqueRouteIdOf. intros Heq.
  apply (f_equal String.length) in Heq. rewrite !append_length in Heq.
  simpl in Heq. lia.
Qed.

(** A conflict is raised only for two distinct routes with the same key. *)
Lemma assemble_throw (e : Error) :
  assemble posixJoin prefix routeMap = Some (Throw e) ->
  exists a b,
    In a routes /\ In b routes /\ a <> b /\
    uniqueRouteIdOf (path a) (index a) = uniqueRouteIdOf (path b) (index b) /\
    e = RouteConflict (path a) (id a) (id b).
Proof.
  unfold assemble, defineRoutes. intros Hrun.
  pose proof (defineNestedRoutes_follows (S (length routes)) None ∅) as Hf.
  destruct (nested (S (length routes)) None ∅) as [[[u nodes]|e']|];
    cbn [andThen follows] in *; try discriminate.
  injection Hrun as ->.
  assert (Hreg : registeredBy ∅ []).
  { intros k v Hlook. rewrite lookup_empty in Hlook. discriminate. }
  destruct (checkAll_conflict _ _ _ _ Hreg Hf)
    as (l1 & a & l2 & b & Hsplit & Hb & -> & Hsame).
  pose proof (visited_NoDup (S (length routes)) [] None (chain_nil routeMap))
    as Hnd.
  rewrite Hsplit in Hnd. cbn [app] in Hb.
  exists a, b. split; [|split; [|split; [|split; [|reflexivity]]]].
  - eapply visited_parent. rewrite Hsplit, in_app_iff. right. left. reflexivity.
  - eapply visited_parent. rewrite Hsplit, in_app_iff. left. exact Hb.
  - intros <-. apply NoDup_app in Hnd as (_ & Hdisj & _).
    apply (Hdisj a); rewrite list_elem_of_In; [exact Hb|left; reflexivity].
  - symmetry. exact Hsame.
Qed.

(** C2 (amended): in a route set where no index route has a child, two
    distinct routes whose chains of parents lead to the root, with the same
    path and the same index flag, make the assembly fail with a conflict
    error, unless the path is absent and the routes are not index routes:
    such routes have an empty key and are exempt from the check. The error
    names the route at which a conflict is found, an earlier route with the
    same key and the path of the former; a conflict error is raised for two
    such routes only.
    Routes with the same path and different index flags have different
    keys. *)
Theorem conflicting_routes_rejected :
  (forall r1 r2 : RouteInfo,
     (forall q r, In q routes -> In r routes -> index q = true ->
                  parentId r <> Some (id q)) ->
     visitable r1 -> visitable r2 -> r1 <> r2 ->
     id r1 <> EmptyString -> id r2 <> EmptyString ->
     path r1 = path r2 -> index r1 = index r2 ->
     Js.truthy (uniqueRouteIdOf (path r1) (index r1)) = true ->
     exists a b,
       In a routes /\ In b routes /\ a <> b /\
       uniqueRouteIdOf (path a) (index a) = uniqueRouteIdOf (path b) (index b) /\
       assemble posixJoin prefix routeMap
       = Some (Throw (RouteConflict (path a) (id a) (id b)))) /\
  (forall (fullPath : option string) (routeId conflict : string),
     assemble posixJoin prefix routeMap
     = Some (Throw (RouteConflict fullPath routeId conflict)) ->
     exists a b,
       In a routes /\ In b routes /\ a <> b /\
       uniqueRouteIdOf (path a) (index a) = uniqueRouteIdOf (path b) (index b) /\
       fullPath = path a /\ routeId = id a /\ conflict = id b) /\
  (forall fullPath : option string,
     uniqueRouteIdOf fullPath true <> uniqueRouteIdOf fullPath false) /\
  (forall (c : RouteInfo) (u : gmap string string),
     path c = None -> index c = false -> checkUnique c u = Ok u) /\
  (forall (fullPath : option string) (index : bool),
     Js.truthy (uniqueRouteIdOf fullPath index) = false <->
     index = false /\ (fullPath = None \/ fullPath = Some EmptyString)).
Proof.
  split; [|split; [|split; [exact uniqueRouteIdOf_index|split]]].
  2:{ intros fullPath routeId conflict Hrun.
      destruct (assemble_throw _ Hrun) as (a & b & Ha & Hb & Hab & Hsame & Heq).
      injection Heq as -> -> ->. exists a, b. auto 10. }
  2:{ intros c u Hpath Hidx. unfold checkUnique. rewrite Hpath, Hidx.
      reflexivity. }
  2:{ intros [[|c p]|] [|]; unfold uniqueRouteIdOf; cbn [Js.truthy];
        rewrite ?truthy_append; simpl; split; try discriminate; try tauto;
        intros [H1 [H2|H2]]; discriminate. }
  intros r1 r2 _ Hv1 Hv2 Hne Hid1 Hid2 Hpath Hidx Hkey.
  destruct (assemble posixJoin prefix routeMap) as [[nodes|e]|] eqn:Hrun.
  - (* a run that returns would have both routes hold the same key *)
    exfalso. unfold assemble, defineRoutes in Hrun.
    pose proof (defineNestedRoutes_follows (S (length routes)) None ∅) as Hf.
    destruct (nested (S (length routes)) None ∅) as [[[u nodes']|e]|] eqn:Hnested;
      cbn [andThen follows] in *; try discriminate.
    destruct Hf as (Hcheck & _ & _).
    apply checkAll_ok in Hcheck as [_ Hheld].
    pose proof (Hheld r1 (visitable_visited _ _ _ _ Hnested Hv1) Hkey
                  (proj2 (truthy_true _) Hid1)) as H1.
    rewrite Hpath, Hidx in Hkey.
    pose proof (Hheld r2 (visitable_visited _ _ _ _ Hnested Hv2) Hkey
                  (proj2 (truthy_true _) Hid2)) as H2.
    rewrite Hpath, Hidx, H2 in H1. injection H1 as H1.
    apply Hne. apply same_id; [| |congruence].
    + destruct Hv1; assumption.
    + destruct Hv2; assumption.
  - destruct (assemble_throw e Hrun) as (a & b & Ha & Hb & Hab & Hsame & ->).
    exists a, b. auto.
  - exfalso. exact (assemble_fuel Hrun).
Qed.

End UniqueIds.

End AssemblyFacts.

(** C1: the code breaks the rule that index routes are leaves.
    [routes/a._index.tsx] is an index route and [routes/a._index.b.tsx]
    resolves its parent to it, yet the assembly returns a manifest, with the
    index route alone; the
    index-child error is never raised, whatever the route map, because the
    check filters [Object.values] of a [Map]. *)
Theorem index_route_with_child_not_rejected :
  posixRouteMap "/app"
    ["/app/routes/a._index.tsx"; "/app/routes/a._index.b.tsx"] "routes"
  = Ok indexWithChild /\
  posixFlatRoutes "/app"
    ["/app/routes/a._index.tsx"; "/app/routes/a._index.b.tsx"] "routes"
  = Some (Ok [Node "a" "routes/a._index.tsx" "routes/a._index" true []]) /\
  (forall posixJoin prefix routeMap fuel parent u routeId,
     defineNestedRoutes posixJoin prefix routeMap fuel parent u
     <> Some (Throw (InvalidIndexChild routeId))).
Proof.
  split; [vm_compute; reflexivity|]. split; [vm_compute; reflexivity|].
  intros. apply defineNestedRoutes_no_index_child_error.
Qed.

(** C2, as the spec has it, fails on the code: two distinct routes with an
    absent path and the same index flag are both emitted. *)
Lemma pathless_routes_not_rejected :
  posixRouteMap "/app" ["/app/routes/_a.tsx"; "/app/routes/_b.tsx"] "routes"
  = Ok [("_a", pathlessA); ("_b", pathlessB)] /\
  pathlessA <> pathlessB /\
  path pathlessA = path pathlessB /\
  index pathlessA = index pathlessB /\
  posixFlatRoutes "/app" ["/app/routes/_a.tsx"; "/app/routes/_b.tsx"] "routes"
  = Some (Ok [Node "" "routes/_a.tsx" "routes/_a" false [];
              Node "" "routes/_b.tsx" "routes/_b" false []]).
Proof.
  split; [vm_compute; reflexivity|]. split; [discriminate|].
  split; [reflexivity|]. split; [reflexivity|]. vm_compute. reflexivity.
Qed.

(** [routes/users.tsx] and [routes/_a.users.tsx] both resolve to [/users]. *)
Lemma conflicting_routes_rejected_witness :
  posixRouteMap "/app" ["/app/routes/users.tsx"; "/app/routes/_a.users.tsx"]
    "routes" = Ok twoUsers /\
  exists a b,
    In a (routes twoUsers) /\ In b (routes twoUsers) /\ a <> b /\
    uniqueRouteIdOf (path a) (index a) = uniqueRouteIdOf (path b) (index b) /\
    assemble Posix.join "routes" twoUsers
    = Some (Throw (RouteConflict (path a) (id a) (id b))).
Proof.
  split; [vm_compute; reflexivity|].
  assert (Hids : NoDup (map id (routes twoUsers))).
  { repeat constructor; rewrite ?list_elem_of_In; simpl; intuition discriminate. }
  apply (proj1 (conflicting_routes_rejected Posix.join "routes" twoUsers Hids)
           usersRoute usersInLayout).
  - intros q r [<-|[<-|[]]] _; discriminate.
  - apply visitable_root; [simpl; auto|reflexivity].
  - apply visitable_root; [simpl; auto|reflexivity].
  - discriminate.
  - discriminate.
  - discriminate.
  - reflexivity.
  - reflexivity.
  - reflexivity.
Defined.

Lemma posix_join_inj (a x y : string) : Posix.join a x = Posix.join a y -> x = y.
Proof.
  unfold Posix.join. induction a as [|c a IH].
  - rewrite !append_nil_l. intros [= H]. exact H.
  - rewrite !append_cons. intros [= H]. exact (IH H).
Qed.

(** The manifest of [routes/a._index.tsx] and [routes/a._index.b.tsx] has
    no node for the second. *)
Lemma routes_under_index_omitted_witness :
  forallb indexNodesAreLeaves
    [Node "a" "routes/a._index.tsx" "routes/a._index" true []] = true /\
  forall r q,
    In r (routes indexWithChild) -> In q (routes indexWithChild) ->
    index q = true -> parentId r = Some (id q) ->
    forall nodeId nodeFile nodeIndex,
      In (nodeId, nodeFile, nodeIndex)
        (flat_map nodesOf
           [Node "a" "routes/a._index.tsx" "routes/a._index" true []]) ->
      nodeId <> Posix.join "routes" (id r).
Proof.
  apply (routes_under_index_omitted Posix.join "routes" indexWithChild).
  - repeat constructor; rewrite ?list_elem_of_In; simpl; intuition discriminate.
  - intros a b _ _. apply posix_join_inj.
  - vm_compute. reflexivity.
Defined.

(** ** The route map has unique ids *)

Lemma set_keys {V} (m : JsMap.t V) (key : string) (v : V) :
  (In key (map fst m) /\ map fst (JsMap.set m key v) = map fst m) \/
  (~ In key (map fst m) /\ map fst (JsMap.set m key v) = map fst m ++ [key]).
Proof.
  induction m as [|[k w] m IH]; [right; split; [intros []|reflexivity]|].
  cbn [JsMap.set]. destruct (String.eqb_spec k key) as [->|Hne].
  - left. split; [left|]; reflexivity.
  - cbn [map fst]. destruct IH as [[Hin ->]|[Hin ->]].
    + left. split; [right; exact Hin|reflexivity].
    + right. split; [|reflexivity].
      intros [Heq|Hin']; [exact (Hne Heq)|exact (Hin Hin')].
Qed.

Lemma set_keyedById (m : JsMap.t RouteInfo) (r : RouteInfo) :
  keyedById m -> keyedById (JsMap.set m (id r) r).
Proof.
  intros [Hnd Hid]. split.
  - destruct (set_keys m (id r) r) as [[_ ->]|[Hin ->]]; [exact Hnd|].
    apply NoDup_app. split; [exact Hnd|]. split; [|apply NoDup_singleton].
    intros k Hk Hk'. apply list_elem_of_singleton in Hk' as ->.
    apply Hin. apply list_elem_of_In. exact Hk.
  - clear Hnd. induction m as [|[k w] m IH]; [repeat constructor|].
    apply Forall_cons_1 in Hid as [Hk Hid]. cbn [JsMap.set].
    destruct (String.eqb_spec k (id r)) as [->|Hne]; constructor; auto.
Qed.

Section RouteMapFacts.

Variable pathJoin : string -> string -> string.
Variable pathExtname : string -> string.
Variable pathSep : ascii.
Variable createRouteId : string -> string.
Variable routeModuleExts : list string.

Lemma collectRoutes_keyedById (appDirectory prefix : string)
    (routePaths : list string) (routeMap routeMap' : JsMap.t RouteInfo)
    (nameMap nameMap' : gmap string RouteInfo) :
  keyedById routeMap ->
  collectRoutes pathJoin pathExtname pathSep createRouteId routeModuleExts
    appDirectory prefix routePaths routeMap nameMap = Ok (routeMap', nameMap') ->
  keyedById routeMap'.
Proof.
  revert routeMap nameMap.
  induction routePaths as [|routePath rest IH]; intros routeMap nameMap Hk.
  - intros [= <- _]. exact Hk.
  - cbn [collectRoutes]. destruct (isRouteModuleFile _ _ _ _); [|apply IH; exact Hk].
    destruct (getRouteInfo _ _ _ _) as [routeInfo|e]; [|discriminate].
    rewrite bind_Ok. apply IH. apply set_keyedById. exact Hk.
Qed.

(** The routes of a route map that [getRouteMap] returns have distinct
    ids. *)
Lemma getRouteMap_ids_unique (appDirectory : string) (routePaths : list string)
    (prefix : string) (routeMap : JsMap.t RouteInfo) :
  getRouteMap pathJoin pathExtname pathSep createRouteId routeModuleExts
    appDirectory routePaths prefix = Ok routeMap ->
  NoDup (map id (routes routeMap)).
Proof.
  unfold getRouteMap.
  destruct (collectRoutes _ _ _ _ _ _ _ _ _ _) as [[m nameMap]|e] eqn:Hc;
    [|discriminate].
  rewrite bind_Ok. intros [= <-].
  assert (Hk : keyedById m).
  { eapply collectRoutes_keyedById; [|exact Hc]. split; constructor. }
  destruct Hk as [Hnd Hid]. unfold routes, JsMap.values.
  replace (map id (map snd (map _ m))) with (map fst m); [exact Hnd|].
  clear Hnd Hc. induction m as [|[k r] m IH]; [reflexivity|].
  apply Forall_cons_1 in Hid as [Hk Hid]. cbn [map fst snd] in *.
  rewrite <- IH by exact Hid. rewrite Hk. reflexivity.
Qed.

End RouteMapFacts.

(** * Further properties *)

(** ** Strings and patterns *)

Lemma snoc_inj (s t : string) (c d : ascii) :
  Js.snoc s c = Js.snoc t d -> s = t /\ c = d.
Proof.
  unfold Js.snoc. revert t. induction s as [|a s IH]; intros [|b t].
  - rewrite !append_nil_l. intros [= ->]. auto.
  - rewrite append_nil_l, append_cons. intros [= _ H].
    destruct t; discriminate.
  - rewrite append_nil_l, append_cons. intros [= _ H].
    destruct s; discriminate.
  - rewrite !append_cons. intros [= -> H].
    destruct (IH _ H) as [-> ->]. auto.
Qed.

Lemma endsWith_spec (s p : string) :
  Js.endsWith s p = true <-> exists q, s = q +:+ p.
Proof.
  induction s as [|a s IH].
  - cbn [Js.endsWith]. rewrite orb_false_r, String.eqb_eq. split.
    + intros <-. exists EmptyString. reflexivity.
    + intros [[|b q] H]; [exact H|discriminate].
  - cbn [Js.endsWith]. rewrite orb_true_iff, String.eqb_eq, IH. split.
    + intros [<-|[q ->]]; [exists EmptyString; reflexivity|].
      exists (String a q). reflexivity.
    + intros [[|b q] H]; [left; exact H|].
      rewrite append_cons in H. injection H as -> ->. right. eauto.
Qed.

Lemma endsWith_append (q p : string) : Js.endsWith (q +:+ p) p = true.
Proof. apply endsWith_spec. eauto. Qed.

Lemma snoc_append (s t : string) (c : ascii) :
  Js.snoc (s +:+ t) c = s +:+ Js.snoc t c.
Proof. unfold Js.snoc. apply append_assoc. Qed.

Lemma string_last_cases (s : string) :
  s = EmptyString \/ exists t c, s = Js.snoc t c.
Proof.
  induction s as [|a s IH]; [left; reflexivity|]. right.
  destruct IH as [->|(t & c & ->)].
  - exists EmptyString, a. reflexivity.
  - exists (String a t), c. reflexivity.
Qed.

(** A string that ends in [c] does not end with a pattern that ends in
    another character. *)
Lemma endsWith_last (s p : string) (c d : ascii) :
  c <> d -> Js.endsWith (Js.snoc s c) (Js.snoc p d) = false.
Proof.
  intros Hne. apply not_true_iff_false. intros H.
  apply endsWith_spec in H as [q H]. rewrite <- snoc_append in H.
  apply snoc_inj in H as [_ H]. exact (Hne H).
Qed.

Lemma searchFrom_class (negated : bool) (cs : list ascii) (pos : nat)
    (s : string) :
  Js.searchFrom (Js.Cls negated cs) pos s = anyChar (Js.inClass negated cs) s.
Proof.
  revert pos. induction s as [|c s IH]; intros pos; [reflexivity|].
  cbn [Js.searchFrom Js.matchAt anyChar]. rewrite IH, andb_true_r. reflexivity.
Qed.

(** A match at the end of a prefix is found by the search. *)
Lemma searchFrom_append (r : Js.regex) (pos : nat) (p s : string) :
  Js.matchAt r (pos + String.length p) s (fun _ _ => true) = true ->
  Js.searchFrom r pos (p +:+ s) = true.
Proof.
  revert pos. induction p as [|c p IH]; intros pos Hm.
  - rewrite append_nil_l. cbn [String.length] in Hm. rewrite Nat.add_0_r in Hm.
    destruct s; cbn [Js.searchFrom]; rewrite Hm; reflexivity.
  - rewrite append_cons. cbn [Js.searchFrom].
    rewrite (IH (S pos)); [apply orb_true_r|].
    cbn [String.length] in Hm. rewrite Nat.add_succ_r in Hm. exact Hm.
Qed.

Lemma anyChar_append (P : ascii -> bool) (s t : string) :
  anyChar P (s +:+ t) = anyChar P s || anyChar P t.
Proof.
  induction s as [|c s IH]; [reflexivity|].
  rewrite append_cons. cbn [anyChar]. rewrite IH, orb_assoc. reflexivity.
Qed.

Lemma allChars_append (P : ascii -> bool) (s t : string) :
  allChars P (s +:+ t) = allChars P s && allChars P t.
Proof.
  induction s as [|c s IH]; [reflexivity|].
  rewrite append_cons. cbn [allChars]. rewrite IH, andb_assoc. reflexivity.
Qed.

Lemma allChars_impl (P Q : ascii -> bool) (s : string) :
  (forall c, P c = true -> Q c = true) ->
  allChars P s = true -> allChars Q s = true.
Proof.
  intros HPQ. induction s as [|c s IH]; [reflexivity|].
  cbn [allChars]. rewrite !andb_true_iff. intros [Hc Hs]. auto.
Qed.

Lemma allChars_none (P : ascii -> bool) (s : string) :
  allChars (fun c => negb (P c)) s = true -> anyChar P s = false.
Proof.
  induction s as [|c s IH]; [reflexivity|].
  cbn [allChars anyChar]. rewrite andb_true_iff, negb_true_iff.
  intros [-> Hs]. exact (IH Hs).
Qed.

Lemma includes_char (s : string) (d : ascii) :
  Js.includes s (String d EmptyString) = anyChar (Ascii.eqb d) s.
Proof.
  induction s as [|b s IH]; [reflexivity|].
  change (Js.includes (String b s) (String d EmptyString))
    with (Js.startsWith (String b s) (String d EmptyString)
          || Js.includes s (String d EmptyString)).
  rewrite startsWith_char, IH. reflexivity.
Qed.

Lemma rejected_anyChar (raw : string) : rejected raw = anyChar isReserved raw.
Proof.
  unfold rejected. rewrite !includes_char.
  induction raw as [|c raw IH]; [reflexivity|].
  cbn [anyChar]. rewrite <- IH. unfold isReserved.
  destruct (Ascii.eqb "*" c), (Ascii.eqb ":" c), (Ascii.eqb "/" c),
    (anyChar (Ascii.eqb "*") raw), (anyChar (Ascii.eqb ":") raw),
    (anyChar (Ascii.eqb "/") raw); reflexivity.
Qed.

(** ** Folder markers *)

Lemma substring_zero (s : string) (b : Z) :
  exists k, Js.substring s 0 b = Js.take k s.
Proof.
  unfold Js.substring.
  replace (Z.to_nat (Z.min (Z.max 0 0) (Z.of_nat (String.length s)))) with 0
    by lia.
  rewrite Nat.min_0_l. cbn [Js.sliceFrom]. eauto.
Qed.

Lemma allChars_take (P : ascii -> bool) (n : nat) (s : string) :
  allChars P s = true -> allChars P (Js.take n s) = true.
Proof.
  revert s. induction n as [|n IH]; intros [|c s]; try reflexivity.
  cbn [allChars Js.take]. rewrite !andb_true_iff. intros [Hc Hs]. auto.
Qed.

Lemma stripFolderMarker_allChars (P : ascii -> bool) (s : string) :
  allChars P s = true -> allChars P (stripFolderMarker s) = true.
Proof.
  intros Hs. unfold stripFolderMarker.
  destruct (_ && _); [|exact Hs].
  destruct (0 <=? _)%Z; [|exact Hs].
  destruct (substring_zero s (Js.lastIndexOf s posixSep)) as [k ->].
  apply allChars_take. exact Hs.
Qed.

(** Without a [/] or a [\] nothing is cut off. *)
Lemma stripFolderMarker_flat (s : string) :
  anyChar (Js.inClass false ["/"; "\"]%char) s = false ->
  stripFolderMarker s = s.
Proof.
  intros H. unfold stripFolderMarker, Js.test.
  rewrite searchFrom_class, H. reflexivity.
Qed.

Lemma stripFolderMarker_other (s : string) :
  Js.endsWith s "/index" = false -> Js.endsWith s "/route" = false ->
  stripFolderMarker s = s.
Proof.
  intros H1 H2. unfold stripFolderMarker. rewrite H1, H2, andb_false_r.
  reflexivity.
Qed.

Lemma lastIndexFrom_absent (k : Z) (s : string) :
  hasSlash s = false -> Js.lastIndexFrom k "/" s = (-1)%Z.
Proof.
  revert k. induction s as [|b s IH]; intros k; [reflexivity|].
  rewrite hasSlash_cons, orb_false_iff. intros [Hb Hs].
  cbn [Js.lastIndexFrom]. rewrite (IH _ Hs), (Ascii.eqb_sym b "/"), Hb.
  reflexivity.
Qed.

Lemma lastIndexFrom_last (k : Z) (p rest : string) :
  (0 <= k)%Z -> hasSlash rest = false ->
  Js.lastIndexFrom k "/" (p +:+ String "/" rest)
  = (k + Z.of_nat (String.length p))%Z.
Proof.
  intros Hk Hrest. revert k Hk. induction p as [|a p IH]; intros k Hk.
  - rewrite append_nil_l. cbn [Js.lastIndexFrom String.length].
    rewrite (lastIndexFrom_absent _ _ Hrest).
    change (Ascii.eqb "/" "/") with true. cbn. lia.
  - rewrite append_cons. cbn [Js.lastIndexFrom String.length].
    rewrite IH by lia.
    replace (0 <=? k + 1 + Z.of_nat (String.length p))%Z with true
      by (symmetry; apply Z.leb_le; lia).
    lia.
Qed.

Lemma stripFolderMarker_cut (p marker : string) :
  hasSlash marker = false ->
  String "/" marker = "/index" \/ String "/" marker = "/route" ->
  stripFolderMarker (p +:+ String "/" marker) = p.
Proof.
  intros Hm Hmarker. unfold stripFolderMarker, Js.test.
  rewrite searchFrom_class, anyChar_append. cbn [anyChar].
  change (Js.inClass false ["/"; "\"]%char "/") with true.
  rewrite orb_true_r. cbn [andb].
  assert (Hend : Js.endsWith (p +:+ String "/" marker) "/index"
                 || Js.endsWith (p +:+ String "/" marker) "/route" = true).
  { destruct Hmarker as [->| ->]; rewrite endsWith_append;
      [reflexivity|apply orb_true_r]. }
  rewrite Hend. unfold Js.lastIndexOf, posixSep.
  rewrite lastIndexFrom_last by (try lia; exact Hm).
  rewrite Z.add_0_l.
  replace (0 <=? Z.of_nat (String.length p))%Z with true
    by (symmetry; apply Z.leb_le; lia).
  apply substring_prefix.
Qed.

(** X6: a trailing [/index] or [/route] is cut off whatever stands before
    it, so the two folder markers give the same segments (and the same
    error). *)
Theorem folder_markers_cut :
  forall p : string,
    stripFolderMarker (p +:+ "/index") = p /\
    stripFolderMarker (p +:+ "/route") = p /\
    getRouteSegments (p +:+ "/index") = getRouteSegments (p +:+ "/route").
Proof.
  intros p.
  assert (H1 : stripFolderMarker (p +:+ "/index") = p)
    by (apply stripFolderMarker_cut; [reflexivity|left; reflexivity]).
  assert (H2 : stripFolderMarker (p +:+ "/route") = p)
    by (apply stripFolderMarker_cut; [reflexivity|right; reflexivity]).
  split; [exact H1|]. split; [exact H2|].
  unfold getRouteSegments. rewrite H1, H2. reflexivity.
Qed.

(** ** Runs of ordinary characters *)

Lemma step_literal (routeId : string) (c : ascii) (atEnd : bool)
    (t : Tokenizer) :
  literalIn (state t) c = true ->
  step routeId c atEnd t = Ok (appendChar c t).
Proof.
  destruct t as [segs seg raw st]. unfold step, literalIn.
  cbn [state routeSegment].
  unfold escapeStart, escapeEnd, optionalStart, optionalEnd, paramPrefixChar.
  destruct st; rewrite ?andb_true_iff, ?negb_true_iff.
  - intros [[[-> ->] ->] ->]. rewrite andb_false_r. reflexivity.
  - intros ->. reflexivity.
  - intros [[-> ->] ->]. rewrite andb_false_r. reflexivity.
  - intros ->. reflexivity.
Qed.

(** A run of characters that the state appends as they are ends up in the
    segment and in its raw copy. *)
Lemma scan_literal (routeId w rest : string) (t : Tokenizer) :
  allChars (literalIn (state t)) w = true ->
  scan routeId (w +:+ rest) t
  = scan routeId rest
      (mkTokenizer (routeSegments t) (routeSegment t +:+ w)
         (rawRouteSegment t +:+ w) (state t)).
Proof.
  revert t. induction w as [|c w IH]; intros t Hw.
  - rewrite append_nil_l, !append_nil_r. destruct t; reflexivity.
  - cbn [allChars] in Hw. apply andb_true_iff in Hw as [Hc Hw].
    rewrite append_cons. cbn [scan]. rewrite (step_literal _ _ _ _ Hc), bind_Ok.
    rewrite IH by exact Hw. unfold appendChar, Js.snoc.
    cbn [routeSegments routeSegment rawRouteSegment state].
    rewrite !append_assoc. reflexivity.
Qed.

Lemma scan_literal_end (routeId w : string) (t : Tokenizer) :
  allChars (literalIn (state t)) w = true ->
  scan routeId w t
  = Ok (mkTokenizer (routeSegments t) (routeSegment t +:+ w)
          (rawRouteSegment t +:+ w) (state t)).
Proof.
  intros Hw. pose proof (scan_literal routeId w EmptyString t Hw) as H.
  rewrite append_nil_r in H. exact H.
Qed.

Lemma ordinary_literal (st : State) (w : string) :
  allChars (ordinaryIn st) w = true -> allChars (literalIn st) w = true.
Proof.
  apply allChars_impl. unfold ordinaryIn. intros c H.
  apply andb_true_iff in H as [H _]. exact H.
Qed.

Lemma ordinary_accepted (st : State) (w : string) :
  allChars (ordinaryIn st) w = true -> rejected w = false.
Proof.
  intros H. rewrite rejected_anyChar. apply allChars_none.
  revert H. apply allChars_impl. unfold ordinaryIn. intros c H.
  apply andb_true_iff in H as [_ H]. exact H.
Qed.

Lemma rejected_append (s t : string) :
  rejected (s +:+ t) = rejected s || rejected t.
Proof. rewrite !rejected_anyChar. apply anyChar_append. Qed.

(** X3: between brackets every character is taken as it is: separators,
    parentheses and the param prefix included. For a text [w] without [[]]],
    [*], [:] and [/], the id [[w]] is the one segment [w]. *)
Theorem escaped_text_is_literal :
  forall w : string,
    w <> EmptyString ->
    allChars (ordinaryIn ESCAPE) w = true ->
    getRouteSegments ("[" +:+ w +:+ "]") = Ok [w].
Proof.
  intros w Hne Hw. unfold getRouteSegments.
  assert (Hstrip : stripFolderMarker ("[" +:+ w +:+ "]") = "[" +:+ w +:+ "]").
  { rewrite <- append_assoc.
    change (("[" +:+ w) +:+ "]") with (Js.snoc ("[" +:+ w) "]").
    apply stripFolderMarker_other.
    - apply (endsWith_last _ "/inde" "]" "x"). discriminate.
    - apply (endsWith_last _ "/rout" "]" "e"). discriminate. }
  rewrite Hstrip. set (routeId := "[" +:+ w +:+ "]").
  change (scan routeId routeId initialTokenizer)
    with (scan routeId (w +:+ "]") (mkTokenizer [] EmptyString EmptyString ESCAPE)).
  rewrite scan_literal by (apply ordinary_literal; exact Hw).
  cbn [routeSegments routeSegment rawRouteSegment state].
  rewrite append_nil_l.
  change (scan routeId "]" (mkTokenizer [] w w ESCAPE))
    with (Ok (mkTokenizer [] w w NORMAL) : result Tokenizer).
  rewrite bind_Ok. cbn [routeSegments routeSegment rawRouteSegment].
  rewrite pushRouteSegment_ok by (apply (ordinary_accepted ESCAPE); exact Hw).
  destruct w; [congruence|reflexivity].
Qed.

Lemma escaped_text_is_literal_witness :
  getRouteSegments "[sitemap.xml]" = Ok ["sitemap.xml"].
Proof.
  apply (escaped_text_is_literal "sitemap.xml"); [discriminate|reflexivity].
Defined.

(** X4: a text between parentheses becomes one optional segment: for a text
    [w] without [)], [[], [$], [*], [:] and [/], the id [(w)] is the one
    segment [w?]. A dot inside the parentheses does not split it. *)
Theorem optional_text_is_marked :
  forall w : string,
    allChars (ordinaryIn OPTIONAL) w = true ->
    getRouteSegments ("(" +:+ w +:+ ")") = Ok [w +:+ "?"].
Proof.
  intros w Hw. unfold getRouteSegments.
  assert (Hstrip : stripFolderMarker ("(" +:+ w +:+ ")") = "(" +:+ w +:+ ")").
  { rewrite <- append_assoc.
    change (("(" +:+ w) +:+ ")") with (Js.snoc ("(" +:+ w) ")").
    apply stripFolderMarker_other.
    - apply (endsWith_last _ "/inde" ")" "x"). discriminate.
    - apply (endsWith_last _ "/rout" ")" "e"). discriminate. }
  rewrite Hstrip. set (routeId := "(" +:+ w +:+ ")").
  change (scan routeId routeId initialTokenizer)
    with (scan routeId (w +:+ ")")
            (mkTokenizer [] EmptyString EmptyString OPTIONAL)).
  rewrite scan_literal by (apply ordinary_literal; exact Hw).
  cbn [routeSegments routeSegment rawRouteSegment state].
  rewrite append_nil_l.
  change (scan routeId ")" (mkTokenizer [] w w OPTIONAL))
    with (Ok (mkTokenizer [] (Js.snoc w "?") (Js.snoc w "?") NORMAL)
          : result Tokenizer).
  rewrite bind_Ok. cbn [routeSegments routeSegment rawRouteSegment].
  rewrite pushRouteSegment_ok.
  - rewrite snoc_truthy. reflexivity.
  - rewrite rejected_snoc, (ordinary_accepted OPTIONAL) by exact Hw.
    reflexivity.
Qed.

Lemma optional_text_is_marked_witness :
  getRouteSegments "(v1.2)" = Ok ["v1.2?"].
Proof. apply (optional_text_is_marked "v1.2"). reflexivity. Defined.

(** X5: a [$] followed by a name becomes the parameter of that name: for a
    non-empty [name] of characters that NORMAL state appends as they are,
    without [*] and [:], the id [$name] is the one segment [:name]. *)
Theorem param_name_is_kept :
  forall name : string,
    name <> EmptyString ->
    allChars (ordinaryIn NORMAL) name = true ->
    getRouteSegments ("$" +:+ name) = Ok [":" +:+ name].
Proof.
  intros name Hne Hname. unfold getRouteSegments.
  assert (Hstrip : stripFolderMarker ("$" +:+ name) = "$" +:+ name).
  { apply stripFolderMarker_flat. rewrite append_cons, append_nil_l.
    cbn [anyChar]. change (Js.inClass false ["/"; "\"]%char "$") with false.
    apply allChars_none. revert Hname. apply allChars_impl.
    unfold ordinaryIn, literalIn, isSegmentSeparator, Js.inClass.
    intros c H. cbn [existsb xorb] in *.
    destruct (Ascii.eqb c "/"), (Ascii.eqb c "."), (Ascii.eqb c "\");
      try discriminate; reflexivity. }
  rewrite Hstrip. set (routeId := "$" +:+ name).
  assert (Hfirst : scan routeId routeId initialTokenizer
                   = scan routeId name (mkTokenizer [] ":" "$" NORMAL)).
  { unfold routeId. rewrite append_cons, append_nil_l.
    destruct name; [congruence|reflexivity]. }
  rewrite Hfirst.
  rewrite scan_literal_end by (apply ordinary_literal; exact Hname).
  cbn [routeSegments routeSegment rawRouteSegment state].
  rewrite bind_Ok. cbn [routeSegments routeSegment rawRouteSegment].
  rewrite pushRouteSegment_ok; [reflexivity|].
  rewrite rejected_append, (ordinary_accepted NORMAL name) by exact Hname.
  reflexivity.
Qed.

Lemma param_name_is_kept_witness : getRouteSegments "$userId" = Ok [":userId"].
Proof. apply (param_name_is_kept "userId"); [discriminate|reflexivity]. Defined.

Lemma scan_runs (routeId s : string) (segs : list string) (acc : string) :
  allChars (fun c => isSegmentSeparator c || ordinaryIn NORMAL c) s = true ->
  rejected acc = false ->
  (t ← scan routeId s (mkTokenizer segs acc acc NORMAL);
   pushRouteSegment routeId (rawRouteSegment t) (routeSegments t)
     (routeSegment t))
  = Ok (segs ++ runsFrom acc s).
Proof.
  revert segs acc. induction s as [|c s IH]; intros segs acc Hs Hacc.
  - cbn [scan runsFrom]. rewrite bind_Ok.
    cbn [routeSegments routeSegment rawRouteSegment].
    rewrite pushRouteSegment_ok by exact Hacc.
    destruct (Js.truthy acc); [reflexivity|rewrite app_nil_r; reflexivity].
  - cbn [allChars] in Hs. apply andb_true_iff in Hs as [Hc Hs].
    cbn [scan runsFrom]. destruct (isSegmentSeparator c) eqn:Hsep.
    + unfold step at 1. cbn [state routeSegments routeSegment rawRouteSegment].
      rewrite Hsep, pushRouteSegment_ok by exact Hacc.
      rewrite !bind_Ok, IH by (exact Hs || reflexivity).
      destruct (Js.truthy acc); [rewrite <- app_assoc|]; reflexivity.
    + cbn [orb] in Hc. rewrite step_literal
        by (apply andb_true_iff in Hc as [Hc _]; exact Hc).
      rewrite bind_Ok. unfold appendChar.
      cbn [routeSegments routeSegment rawRouteSegment state].
      apply IH; [exact Hs|].
      rewrite rejected_snoc, Hacc. apply andb_true_iff in Hc as [_ Hc].
      apply negb_true_iff in Hc. exact Hc.
Qed.

(** X2: without brackets, parentheses, [$], [*] and [:], the segments are
    the non-empty runs of characters between the separators [/], [.] and
    [\], in order, of the id with its folder marker cut off. *)
Theorem separators_split_segments :
  forall s : string,
    allChars (fun c => isSegmentSeparator c || ordinaryIn NORMAL c) s = true ->
    getRouteSegments s = Ok (runs (stripFolderMarker s)).
Proof.
  intros s Hs. unfold getRouteSegments, runs.
  rewrite (scan_runs _ _ [] EmptyString); [reflexivity| |reflexivity].
  apply stripFolderMarker_allChars. exact Hs.
Qed.

Lemma separators_split_segments_witness :
  getRouteSegments "blog.posts/archive/index" = Ok ["blog"; "posts"; "archive"].
Proof.
  apply (separators_split_segments "blog.posts/archive/index"). reflexivity.
Defined.

(** ** Shapes of the segments *)

Lemma rejected_cons (c : ascii) (s : string) :
  rejected (String c s) = isReserved c || rejected s.
Proof. rewrite !rejected_anyChar. reflexivity. Qed.

Lemma pushRouteSegment_shaped (routeId raw : string) (segs segs' : list string)
    (seg : string) :
  Forall innerSegment segs ->
  seg = raw \/ (exists raw', raw = String "$" raw' /\ seg = String ":" raw') ->
  pushRouteSegment routeId raw segs seg = Ok segs' ->
  Forall innerSegment segs'.
Proof.
  intros Hsegs Hrel Hpush.
  pose proof (pushRouteSegment_throws routeId raw segs seg) as Hthrow.
  rewrite Hpush in Hthrow. cbn [isThrow] in Hthrow.
  destruct (Js.truthy seg) eqn:Hseg.
  - cbn [andb] in Hthrow. symmetry in Hthrow.
    rewrite (pushRouteSegment_ok _ _ _ _ Hthrow), Hseg in Hpush.
    injection Hpush as <-. apply Forall_app. split; [exact Hsegs|].
    constructor; [|constructor]. split; [apply truthy_true; exact Hseg|].
    destruct Hrel as [->|(raw' & -> & ->)]; [left; exact Hthrow|].
    right. exists raw'. split; [reflexivity|].
    rewrite rejected_cons in Hthrow. apply orb_false_iff in Hthrow as [_ H].
    exact H.
  - unfold pushRouteSegment in Hpush. rewrite Hseg in Hpush.
    injection Hpush as <-. exact Hsegs.
Qed.

Lemma step_shaped (routeId : string) (c : ascii) (rest : string)
    (t t' : Tokenizer) :
  shaped (String c rest) t ->
  step routeId c (negb (Js.truthy rest)) t = Ok t' ->
  shaped rest t'.
Proof.
  destruct t as [segs seg raw st]. intros [Hsegs Hrel].
  cbn [routeSegments routeSegment rawRouteSegment] in Hsegs, Hrel.
  assert (Hrel' : seg = raw \/
                  (exists raw', raw = String "$" raw' /\ seg = String ":" raw')).
  { destruct Hrel as [H|[H|(_ & _ & H)]]; [auto|auto|discriminate]. }
  clear Hrel.
  assert (Hsnoc : forall d,
             Js.snoc seg d = Js.snoc raw d \/
             (exists raw', Js.snoc raw d = String "$" raw' /\
                           Js.snoc seg d = String ":" raw')).
  { intros d. destruct Hrel' as [->|(raw' & -> & ->)]; [left; reflexivity|].
    right. exists (Js.snoc raw' d). split; reflexivity. }
  assert (Hpar : negb (Js.truthy seg) && Ascii.eqb c paramPrefixChar = true ->
                 seg = EmptyString /\ raw = EmptyString /\ c = "$"%char).
  { intros Hb. apply andb_true_iff in Hb as [Hb1 Hb2].
    apply negb_true_iff, truthy_false in Hb1. apply Ascii.eqb_eq in Hb2.
    subst seg. destruct Hrel' as [<-|(raw' & _ & H)]; [auto|discriminate]. }
  destruct (negb (Js.truthy rest)) eqn:Hend.
  all: unfold step, paramPrefix, appendChar, setState.
  all: cbn [routeSegments routeSegment rawRouteSegment state].
  all: destruct st.
  all: unfold mbind, result_bind.
  all: repeat match goal with
              | |- (if ?b then _ else _) = _ -> _ => destruct b eqn:?
              | |- match pushRouteSegment ?r ?w ?l ?g with _ => _ end = _ -> _ =>
                  destruct (pushRouteSegment r w l g) eqn:?
              end.
  all: try discriminate.
  all: intros [= <-]; split; cbn [routeSegments routeSegment rawRouteSegment].
  all: try exact Hsegs.
  all: try (eapply pushRouteSegment_shaped; eassumption).
  all: try (left; reflexivity).
  all: try (destruct (Hsnoc c) as [H|H]; [left; exact H|right; left; exact H]).
  all: try (destruct (Hsnoc "?"%char) as [H|H];
            [left; exact H|right; left; exact H]).
  all: try (destruct Hrel' as [H|H]; [left; exact H|right; left; exact H]).
  all: destruct (Hpar eq_refl) as (-> & -> & ->).
  all: first [ right; left; exists EmptyString; split; reflexivity
             | right; right; repeat split;
               apply negb_true_iff, truthy_false in Hend; exact Hend ].
Qed.

Lemma scan_shaped (routeId rest : string) (t t' : Tokenizer) :
  shaped rest t -> scan routeId rest t = Ok t' -> shaped EmptyString t'.
Proof.
  revert t. induction rest as [|c rest IH]; intros t Ht.
  - intros [= <-]. exact Ht.
  - cbn [scan].
    destruct (step routeId c (negb (Js.truthy rest)) t) as [t1|e] eqn:Hstep;
      [|discriminate].
    rewrite bind_Ok. apply IH. exact (step_shaped _ _ _ _ _ Ht Hstep).
Qed.

(** X1: the segments returned are never empty and never contain a [/]; a
    [:] stands only at the start of a segment, before a name without [*],
    [:] and [/]; a [*] stands only as the catch-all segment, which can only
    be the last one. *)
Theorem segments_are_shaped :
  forall (routeId : string) (segs : list string),
    getRouteSegments routeId = Ok segs ->
    exists front,
      Forall innerSegment front /\ (segs = front \/ segs = front ++ ["*"]).
Proof.
  intros routeId segs. unfold getRouteSegments.
  destruct (scan _ _ initialTokenizer) as [t|e] eqn:Hscan; [|discriminate].
  rewrite bind_Ok. intros Hpush.
  assert (Ht : shaped EmptyString t).
  { eapply scan_shaped; [|exact Hscan]. split; [constructor|left; reflexivity]. }
  destruct t as [segs0 seg raw st]. destruct Ht as [Hsegs Hrel].
  cbn [routeSegments routeSegment rawRouteSegment] in *.
  destruct Hrel as [Hrel|[Hrel|(-> & -> & _)]].
  - exists segs. split; [|left; reflexivity].
    eapply pushRouteSegment_shaped; [exact Hsegs|left; exact Hrel|exact Hpush].
  - exists segs. split; [|left; reflexivity].
    eapply pushRouteSegment_shaped; [exact Hsegs|right; exact Hrel|exact Hpush].
  - exists segs0. split; [exact Hsegs|]. right.
    cbv in Hpush. injection Hpush as <-. reflexivity.
Qed.

Lemma segments_are_shaped_witness :
  exists front,
    Forall innerSegment front /\
    (["files"; ":id"; "*"] = front \/ ["files"; ":id"; "*"] = front ++ ["*"]).
Proof. apply (segments_are_shaped "files.$id.$"). reflexivity. Defined.

(** ** Paths of segment lists *)

Lemma concatPrefixed_app (l1 l2 : list string) :
  PathSpec.concatPrefixed (l1 ++ l2)
  = PathSpec.concatPrefixed l1 +:+ PathSpec.concatPrefixed l2.
Proof.
  induction l1 as [|x l1 IH]; [reflexivity|].
  cbn [app PathSpec.concatPrefixed]. rewrite IH, !append_assoc. reflexivity.
Qed.

Lemma createRoutePath_kept (segs : list string) (isIndex : bool) :
  createRoutePath segs isIndex
  = (let p := PathSpec.concatPrefixed (PathSpec.remaining segs isIndex) in
     if Js.truthy p then Some p else None).
Proof.
  unfold createRoutePath. rewrite createRoutePath_loop, append_nil_l.
  reflexivity.
Qed.

Lemma pathOrEmpty_kept (segs : list string) :
  pathOrEmpty segs = PathSpec.concatPrefixed (PathSpec.remaining segs false).
Proof.
  unfold pathOrEmpty. rewrite createRoutePath_kept. cbv zeta.
  destruct (PathSpec.concatPrefixed _) eqn:E; reflexivity.
Qed.

(** X7: a path that [createRoutePath] returns begins with [/]; the empty
    string is never returned. *)
Theorem route_path_begins_with_slash :
  forall (segs : list string) (isIndex : bool) (p : string),
    createRoutePath segs isIndex = Some p ->
    exists rest, p = String "/" rest.
Proof.
  intros segs isIndex p. rewrite createRoutePath_kept. cbv zeta.
  destruct (PathSpec.remaining segs isIndex) as [|seg kept].
  - discriminate.
  - cbn [PathSpec.concatPrefixed]. rewrite append_cons, append_nil_l.
    cbn [Js.truthy]. intros [= <-]. eauto.
Qed.

Lemma route_path_begins_with_slash_witness :
  exists rest, "/users/:id" = String "/" rest.
Proof.
  apply (route_path_begins_with_slash ["_app"; "users"; ":id"] false).
  reflexivity.
Defined.

(** X8: paths compose as the segment lists do. The path of a list with
    further segments appended is the path of the list followed by the path of
    the further segments, so the path of a route begins with the path of
    every route whose segments begin its own; and an index route has the
    path of its segments without the last, whatever that last segment is. *)
Theorem route_paths_compose :
  forall (segs more : list string) (marker : string),
    pathOrEmpty (segs ++ more) = pathOrEmpty segs +:+ pathOrEmpty more /\
    createRoutePath (segs ++ [marker]) true = createRoutePath segs false.
Proof.
  intros segs more marker. split.
  - rewrite !pathOrEmpty_kept. unfold PathSpec.remaining, PathSpec.dropIndexMarker.
    rewrite List.filter_app, map_app. apply concatPrefixed_app.
  - unfold createRoutePath, Js.arrayInit. rewrite removelast_last. reflexivity.
Qed.

(** ** Index routes and route modules by pattern *)

Lemma hasSlash_includes (s : string) :
  Js.includes s (String posixSep EmptyString) = hasSlash s.
Proof. reflexivity. Qed.

(** X9: an id that ends in [._index] is an index route, flat or nested; so
    is every id in which [/index/] or [/_index/] occurs. *)
Theorem index_route_patterns :
  forall p q : string,
    isIndexRoute (p +:+ "._index") = true /\
    isIndexRoute (p +:+ "/index/" +:+ q) = true /\
    isIndexRoute (p +:+ "/_index/" +:+ q) = true.
Proof.
  intros p q. split; [|split].
  - unfold isIndexRoute. destruct (negb _).
    + change "._index" with ("." +:+ "_index"). rewrite <- append_assoc.
      apply endsWith_append.
    + unfold Js.test. apply searchFrom_append.
      destruct (0 + String.length p); reflexivity.
  - unfold isIndexRoute.
    rewrite hasSlash_includes, hasSlash_append, append_cons, hasSlash_cons.
    change (Ascii.eqb "/" "/") with true. rewrite orb_true_r. cbn [negb].
    unfold Js.test. apply searchFrom_append.
    destruct (0 + String.length p); reflexivity.
  - unfold isIndexRoute.
    rewrite hasSlash_includes, hasSlash_append, append_cons, hasSlash_cons.
    change (Ascii.eqb "/" "/") with true. rewrite orb_true_r. cbn [negb].
    unfold Js.test. apply searchFrom_append.
    destruct (0 + String.length p); reflexivity.
Qed.

Lemma hasSlash_second (a : ascii) (s : string) :
  hasSlash (String a (String "/" s)) = true.
Proof.
  rewrite !hasSlash_cons. change (Ascii.eqb "/" "/") with true.
  cbn [orb]. apply orb_true_r.
Qed.

(** One or more characters of the class, then the rest of the pattern. *)
Lemma matchPlus_run (negated : bool) (cs : list ascii) (pos : nat)
    (w rest : string) (k : nat -> string -> bool) :
  w <> EmptyString ->
  allChars (Js.inClass negated cs) w = true ->
  k (pos + String.length w) rest = true ->
  Js.matchPlus negated cs pos (w +:+ rest) k = true.
Proof.
  revert pos. induction w as [|c w IH]; intros pos Hne Hw Hk; [congruence|].
  cbn [allChars] in Hw. apply andb_true_iff in Hw as [Hc Hw].
  rewrite append_cons. cbn [Js.matchPlus]. rewrite Hc. cbn [andb].
  cbn [String.length] in Hk. rewrite Nat.add_succ_r in Hk.
  destruct w as [|d w].
  - rewrite append_nil_l. cbn [String.length] in Hk.
    rewrite Nat.add_0_r in Hk. rewrite Hk. reflexivity.
  - rewrite (IH (S pos)); [apply orb_true_r|discriminate|exact Hw|exact Hk].
Qed.

(** X10: in a folder, the files [route] and [index] with one of the six
    extensions are route modules, whatever the folder; so is every file in
    whose path an underscore is followed by one or more characters other
    than [/], [\], [:], [?] and [*] and then the extension, wherever the
    underscore stands; so is every file in a folder whose name ends in
    [+]. *)
Theorem nested_route_modules :
  forall (pathExtname : string -> string) (routeModuleExts : list string)
         (dir name ext : string),
    In ext nestedExtensions ->
    isRouteModuleFile pathExtname "/" routeModuleExts
      (dir +:+ "/route." +:+ ext) = true /\
    isRouteModuleFile pathExtname "/" routeModuleExts
      (dir +:+ "/index." +:+ ext) = true /\
    (name <> EmptyString ->
     allChars (Js.inClass true ["/"; "\"; ":"; "?"; "*"]%char) name = true ->
     isRouteModuleFile pathExtname "/" routeModuleExts
       (dir +:+ "+/" +:+ name +:+ "." +:+ ext) = true /\
     (hasSlash dir = true ->
      isRouteModuleFile pathExtname "/" routeModuleExts
        (dir +:+ "_" +:+ name +:+ "." +:+ ext) = true)).
Proof.
  intros pathExtname routeModuleExts dir name ext Hext.
  assert (Hnested : forall tail,
             hasSlash tail = true -> Js.includes (dir +:+ tail) "/" = true).
  { intros tail Htail. change (Js.includes ?s "/") with (hasSlash s).
    rewrite hasSlash_append, Htail. apply orb_true_r. }
  assert (Htail : forall pos,
             Js.matchAt
               (Js.Seq (Js.Chr ".")
                  (Js.Seq
                     (Js.Alt (Js.Seq (Js.Lit "ts") (Js.Opt (Js.Chr "x")))
                        (Js.Alt (Js.Seq (Js.Lit "js") (Js.Opt (Js.Chr "x")))
                           (Js.Seq (Js.Lit "md") (Js.Opt (Js.Chr "x")))))
                     (Js.Seq Js.Eol Js.Eol)))
               pos ("." +:+ ext) (fun _ _ => true) = true).
  { intros pos. unfold nestedExtensions in Hext. cbn [In] in Hext.
    repeat (destruct Hext as [<-|Hext]; [reflexivity|]). destruct Hext. }
  split; [|split].
  - unfold isRouteModuleFile. rewrite Hnested by reflexivity. cbn [negb].
    unfold Js.test. apply searchFrom_append.
    unfold nestedExtensions in Hext. cbn [In] in Hext.
    repeat (destruct Hext as [<-|Hext]; [reflexivity|]). destruct Hext.
  - unfold isRouteModuleFile. rewrite Hnested by reflexivity. cbn [negb].
    unfold Js.test. apply searchFrom_append.
    unfold nestedExtensions in Hext. cbn [In] in Hext.
    repeat (destruct Hext as [<-|Hext]; [reflexivity|]). destruct Hext.
  - intros Hne Hname. split.
    + unfold isRouteModuleFile.
      rewrite Hnested by (rewrite !append_cons; apply hasSlash_second).
      cbn [negb].
      unfold Js.test. apply searchFrom_append.
      rewrite !append_cons, append_nil_l. unfold routeRegex. cbn [Js.matchAt].
      change (Js.inClass false ["+"%char] "+") with true.
      change (Js.inClass false ["/"; "\"]%char "/") with true.
      cbn [andb]. rewrite matchPlus_run; [reflexivity|exact Hne|exact Hname|].
      apply Htail.
    + intros Hdir. unfold isRouteModuleFile.
      assert (Hin : Js.includes (dir +:+ "_" +:+ name +:+ "." +:+ ext) "/" = true).
      { change (Js.includes ?s "/") with (hasSlash s).
        rewrite hasSlash_append, Hdir. reflexivity. }
      rewrite Hin. cbn [negb]. unfold Js.test. apply searchFrom_append.
      rewrite !append_cons, append_nil_l. unfold routeRegex. cbn [Js.matchAt].
      change (Js.inClass false ["+"%char] "_") with false.
      change (Js.inClass false ["/"; "\"]%char "_") with false.
      change (Ascii.eqb "_" "_") with true.
      cbn [andb orb]. rewrite matchPlus_run; [reflexivity|exact Hne|exact Hname|].
      apply Htail.
Qed.

Lemma nested_route_modules_witness :
  isRouteModuleFile Posix.extname "/" routeModuleExts "blog/route.tsx" = true /\
  isRouteModuleFile Posix.extname "/" routeModuleExts "blog/index.tsx" = true /\
  isRouteModuleFile Posix.extname "/" routeModuleExts "blog+/post.tsx" = true /\
  isRouteModuleFile Posix.extname "/" routeModuleExts "blog/nav_bar.tsx" = true.
Proof.
  destruct (nested_route_modules Posix.extname routeModuleExts
              "blog" "post" "tsx") as (H1 & H2 & H3);
    [right; left; reflexivity|].
  destruct (H3 ltac:(discriminate) eq_refl) as [H4 _].
  destruct (nested_route_modules Posix.extname routeModuleExts
              "blog/nav" "bar" "tsx") as (_ & _ & H5);
    [right; left; reflexivity|].
  destruct (H5 ltac:(discriminate) eq_refl) as [_ H6].
  split; [exact H1|]. split; [exact H2|]. split; [exact H4|].
  exact (H6 eq_refl).
Defined.

(** ** Collapsing an index folder *)

Lemma split_cons (c : ascii) (s : string) :
  exists x xs, Js.split c s = x :: xs.
Proof.
  destruct s as [|b s]; [cbn; eauto|].
  cbn [Js.split]. destruct (Ascii.eqb b c); [eauto|].
  destruct (Js.split c s); eauto.
Qed.

Lemma split_append (c : ascii) (p q : string) :
  Js.split c (p +:+ String c q) = Js.split c p ++ Js.split c q.
Proof.
  induction p as [|b p IH].
  - rewrite append_nil_l. cbn [Js.split]. rewrite Ascii.eqb_refl. reflexivity.
  - rewrite append_cons. cbn [Js.split]. rewrite IH.
    destruct (Ascii.eqb b c); [reflexivity|].
    destruct (split_cons c p) as (x & xs & ->). reflexivity.
Qed.

Lemma join_cons (sep x : string) (y : string) (l : list string) :
  Js.join sep (x :: y :: l) = x +:+ sep +:+ Js.join sep (y :: l).
Proof. reflexivity. Qed.

(** Joining the pieces of a split with the separator gives the string
    back. *)
Lemma join_split (c : ascii) (s : string) :
  Js.join (String c EmptyString) (Js.split c s) = s.
Proof.
  induction s as [|b s IH]; [reflexivity|].
  cbn [Js.split]. destruct (split_cons c s) as (x & xs & Hs).
  rewrite Hs in *. destruct (Ascii.eqb_spec b c) as [->|Hne].
  - rewrite join_cons, IH. reflexivity.
  - destruct xs as [|y xs].
    + cbn [Js.join] in *. rewrite IH. reflexivity.
    + rewrite join_cons in *. rewrite append_cons, IH. reflexivity.
Qed.

(** X11: the id of a file in a folder, [p/index], is collapsed to the id
    of the folder, [p], whatever [p] is; an id that does not end in [/index]
    is kept. *)
Theorem index_folder_collapsed :
  forall (createRouteId : string -> string) (filePath p : string),
    (createRouteId filePath = p +:+ "/index" ->
     createFlatRouteId createRouteId filePath = p) /\
    (Js.endsWith (createRouteId filePath) "/index" = false ->
     createFlatRouteId createRouteId filePath = createRouteId filePath).
Proof.
  intros createRouteId filePath p. unfold createFlatRouteId. split.
  - intros ->. rewrite hasSlash_includes, hasSlash_append, endsWith_append.
    change (hasSlash "/index") with true. rewrite orb_true_r. cbn [andb].
    unfold posixSep, Js.arrayInit.
    change (p +:+ "/index") with (p +:+ String "/" "index").
    rewrite split_append. change (Js.split "/" "index") with ["index"].
    rewrite removelast_last. apply join_split.
  - intros ->. rewrite andb_false_r. reflexivity.
Qed.

Lemma index_folder_collapsed_witness :
  createFlatRouteId createRouteId "routes/blog/index.tsx" = "routes/blog" /\
  createFlatRouteId createRouteId "routes/blog.tsx" = "routes/blog".
Proof.
  destruct (index_folder_collapsed createRouteId "routes/blog/index.tsx"
              "routes/blog") as [H _].
  destruct (index_folder_collapsed createRouteId "routes/blog.tsx" "")
    as [_ H'].
  split; [apply H; reflexivity|apply H'; reflexivity].
Defined.

(** ** The route map and its parent links (C8) *)

Lemma set_Forall {V} (P : string * V -> Prop) (m : JsMap.t V) (key : string)
    (v : V) :
  Forall P m -> P (key, v) -> Forall P (JsMap.set m key v).
Proof.
  intros Hm Hv. induction m as [|[k w] m IH]; [repeat constructor; exact Hv|].
  apply Forall_cons_1 in Hm as [Hk Hm]. cbn [JsMap.set].
  destruct (String.eqb_spec k key) as [->|Hne]; constructor; auto.
Qed.

Lemma set_keys_grow {V} (m : JsMap.t V) (key : string) (v : V) (k : string) :
  In k (map fst m) \/ k = key -> In k (map fst (JsMap.set m key v)).
Proof.
  destruct (set_keys m key v) as [[Hin ->]|[_ ->]].
  - intros [H| ->]; assumption.
  - rewrite in_app_iff. cbn [In]. intros [H| ->]; auto.
Qed.

Lemma derivedFromId_setParentId (parent : option string) (r : RouteInfo) :
  derivedFromId r -> derivedFromId (setParentId parent r).
Proof. intros H. exact H. Qed.

(** Two route infos that agree with the same id have the same segments and
    the same name. *)
Lemma derivedFromId_name (a b : RouteInfo) :
  derivedFromId a -> derivedFromId b -> id a = id b -> name a = name b.
Proof.
  intros (Ha & Hna & _) (Hb & Hnb & _) Hid. rewrite Hid, Hb in Ha.
  injection Ha as Ha. rewrite Hna, Hnb, Ha. reflexivity.
Qed.

Lemma candidate_truncation (segs : list string) (p : string) :
  Forall ParentSpec.segmentOk segs ->
  candidate (Js.join "/" (Js.arrayInit segs)) p
  <-> ParentSpec.truncation p (Js.join "/" segs).
Proof.
  intros Hsegs. pose proof (join_no_leading_slash _ Hsegs) as Hlead.
  unfold candidate, Js.arrayInit.
  destruct (list_last_cases segs) as [->|(front & x & ->)].
  - cbn. split.
    + intros [Hp [->|H]]; [congruence|exact H].
    + intros H. apply truncation_length in H. cbn in H. lia.
  - rewrite removelast_last.
    apply Forall_app in Hsegs as [Hfront Hx].
    apply Forall_cons_1 in Hx as [[Hx Hslash] _].
    destruct front as [|y front].
    + cbn. split.
      * intros [Hp [->|H]]; [congruence|].
        apply truncation_length in H. cbn in H. lia.
      * intros H. exfalso. exact (truncation_no_slash _ _ Hslash H).
    + rewrite join_snoc in * by discriminate.
      rewrite truncation_split by exact Hslash.
      split; [tauto|]. intros H. split; [|exact H].
      intros ->. destruct H as [H|H].
      * apply Forall_cons_1 in Hfront as [[Hy _] _].
        exact (join_truthy y front Hy (eq_sym H)).
      * apply Hlead. apply truncation_split; [exact Hslash|]. right. exact H.
Qed.

(** A parent that is found is registered under a truncation of the name. *)
Lemma findParentRouteId_found (r : RouteInfo) (nameMap : gmap string RouteInfo)
    (pid : string) :
  Forall ParentSpec.segmentOk (segments r) ->
  findParentRouteId r nameMap = Some pid ->
  exists p v,
    ParentSpec.truncation p (Js.join "/" (segments r)) /\
    nameMap !! p = Some v /\ id v = pid.
Proof.
  intros Hsegs. unfold findParentRouteId.
  set (parentName := Js.join "/" (Js.arrayInit (segments r))).
  destruct (findParentLoop_spec nameMap (S (String.length parentName)) parentName)
    as (res & -> & Hres); [lia|].
  intros ->. destruct Hres as (p & v & Hc & Hp & Hid & _).
  exists p, v. split; [|auto]. apply candidate_truncation; assumption.
Qed.

Section RouteMapLinks.

Variable pathJoin : string -> string -> string.
Variable pathExtname : string -> string.
Variable pathSep : ascii.
Variable createRouteId : string -> string.
Variable routeModuleExts : list string.

#[local] Abbreviation buildRouteMap :=
  (getRouteMap pathJoin pathExtname pathSep createRouteId routeModuleExts).

Lemma getRouteInfo_derived (appDirectory routeDirectory filePath : string)
    (r : RouteInfo) :
  getRouteInfo createRouteId appDirectory routeDirectory filePath = Ok r ->
  derivedFromId r.
Proof.
  unfold getRouteInfo.
  destruct (getRouteSegments _) as [segs|e] eqn:Hsegs; [|discriminate].
  rewrite bind_Ok. intros [= <-]. unfold derivedFromId.
  cbn [id segments name index path]. auto.
Qed.

Lemma collectRoutes_linked (appDirectory prefix : string)
    (routePaths : list string) (m m' : JsMap.t RouteInfo)
    (nameMap nameMap' : gmap string RouteInfo) :
  linked m nameMap ->
  collectRoutes pathJoin pathExtname pathSep createRouteId routeModuleExts
    appDirectory prefix routePaths m nameMap = Ok (m', nameMap') ->
  linked m' nameMap'.
Proof.
  revert m nameMap.
  induction routePaths as [|routePath rest IH]; intros m nameMap Hl.
  - intros [= <- <-]. exact Hl.
  - cbn [collectRoutes]. destruct (isRouteModuleFile _ _ _ _); [|apply IH; exact Hl].
    destruct (getRouteInfo _ _ _ _) as [r|e] eqn:Hr; [|discriminate].
    rewrite bind_Ok. apply IH. apply getRouteInfo_derived in Hr.
    destruct Hl as (Hkeys & Hder & Hnames). split; [|split].
    + apply set_keyedById. exact Hkeys.
    + apply set_Forall; assumption.
    + intros k v Hlook.
      destruct (decide (name r = k)) as [<-|Hne].
      * rewrite lookup_insert_eq in Hlook. injection Hlook as <-.
        split; [reflexivity|]. split; [exact Hr|].
        apply set_keys_grow. right. reflexivity.
      * rewrite lookup_insert_ne in Hlook by exact Hne.
        destruct (Hnames k v Hlook) as (Hn & Hd & Hin).
        split; [exact Hn|]. split; [exact Hd|].
        apply set_keys_grow. left. exact Hin.
Qed.

(** The route map returned is the collected one with the parents filled
    in. *)
Lemma getRouteMap_collected (appDirectory : string) (routePaths : list string)
    (prefix : string) (routeMap : JsMap.t RouteInfo) :
  buildRouteMap appDirectory routePaths prefix = Ok routeMap ->
  exists m nameMap,
    linked m nameMap /\
    routes routeMap
    = map (fun r => setParentId (findParentRouteId r nameMap) r) (routes m).
Proof.
  unfold getRouteMap.
  destruct (collectRoutes _ _ _ _ _ _ _ _ _ _) as [[m nameMap]|e] eqn:Hc;
    [|discriminate].
  rewrite bind_Ok. intros [= <-]. exists m, nameMap. split.
  - eapply collectRoutes_linked; [|exact Hc].
    split; [split; constructor|]. split; [constructor|].
    intros k v Hlook. rewrite lookup_empty in Hlook. discriminate.
  - unfold routes, JsMap.values. rewrite !map_map.
    apply map_ext. intros [k r]. reflexivity.
Qed.

Lemma keyed_entry (m : JsMap.t RouteInfo) (k : string) :
  keyedById m -> In k (map fst m) ->
  exists q, In q (routes m) /\ id q = k.
Proof.
  intros [_ Hid] Hin. apply in_map_iff in Hin as ([k' q] & Hk & Hin).
  cbn [fst] in Hk. subst k'. exists q. split.
  - unfold routes, JsMap.values. apply in_map_iff. exists (k, q). auto.
  - rewrite Forall_forall in Hid.
    specialize (Hid (k, q)). cbn [fst snd] in Hid. symmetry. apply Hid.
    apply list_elem_of_In. exact Hin.
Qed.

(** The parent of a route of the map is a route of the map, whose name is
    a truncation of the name of the route. *)
Lemma getRouteMap_parent (appDirectory : string) (routePaths : list string)
    (prefix : string) (routeMap : JsMap.t RouteInfo) (r : RouteInfo)
    (pid : string) :
  buildRouteMap appDirectory routePaths prefix = Ok routeMap ->
  In r (routes routeMap) -> parentId r = Some pid ->
  exists q,
    In q (routes routeMap) /\ id q = pid /\
    ParentSpec.truncation (name q) (name r).
Proof.
  intros Hmap Hr Hpar.
  destruct (getRouteMap_collected _ _ _ _ Hmap)
    as (m & nameMap & (Hkeys & Hder & Hnames) & Hroutes).
  rewrite Hroutes in Hr |- *. apply in_map_iff in Hr as (r0 & <- & Hr0).
  cbn [parentId setParentId name] in Hpar |- *.
  assert (Hd0 : derivedFromId r0).
  { unfold routes, JsMap.values in Hr0.
    apply in_map_iff in Hr0 as (kv & <- & Hkv).
    rewrite Forall_forall in Hder. apply Hder, list_elem_of_In. exact Hkv. }
  destruct Hd0 as (Hsegs0 & Hname0 & _).
  destruct (findParentRouteId_found r0 nameMap pid
              (getRouteSegments_segmentOk _ _ Hsegs0) Hpar)
    as (p & v & Htrunc & Hlook & <-).
  destruct (Hnames p v Hlook) as (Hnv & Hdv & Hin).
  destruct (keyed_entry m (id v) Hkeys Hin) as (q0 & Hq0 & Hidq).
  assert (Hdq : derivedFromId q0).
  { unfold routes, JsMap.values in Hq0.
    apply in_map_iff in Hq0 as (kv & <- & Hkv).
    rewrite Forall_forall in Hder. apply Hder, list_elem_of_In. exact Hkv. }
  exists (setParentId (findParentRouteId q0 nameMap) q0). split; [|split].
  - apply in_map_iff. exists q0. auto.
  - exact Hidq.
  - cbn [name setParentId].
    rewrite (derivedFromId_name q0 v Hdq Hdv Hidq), Hnv, Hname0.
    exact Htrunc.
Qed.

Lemma getRouteMap_derived (appDirectory : string) (routePaths : list string)
    (prefix : string) (routeMap : JsMap.t RouteInfo) :
  buildRouteMap appDirectory routePaths prefix = Ok routeMap ->
  forall r, In r (routes routeMap) -> derivedFromId r.
Proof.
  intros Hmap r Hr.
  destruct (getRouteMap_collected _ _ _ _ Hmap)
    as (m & nameMap & (_ & Hder & _) & Hroutes).
  rewrite Hroutes in Hr. apply in_map_iff in Hr as (r0 & <- & Hr0).
  apply derivedFromId_setParentId.
  unfold routes, JsMap.values in Hr0.
  apply in_map_iff in Hr0 as (kv & <- & Hkv).
  rewrite Forall_forall in Hder. apply Hder, list_elem_of_In. exact Hkv.
Qed.



End RouteMapLinks.


Section RouteMapTheorems.

Variable pathJoin : string -> string -> string.
Variable pathExtname : string -> string.
Variable pathSep : ascii.
Variable posixJoin : string -> string -> string.
Variable createRouteId : string -> string.
Variable routeModuleExts : list string.

#[local] Abbreviation buildRouteMap :=
  (getRouteMap pathJoin pathExtname pathSep createRouteId routeModuleExts).
#[local] Abbreviation buildManifest :=
  (flatRoutesUniversal pathJoin pathExtname pathSep posixJoin createRouteId
     routeModuleExts).

(** X12: in a route map that [getRouteMap] returns, no two routes have the
    same id, and every route agrees with its id: its segments are the
    segments of the id, its name is the segments joined by [/], its index
    flag is [isIndexRoute] of the id, and its path is the path of its
    segments. *)
Theorem route_map_well_formed :
  forall (appDirectory : string) (routePaths : list string) (prefix : string)
         (routeMap : JsMap.t RouteInfo),
    buildRouteMap appDirectory routePaths prefix = Ok routeMap ->
    NoDup (map id (routes routeMap)) /\
    Forall derivedFromId (routes routeMap).
Proof.
  intros appDirectory routePaths prefix routeMap Hmap. split.
  - exact (getRouteMap_ids_unique _ _ _ _ _ _ _ _ _ Hmap).
  - apply Forall_forall. intros r Hr. apply list_elem_of_In in Hr.
    exact (getRouteMap_derived _ _ _ _ _ _ _ _ _ Hmap r Hr).
Qed.

(** X13: the parent of a route of the map is another route of the map,
    whose name is the name of the route cut at one of its [/], hence
    shorter: no route is its own ancestor. *)
Theorem parent_is_a_route_with_shorter_name :
  forall (appDirectory : string) (routePaths : list string) (prefix : string)
         (routeMap : JsMap.t RouteInfo) (r : RouteInfo) (pid : string),
    buildRouteMap appDirectory routePaths prefix = Ok routeMap ->
    In r (routes routeMap) -> parentId r = Some pid ->
    exists q,
      In q (routes routeMap) /\ id q = pid /\
      ParentSpec.truncation (name q) (name r) /\
      String.length (name q) < String.length (name r) /\ q <> r.
Proof.
  intros appDirectory routePaths prefix routeMap r pid Hmap Hr Hpar.
  destruct (getRouteMap_parent _ _ _ _ _ _ _ _ _ _ _ Hmap Hr Hpar)
    as (q & Hq & Hid & Htrunc).
  exists q. split; [exact Hq|]. split; [exact Hid|]. split; [exact Htrunc|].
  pose proof (truncation_length _ _ Htrunc) as Hlen. split; [exact Hlen|].
  intros ->. lia.
Qed.

(** Every route of the map has a chain of parents up to the root, with or
    without an index route on it. *)
Lemma routes_placed (appDirectory : string) (routePaths : list string)
    (prefix : string) (routeMap : JsMap.t RouteInfo) :
  buildRouteMap appDirectory routePaths prefix = Ok routeMap ->
  forall n r,
    String.length (name r) < n -> In r (routes routeMap) ->
    visitable routeMap r \/ underIndex routeMap r.
Proof.
  intros Hmap. induction n as [|n IH]; intros r Hlen Hr; [lia|].
  destruct (parentId r) as [pid|] eqn:Hpar.
  - destruct (getRouteMap_parent _ _ _ _ _ _ _ _ _ _ _ Hmap Hr Hpar)
      as (q & Hq & <- & Htrunc).
    apply truncation_length in Htrunc.
    destruct (IH q ltac:(lia) Hq) as [Hvis|Hunder].
    + destruct (index q) eqn:Hidx.
      * right. eapply underIndex_child; eauto.
      * left. eapply visitable_child; eauto.
    + right. eapply underIndex_below; eauto.
  - left. apply visitable_root; assumption.
Qed.

(** X14: every route of the map is in the manifest that is returned, with
    its file, its index flag and its id under the prefix, unless it has an
    index route among its ancestors. *)
Theorem routes_emitted_unless_under_index :
  forall (appDirectory : string) (routePaths : list string) (prefix : string)
         (routeMap : JsMap.t RouteInfo) (trees : list RouteNode),
    buildRouteMap appDirectory routePaths prefix = Ok routeMap ->
    buildManifest appDirectory routePaths prefix = Some (Ok trees) ->
    forall r, In r (routes routeMap) ->
      In (posixJoin prefix (id r), file r, index r) (flat_map nodesOf trees) \/
      underIndex routeMap r.
Proof.
  intros appDirectory routePaths prefix routeMap trees Hmap Hrun r Hr.
  unfold flatRoutesUniversal in Hrun. rewrite Hmap in Hrun.
  destruct (routes_placed _ _ _ _ Hmap (S (String.length (name r))) r
              ltac:(lia) Hr) as [Hvis|Hunder]; [left|right; exact Hunder].
  unfold assemble, defineRoutes in Hrun.
  pose proof (defineNestedRoutes_follows posixJoin prefix routeMap
                (S (length (routes routeMap))) None ∅) as Hf.
  destruct (defineNestedRoutes posixJoin prefix routeMap
              (S (length (routes routeMap))) None ∅)
    as [[[u nodes]|e]|] eqn:Hnested; cbn [andThen follows] in *;
    try discriminate.
  injection Hrun as ->. destruct Hf as (_ & -> & _).
  apply (in_map (nodeOf posixJoin prefix)).
  exact (visitable_visited _ _ _ _ _ _ _ Hnested Hvis).
Qed.

(** X15: [flatRoutesUniversal] ends on every list of files, with a
    manifest or an error: the recursion never goes deeper than there are
    routes. *)
Theorem flatRoutesUniversal_terminates :
  forall (appDirectory : string) (routePaths : list string) (prefix : string),
    flatRoutesUniversal pathJoin pathExtname pathSep posixJoin createRouteId
      routeModuleExts appDirectory routePaths prefix <> None.
Proof.
  intros appDirectory routePaths prefix. unfold flatRoutesUniversal.
  destruct (buildRouteMap appDirectory routePaths prefix) as [routeMap|e] eqn:Hmap;
    [|discriminate].
  apply assemble_fuel. exact (getRouteMap_ids_unique _ _ _ _ _ _ _ _ _ Hmap).
Qed.

Lemma collectRoutes_skip (appDirectory prefix : string)
    (before after : list string) (f : string) (m : JsMap.t RouteInfo)
    (nameMap : gmap string RouteInfo) :
  isRouteModuleFile pathExtname pathSep routeModuleExts
    (Js.sliceFrom (String.length (pathJoin appDirectory prefix) + 1) f)
  = false ->
  collectRoutes pathJoin pathExtname pathSep createRouteId routeModuleExts
    appDirectory prefix (before ++ f :: after) m nameMap
  = collectRoutes pathJoin pathExtname pathSep createRouteId routeModuleExts
      appDirectory prefix (before ++ after) m nameMap.
Proof.
  intros Hf. revert m nameMap.
  induction before as [|g before IH]; intros m nameMap.
  - cbn [app collectRoutes]. rewrite Hf. reflexivity.
  - cbn [app collectRoutes].
    destruct (isRouteModuleFile pathExtname pathSep routeModuleExts
                (Js.sliceFrom _ g)); [|apply IH].
    destruct (getRouteInfo _ _ _ _) as [r|e]; [|reflexivity].
    rewrite !bind_Ok. apply IH.
Qed.

(** X16: a file that is no route module changes nothing, wherever it is
    listed and whatever its name: the route map and the manifest are those
    of the list without it. *)
Theorem non_route_files_are_ignored :
  forall (appDirectory prefix : string) (before after : list string)
         (f : string),
    isRouteModuleFile pathExtname pathSep routeModuleExts
      (Js.sliceFrom (String.length (pathJoin appDirectory prefix) + 1) f)
    = false ->
    buildRouteMap appDirectory (before ++ f :: after) prefix
    = buildRouteMap appDirectory (before ++ after) prefix /\
    buildManifest appDirectory (before ++ f :: after) prefix
    = buildManifest appDirectory (before ++ after) prefix.
Proof.
  intros appDirectory prefix before after f Hf.
  assert (Hmap : buildRouteMap appDirectory (before ++ f :: after) prefix
                 = buildRouteMap appDirectory (before ++ after) prefix).
  { unfold getRouteMap. rewrite collectRoutes_skip by exact Hf. reflexivity. }
  split; [exact Hmap|]. unfold flatRoutesUniversal. rewrite Hmap. reflexivity.
Qed.

End RouteMapTheorems.

Lemma route_map_well_formed_witness :
  NoDup (map id (routes indexWithChild)) /\
  Forall derivedFromId (routes indexWithChild).
Proof.
  apply (route_map_well_formed Posix.join Posix.extname Posix.sep createRouteId
           routeModuleExts "/app"
           ["/app/routes/a._index.tsx"; "/app/routes/a._index.b.tsx"] "routes").
  vm_compute. reflexivity.
Defined.

Lemma parent_is_a_route_with_shorter_name_witness :
  exists q,
    In q (routes usersWithParam) /\ id q = "users" /\
    ParentSpec.truncation (name q) (name userParam) /\
    String.length (name q) < String.length (name userParam) /\
    q <> userParam.
Proof.
  apply (parent_is_a_route_with_shorter_name Posix.join Posix.extname Posix.sep
           createRouteId routeModuleExts "/app"
           ["/app/routes/users.tsx"; "/app/routes/users.$id.tsx"] "routes"
           usersWithParam userParam "users").
  - vm_compute. reflexivity.
  - right. left. reflexivity.
  - reflexivity.
Defined.

Lemma routes_emitted_unless_under_index_witness :
  In (Posix.join "routes" (id userParam), file userParam, index userParam)
    (flat_map nodesOf
       [Node "users" "routes/users.tsx" "routes/users" false
          [Node ":id" "routes/users.$id.tsx" "routes/users.$id" false []]]) \/
  underIndex usersWithParam userParam.
Proof.
  apply (routes_emitted_unless_under_index Posix.join Posix.extname Posix.sep
           Posix.join createRouteId routeModuleExts "/app"
           ["/app/routes/users.tsx"; "/app/routes/users.$id.tsx"] "routes"
           usersWithParam).
  - vm_compute. reflexivity.
  - vm_compute. reflexivity.
  - right. left. reflexivity.
Defined.

Lemma non_route_files_are_ignored_witness :
  posixRouteMap "/app"
    ["/app/routes/users.tsx"; "/app/routes/notes*.txt"; "/app/routes/_a.tsx"]
    "routes"
  = posixRouteMap "/app" ["/app/routes/users.tsx"; "/app/routes/_a.tsx"]
      "routes" /\
  posixFlatRoutes "/app"
    ["/app/routes/users.tsx"; "/app/routes/notes*.txt"; "/app/routes/_a.tsx"]
    "routes"
  = posixFlatRoutes "/app" ["/app/routes/users.tsx"; "/app/routes/_a.tsx"]
      "routes".
Proof.
  apply (non_route_files_are_ignored Posix.join Posix.extname Posix.sep
           Posix.join createRouteId routeModuleExts "/app" "routes"
           ["/app/routes/users.tsx"] ["/app/routes/_a.tsx"]
           "/app/routes/notes*.txt").
  reflexivity.
Defined.

(** ** Paths of parents and children *)

Lemma head_segment_inj (x y a b : string) :
  hasSlash x = false -> hasSlash y = false ->
  x +:+ String "/" a = y +:+ String "/" b -> x = y /\ a = b.
Proof.
  revert y. induction x as [|c x IH]; intros [|d y] Hx Hy Heq.
  - rewrite !append_nil_l in Heq. injection Heq as ->. auto.
  - rewrite append_nil_l, append_cons in Heq. injection Heq as <- _.
    rewrite hasSlash_cons in Hy. change (Ascii.eqb "/" "/") with true in Hy.
    discriminate.
  - rewrite append_nil_l, append_cons in Heq. injection Heq as -> _.
    rewrite hasSlash_cons in Hx. change (Ascii.eqb "/" "/") with true in Hx.
    discriminate.
  - rewrite !append_cons in Heq. injection Heq as -> Heq.
    rewrite hasSlash_cons in Hx, Hy.
    apply orb_false_iff in Hx as [_ Hx]. apply orb_false_iff in Hy as [_ Hy].
    destruct (IH y Hx Hy Heq) as [-> ->]. auto.
Qed.

(** Well-formed segments can be read back from their name. *)
Lemma join_inj (l1 l2 : list string) :
  Forall ParentSpec.segmentOk l1 -> Forall ParentSpec.segmentOk l2 ->
  Js.join "/" l1 = Js.join "/" l2 -> l1 = l2.
Proof.
  revert l2. induction l1 as [|x l1 IH]; intros [|y l2] H1 H2 Heq.
  - reflexivity.
  - exfalso. apply Forall_cons_1 in H2 as [[Hy _] _].
    exact (join_truthy y l2 Hy (eq_sym Heq)).
  - exfalso. apply Forall_cons_1 in H1 as [[Hx _] _].
    exact (join_truthy x l1 Hx Heq).
  - apply Forall_cons_1 in H1 as [[Hx Hxs] H1].
    apply Forall_cons_1 in H2 as [[Hy Hys] H2].
    destruct l1 as [|x' l1], l2 as [|y' l2].
    + cbn [Js.join] in Heq. congruence.
    + exfalso. rewrite join_cons in Heq.
      change (Js.join "/" [x]) with x in Heq.
      rewrite Heq, hasSlash_append in Hxs.
      apply orb_false_iff in Hxs as [_ Hxs].
      rewrite append_cons, hasSlash_cons in Hxs.
      change (Ascii.eqb "/" "/") with true in Hxs. discriminate.
    + exfalso. rewrite join_cons in Heq.
      change (Js.join "/" [y]) with y in Heq.
      rewrite <- Heq, hasSlash_append in Hys.
      apply orb_false_iff in Hys as [_ Hys].
      rewrite append_cons, hasSlash_cons in Hys.
      change (Ascii.eqb "/" "/") with true in Hys. discriminate.
    + rewrite !join_cons in Heq.
      apply (head_segment_inj x y) in Heq as [-> Heq]; [|exact Hxs|exact Hys].
      f_equal. exact (IH _ H1 H2 Heq).
Qed.

(** The truncations of a name are the names of the proper non-empty
    prefixes of its segment list. *)
Lemma truncation_join (l : list string) (p : string) :
  Forall ParentSpec.segmentOk l ->
  ParentSpec.truncation p (Js.join "/" l) ->
  exists front more,
    l = front ++ more /\ front <> [] /\ more <> [] /\ p = Js.join "/" front.
Proof.
  induction l as [|x l IH] using rev_ind; intros Hok Htr.
  - exfalso. destruct Htr as [rest Heq]. destruct p; discriminate.
  - apply Forall_app in Hok as [Hl Hx].
    apply Forall_cons_1 in Hx as [[_ Hxs] _].
    destruct l as [|y l'].
    + exfalso. exact (truncation_no_slash _ _ Hxs Htr).
    + rewrite join_snoc in Htr by discriminate.
      apply truncation_split in Htr as [->|Htr]; [| |exact Hxs].
      * exists (y :: l'), [x]. repeat split; discriminate.
      * destruct (IH Hl Htr) as (front & more & Heq & Hf & _ & ->).
        exists front, (more ++ [x]). rewrite Heq, <- app_assoc.
        split; [reflexivity|]. split; [exact Hf|]. split; [|reflexivity].
        destruct more; discriminate.
Qed.

Lemma sliceFrom_append (p s : string) :
  Js.sliceFrom (String.length p) (p +:+ s) = s.
Proof.
  induction p as [|c p IH]; [destruct s; reflexivity|].
  rewrite append_cons. exact IH.
Qed.

Lemma removeLeadingSlash_other (c : ascii) (s : string) :
  c <> "/"%char -> removeLeadingSlash (String c s) = String c s.
Proof.
  intros Hc. destruct c as [[] [] [] [] [] [] [] []]; try reflexivity.
  congruence.
Qed.

Lemma Forall_removelast {A} (P : A -> Prop) (l : list A) :
  Forall P l -> Forall P (removelast l).
Proof.
  induction 1 as [|x l Hx Hl IH]; [constructor|].
  destruct l as [|y l]; [constructor|]. constructor; assumption.
Qed.

(** A segment that goes into the path is not empty after its trailing
    marker is removed, and does not begin with a [/]. *)
Lemma kept_segment (s : string) :
  ParentSpec.segmentOk s -> PathSpec.isPathless s = false ->
  exists c rest, PathSpec.stripTrailingMarker s = String c rest /\ c <> "/"%char.
Proof.
  intros [Hne Hslash] Hless. destruct s as [|c s]; [congruence|].
  rewrite isPathless_startsWith, startsWith_char in Hless.
  rewrite hasSlash_cons in Hslash. apply orb_false_iff in Hslash as [Hc _].
  assert (Hc' : c <> "/"%char).
  { intros ->. change (Ascii.eqb "/" "/") with true in Hc. discriminate. }
  rewrite stripTrailingMarker_slice. destruct s as [|d s].
  - exists c, EmptyString. split; [|exact Hc'].
    cbn [Js.endsWith String.eqb]. rewrite Ascii.eqb_sym, Hless. reflexivity.
  - destruct (Js.endsWith _ _); eexists _, _; (split; [|exact Hc']);
      reflexivity.
Qed.

Lemma createRoutePath_text (segs : list string) (isIndex : bool) :
  createRoutePath segs isIndex
  = (let p := pathOrEmpty (PathSpec.dropIndexMarker segs isIndex) in
     if Js.truthy p then Some p else None).
Proof.
  rewrite createRoutePath_kept, pathOrEmpty_kept. reflexivity.
Qed.

Lemma default_truthy (s : string) :
  default EmptyString (if Js.truthy s then Some s else None) = s.
Proof. destruct s; reflexivity. Qed.

Lemma pathOrEmpty_app (l1 l2 : list string) :
  pathOrEmpty (l1 ++ l2) = pathOrEmpty l1 +:+ pathOrEmpty l2.
Proof.
  rewrite !pathOrEmpty_kept. unfold PathSpec.remaining, PathSpec.dropIndexMarker.
  rewrite List.filter_app, map_app. apply concatPrefixed_app.
Qed.

(** The path of well-formed segments is empty, or a [/] followed by a
    character other than [/]. *)
Lemma pathOrEmpty_head (l : list string) :
  Forall ParentSpec.segmentOk l ->
  pathOrEmpty l = EmptyString \/
  exists c rest, pathOrEmpty l = String "/" (String c rest) /\ c <> "/"%char.
Proof.
  intros Hl. rewrite pathOrEmpty_kept. unfold PathSpec.remaining.
  cbn [PathSpec.dropIndexMarker].
  destruct (List.filter _ l) as [|s kept] eqn:Hkept; [left; reflexivity|].
  right. assert (Hs : In s (List.filter (fun seg => negb (PathSpec.isPathless seg)) l))
    by (rewrite Hkept; left; reflexivity).
  apply filter_In in Hs as [Hs Hless]. apply negb_true_iff in Hless.
  rewrite Forall_forall in Hl. specialize (Hl s).
  rewrite list_elem_of_In in Hl. specialize (Hl Hs).
  destruct (kept_segment s Hl Hless) as (c & rest & Hstrip & Hc).
  cbn [map PathSpec.concatPrefixed]. rewrite Hstrip.
  rewrite !append_cons, append_nil_l. eauto.
Qed.

(** What [defineRoute] is given as the path of a child, from the path of
    the segments of the parent and the path of the segments the child adds
    to them. *)
Lemma relativePath_parts (parentPath own : string) (r : RouteInfo) :
  path r = (if Js.truthy (parentPath +:+ own)
            then Some (parentPath +:+ own) else None) ->
  (own = EmptyString \/
   exists c rest, own = String "/" (String c rest) /\ c <> "/"%char) ->
  relativePath (if Js.truthy parentPath then parentPath else "/") r
  = removeLeadingSlash own.
Proof.
  intros Hr Hown. unfold relativePath. rewrite Hr.
  destruct parentPath as [|a parentPath].
  - rewrite append_nil_l. cbn [Js.truthy].
    destruct Hown as [->|(c & rest & -> & Hc)]; [reflexivity|].
    cbn [Js.truthy String.length Js.sliceFrom removeLeadingSlash].
    apply removeLeadingSlash_other. exact Hc.
  - cbn [Js.truthy]. rewrite append_cons. cbn [Js.truthy].
    rewrite <- append_cons, sliceFrom_append. reflexivity.
Qed.

Lemma removeLeadingSlash_own (own : string) :
  (own = EmptyString \/
   exists c rest, own = String "/" (String c rest) /\ c <> "/"%char) ->
  Js.startsWith (removeLeadingSlash own) "/" = false.
Proof.
  intros [->|(c & rest & -> & Hc)]; [reflexivity|].
  cbn [removeLeadingSlash]. rewrite startsWith_char.
  apply Ascii.eqb_neq. congruence.
Qed.

Lemma get_keyed (m : JsMap.t RouteInfo) (q : RouteInfo) :
  keyedById m -> In q (routes m) -> JsMap.get m (id q) = Some q.
Proof.
  intros [Hnd Hid]. unfold routes, JsMap.values.
  induction m as [|[k v] m IH]; [intros []|].
  cbn [map fst snd] in *. apply NoDup_cons in Hnd as [Hk Hnd].
  apply Forall_cons_1 in Hid as [Hkv Hid]. cbn [fst snd] in Hkv. subst k.
  cbn [JsMap.get]. intros [->|Hq].
  - rewrite String.eqb_refl. reflexivity.
  - destruct (String.eqb_spec (id v) (id q)) as [Heq|_]; [|exact (IH Hnd Hid Hq)].
    exfalso. apply Hk. rewrite Heq. apply list_elem_of_In.
    apply in_map_iff in Hq as (kv & <- & Hkv).
    rewrite Forall_forall in Hid. rewrite <- (Hid kv) by (apply list_elem_of_In; exact Hkv).
    apply in_map. exact Hkv.
Qed.

Lemma parentRoutePathOf_found (m : JsMap.t RouteInfo) (q : RouteInfo) :
  keyedById m -> In q (routes m) -> id q <> EmptyString ->
  parentRoutePathOf m (Some (id q))
  = match path q with Some p => p | None => "/" end.
Proof.
  intros Hk Hq Hid. unfold parentRoutePathOf.
  rewrite (get_keyed m q Hk Hq).
  destruct (id q); [congruence|reflexivity].
Qed.

(** A route that is visited is visitable. *)
Lemma visited_visitable (routeMap : JsMap.t RouteInfo) (fuel : nat)
    (parent : option string) (c : RouteInfo) :
  parent = None \/
  (exists p, visitable routeMap p /\ index p = false /\ parent = Some (id p)) ->
  In c (visited routeMap fuel parent) -> visitable routeMap c.
Proof.
  revert parent c. induction fuel as [|fuel IH]; intros parent c Hparent;
    [intros []|].
  cbn [visited]. rewrite in_flat_map. intros (c0 & Hc0 & Hc).
  unfold childRoutesOf in Hc0.
  apply list_elem_of_In, list_elem_of_filter in Hc0 as [Hpar Hin].
  apply list_elem_of_In in Hin.
  assert (Hvis : visitable routeMap c0).
  { destruct Hparent as [->|(p & Hp & Hidx & ->)].
    - apply visitable_root; assumption.
    - eapply visitable_child; eauto. }
  destruct Hc as [<-|Hc]; [exact Hvis|].
  destruct (index c0) eqn:Hidx; [destruct Hc|].
  apply (IH (Some (id c0))); [|exact Hc]. right. eauto.
Qed.

Section RouteMapPaths.

Variable pathJoin : string -> string -> string.
Variable pathExtname : string -> string.
Variable pathSep : ascii.
Variable posixJoin : string -> string -> string.
Variable createRouteId : string -> string.
Variable routeModuleExts : list string.

#[local] Abbreviation buildRouteMap :=
  (getRouteMap pathJoin pathExtname pathSep createRouteId routeModuleExts).
#[local] Abbreviation buildManifest :=
  (flatRoutesUniversal pathJoin pathExtname pathSep posixJoin createRouteId
     routeModuleExts).

(** The route map that is returned is keyed by id. *)
Lemma getRouteMap_keyed (appDirectory : string) (routePaths : list string)
    (prefix : string) (routeMap : JsMap.t RouteInfo) :
  buildRouteMap appDirectory routePaths prefix = Ok routeMap ->
  keyedById routeMap.
Proof.
  unfold getRouteMap.
  destruct (collectRoutes _ _ _ _ _ _ _ _ _ _) as [[m nameMap]|e] eqn:Hc;
    [|discriminate].
  rewrite bind_Ok. intros [= <-].
  assert (Hk : keyedById m).
  { eapply collectRoutes_keyedById; [|exact Hc]. split; constructor. }
  destruct Hk as [Hnd Hid]. split.
  - rewrite map_map.
    erewrite map_ext; [exact Hnd|]. intros [k r]. reflexivity.
  - clear Hnd Hc. induction m as [|[k r] m IH]; [constructor|].
    apply Forall_cons_1 in Hid as [Hk Hid]. constructor; [exact Hk|].
    exact (IH Hid).
Qed.

(** The segments of a route begin with the segments of its parent. *)
Lemma parent_segments (appDirectory : string) (routePaths : list string)
    (prefix : string) (routeMap : JsMap.t RouteInfo) (r q : RouteInfo) :
  buildRouteMap appDirectory routePaths prefix = Ok routeMap ->
  In r (routes routeMap) -> In q (routes routeMap) ->
  parentId r = Some (id q) ->
  segments q <> [] /\
  exists more, more <> [] /\ segments r = segments q ++ more.
Proof.
  intros Hmap Hr Hq Hpar.
  destruct (getRouteMap_parent _ _ _ _ _ _ _ _ _ _ _ Hmap Hr Hpar)
    as (q' & Hq' & Hid & Htrunc).
  assert (q' = q) as ->.
  { apply (NoDup_map_eq id (routes routeMap)); auto.
    exact (getRouteMap_ids_unique _ _ _ _ _ _ _ _ _ Hmap). }
  destruct (getRouteMap_derived _ _ _ _ _ _ _ _ _ Hmap r Hr)
    as (Hsr & Hnr & _).
  destruct (getRouteMap_derived _ _ _ _ _ _ _ _ _ Hmap q Hq)
    as (Hsq & Hnq & _).
  apply getRouteSegments_segmentOk in Hsr, Hsq.
  rewrite Hnr, Hnq in Htrunc.
  destruct (truncation_join _ _ Hsr Htrunc) as (front & more & Heq & Hf & Hm & Hj).
  assert (Hfront : Forall ParentSpec.segmentOk front).
  { rewrite Heq in Hsr. apply Forall_app in Hsr as [Hfront _]. exact Hfront. }
  apply join_inj in Hj; [|exact Hsq|exact Hfront]. subst front.
  split; [exact Hf|]. exists more. auto.
Qed.

(** The paths of a route and of its parent, from the path of the segments
    of the parent and the path of the segments the route adds to them. *)
Lemma paths_of_parent_and_child (appDirectory : string)
    (routePaths : list string) (prefix : string)
    (routeMap : JsMap.t RouteInfo) (r q : RouteInfo) :
  buildRouteMap appDirectory routePaths prefix = Ok routeMap ->
  In r (routes routeMap) -> In q (routes routeMap) ->
  parentId r = Some (id q) -> index q = false ->
  id q <> EmptyString /\
  exists more own,
    more <> [] /\ segments r = segments q ++ more /\
    own = default EmptyString (createRoutePath more (index r)) /\
    (own = EmptyString \/
     exists c rest, own = String "/" (String c rest) /\ c <> "/"%char) /\
    path q = (let p := pathOrEmpty (segments q) in
              if Js.truthy p then Some p else None) /\
    path r = (let p := pathOrEmpty (segments q) +:+ own in
              if Js.truthy p then Some p else None).
Proof.
  intros Hmap Hr Hq Hpar Hidx.
  destruct (parent_segments _ _ _ _ _ _ Hmap Hr Hq Hpar)
    as (Hsegs & more & Hmore & Heq).
  destruct (getRouteMap_derived _ _ _ _ _ _ _ _ _ Hmap r Hr)
    as (Hsr & _ & _ & Hpr).
  destruct (getRouteMap_derived _ _ _ _ _ _ _ _ _ Hmap q Hq)
    as (Hsq & _ & _ & Hpq).
  split.
  { intros Hid. rewrite Hid in Hsq.
    change (getRouteSegments EmptyString) with (@Ok (list string) []) in Hsq.
    injection Hsq as Hsq. congruence. }
  exists more, (pathOrEmpty (PathSpec.dropIndexMarker more (index r))).
  split; [exact Hmore|]. split; [exact Heq|]. split; [|split; [|split]].
  - rewrite createRoutePath_text. cbv zeta. symmetry. apply default_truthy.
  - apply pathOrEmpty_head. apply getRouteSegments_segmentOk in Hsr.
    rewrite Heq in Hsr. apply Forall_app in Hsr as [_ Hsr].
    unfold PathSpec.dropIndexMarker. destruct (index r); [|exact Hsr].
    apply Forall_removelast. exact Hsr.
  - rewrite Hpq, Hidx. apply createRoutePath_text.
  - rewrite Hpr, createRoutePath_text, Heq. cbv zeta.
    replace (PathSpec.dropIndexMarker (segments q ++ more) (index r))
      with (segments q ++ PathSpec.dropIndexMarker more (index r)).
    + rewrite pathOrEmpty_app. reflexivity.
    + unfold PathSpec.dropIndexMarker. destruct (index r); [|reflexivity].
      symmetry. apply removelast_app. exact Hmore.
Qed.

(** X17: in a route map that [getRouteMap] returns, the segments of a
    route are those of its parent followed by at least one more, whatever
    the parent is; and when the parent is no index route the path of the
    route is the path of the parent followed by the path of the added
    segments: this is what the slice by the length of the parent path
    relies on. *)
Theorem child_path_extends_parent_path :
  forall (appDirectory : string) (routePaths : list string) (prefix : string)
         (routeMap : JsMap.t RouteInfo) (r q : RouteInfo),
    buildRouteMap appDirectory routePaths prefix = Ok routeMap ->
    In r (routes routeMap) -> In q (routes routeMap) ->
    parentId r = Some (id q) ->
    exists more,
      more <> [] /\ segments r = segments q ++ more /\
      (index q = false ->
       default EmptyString (path r)
       = default EmptyString (path q)
         +:+ default EmptyString (createRoutePath more (index r))).
Proof.
  intros appDirectory routePaths prefix routeMap r q Hmap Hr Hq Hpar.
  destruct (parent_segments _ _ _ _ _ _ Hmap Hr Hq Hpar)
    as (_ & more & Hmore & Heq).
  exists more. split; [exact Hmore|]. split; [exact Heq|]. intros Hidx.
  destruct (paths_of_parent_and_child _ _ _ _ _ _ Hmap Hr Hq Hpar Hidx)
    as (_ & more' & own & _ & Heq' & Hown & _ & -> & ->).
  rewrite Heq in Heq'. apply app_inv_head in Heq'. subst more'.
  cbv zeta. rewrite <- Hown, !default_truthy. reflexivity.
Qed.

(** X18: the path [defineRoute] is given for a route whose parent is no
    index route is the path of the segments the route adds to those of its
    parent, without the leading [/]; it is empty when they are all
    pathless, and never begins with a [/]. *)
Theorem child_node_path_is_relative :
  forall (appDirectory : string) (routePaths : list string) (prefix : string)
         (routeMap : JsMap.t RouteInfo) (r q : RouteInfo)
         (recurse : option string -> gmap string string ->
                    fueled (gmap string string * list RouteNode))
         (u u' : gmap string string) (n : RouteNode),
    buildRouteMap appDirectory routePaths prefix = Ok routeMap ->
    In r (routes routeMap) -> In q (routes routeMap) ->
    parentId r = Some (id q) -> index q = false ->
    defineChild posixJoin prefix routeMap recurse
      (parentRoutePathOf routeMap (parentId r)) r u = Some (Ok (u', n)) ->
    exists more,
      more <> [] /\ segments r = segments q ++ more /\
      nodePathOf n
      = removeLeadingSlash
          (default EmptyString (createRoutePath more (index r))) /\
      Js.startsWith (nodePathOf n) "/" = false.
Proof.
  intros appDirectory routePaths prefix routeMap r q recurse u u' n
    Hmap Hr Hq Hpar Hidx Hrun.
  destruct (paths_of_parent_and_child _ _ _ _ _ _ Hmap Hr Hq Hpar Hidx)
    as (Hid & more & own & Hmore & Heq & Hdef & Hown & Hpq & Hpr).
  exists more. split; [exact Hmore|]. split; [exact Heq|].
  rewrite <- Hdef. cbv zeta in Hpq, Hpr.
  rewrite Hpar, (parentRoutePathOf_found _ _ (getRouteMap_keyed _ _ _ _ Hmap) Hq Hid)
    in Hrun.
  assert (Hpp : match path q with Some p => p | None => "/" end
                = if Js.truthy (pathOrEmpty (segments q))
                  then pathOrEmpty (segments q) else "/").
  { rewrite Hpq. destruct (pathOrEmpty (segments q)); reflexivity. }
  rewrite Hpp in Hrun.
  assert (Hnode : nodePathOf n = removeLeadingSlash own).
  { rewrite <- (relativePath_parts _ _ r Hpr Hown).
    rewrite defineChild_eq in Hrun.
    destruct (checkUnique r u) as [u1|e]; [|discriminate].
    destruct (index r).
    - injection Hrun as _ <-. reflexivity.
    - destruct (recurse (Some (id r)) u1) as [[[u2 nodes]|e]|];
        try discriminate.
      injection Hrun as _ <-. reflexivity. }
  split; [exact Hnode|]. rewrite Hnode. apply removeLeadingSlash_own, Hown.
Qed.

(** X19: the path [defineRoute] is given for a route without a parent is
    the path of the route without its leading [/], and empty when the
    route has no path: a [/] followed by it is the path of the route, or
    [/] alone. It never begins with a [/]. *)
Theorem root_node_path_is_route_path :
  forall (appDirectory : string) (routePaths : list string) (prefix : string)
         (routeMap : JsMap.t RouteInfo) (r : RouteInfo)
         (recurse : option string -> gmap string string ->
                    fueled (gmap string string * list RouteNode))
         (u u' : gmap string string) (n : RouteNode),
    buildRouteMap appDirectory routePaths prefix = Ok routeMap ->
    In r (routes routeMap) -> parentId r = None ->
    defineChild posixJoin prefix routeMap recurse
      (parentRoutePathOf routeMap (parentId r)) r u = Some (Ok (u', n)) ->
    String "/" (nodePathOf n) = default "/" (path r) /\
    Js.startsWith (nodePathOf n) "/" = false.
Proof.
  intros appDirectory routePaths prefix routeMap r recurse u u' n
    Hmap Hr Hpar Hrun.
  destruct (getRouteMap_derived _ _ _ _ _ _ _ _ _ Hmap r Hr)
    as (Hsr & _ & _ & Hpr).
  apply getRouteSegments_segmentOk in Hsr.
  rewrite createRoutePath_text in Hpr. cbv zeta in Hpr.
  set (own := pathOrEmpty (PathSpec.dropIndexMarker (segments r) (index r)))
    in Hpr.
  assert (Hown : own = EmptyString \/
                 exists c rest, own = String "/" (String c rest) /\ c <> "/"%char).
  { apply pathOrEmpty_head. unfold PathSpec.dropIndexMarker.
    destruct (index r); [|exact Hsr]. apply Forall_removelast. exact Hsr. }
  rewrite Hpar in Hrun.
  change (parentRoutePathOf routeMap None)
    with (if Js.truthy EmptyString then EmptyString else "/") in Hrun.
  assert (Hnode : nodePathOf n = removeLeadingSlash own).
  { rewrite <- (relativePath_parts EmptyString own r Hpr Hown).
    rewrite defineChild_eq in Hrun.
    destruct (checkUnique r u) as [u1|e]; [|discriminate].
    destruct (index r).
    - injection Hrun as _ <-. reflexivity.
    - destruct (recurse (Some (id r)) u1) as [[[u2 nodes]|e]|];
        try discriminate.
      injection Hrun as _ <-. reflexivity. }
  split; [|rewrite Hnode; apply removeLeadingSlash_own, Hown].
  rewrite Hnode, Hpr.
  destruct Hown as [->|(c & rest & -> & Hc)]; reflexivity.
Qed.

(** X20: the manifest that is returned lists the routes whose chain of
    parents leads to the root through no index route, each of them once,
    and nothing else. *)
Theorem manifest_lists_the_visitable_routes :
  forall (appDirectory : string) (routePaths : list string) (prefix : string)
         (routeMap : JsMap.t RouteInfo) (trees : list RouteNode),
    buildRouteMap appDirectory routePaths prefix = Ok routeMap ->
    buildManifest appDirectory routePaths prefix = Some (Ok trees) ->
    exists l,
      NoDup l /\
      (forall r, In r l <-> visitable routeMap r) /\
      flat_map nodesOf trees = map (nodeOf posixJoin prefix) l.
Proof.
  intros appDirectory routePaths prefix routeMap trees Hmap Hrun.
  unfold flatRoutesUniversal in Hrun. rewrite Hmap in Hrun.
  unfold assemble, defineRoutes in Hrun.
  pose proof (defineNestedRoutes_follows posixJoin prefix routeMap
                (S (length (routes routeMap))) None ∅) as Hf.
  destruct (defineNestedRoutes posixJoin prefix routeMap
              (S (length (routes routeMap))) None ∅)
    as [[[u nodes]|e]|] eqn:Hnested; cbn [andThen follows] in *;
    try discriminate.
  injection Hrun as ->. destruct Hf as (_ & Hnodes & _).
  exists (visited routeMap (S (length (routes routeMap))) None).
  split; [|split; [|exact Hnodes]].
  - apply (visited_NoDup posixJoin prefix routeMap
             (getRouteMap_ids_unique _ _ _ _ _ _ _ _ _ Hmap) _ [] None).
    constructor.
  - intros r. split.
    + apply visited_visitable. left. reflexivity.
    + exact (visitable_visited _ _ _ _ _ _ _ Hnested).
Qed.

(** X21: the name of a route tells its segments: two routes of the map
    with the same name, as [a.b.tsx] and [a/b/route.tsx], have the same
    segments, and the same path when both or neither are index routes. *)
Theorem same_name_same_segments :
  forall (appDirectory : string) (routePaths : list string) (prefix : string)
         (routeMap : JsMap.t RouteInfo) (r q : RouteInfo),
    buildRouteMap appDirectory routePaths prefix = Ok routeMap ->
    In r (routes routeMap) -> In q (routes routeMap) ->
    name r = name q ->
    segments r = segments q /\ (index r = index q -> path r = path q).
Proof.
  intros appDirectory routePaths prefix routeMap r q Hmap Hr Hq Hname.
  destruct (getRouteMap_derived _ _ _ _ _ _ _ _ _ Hmap r Hr)
    as (Hsr & Hnr & _ & Hpr).
  destruct (getRouteMap_derived _ _ _ _ _ _ _ _ _ Hmap q Hq)
    as (Hsq & Hnq & _ & Hpq).
  apply getRouteSegments_segmentOk in Hsr, Hsq.
  rewrite Hnr, Hnq in Hname. apply join_inj in Hname; [|exact Hsr|exact Hsq].
  split; [exact Hname|]. intros Hidx. rewrite Hpr, Hpq, Hname, Hidx.
  reflexivity.
Qed.

End RouteMapPaths.

Lemma child_path_extends_parent_path_witness :
  exists more,
    more <> [] /\ segments userParam = segments usersRoute ++ more /\
    default EmptyString (path userParam)
    = default EmptyString (path usersRoute)
      +:+ default EmptyString (createRoutePath more (index userParam)).
Proof.
  destruct (child_path_extends_parent_path Posix.join Posix.extname Posix.sep
              createRouteId routeModuleExts "/app"
              ["/app/routes/users.tsx"; "/app/routes/users.$id.tsx"] "routes"
              usersWithParam userParam usersRoute)
    as (more & Hmore & Hsegs & Hpath).
  - vm_compute. reflexivity.
  - right. left. reflexivity.
  - left. reflexivity.
  - reflexivity.
  - exists more. split; [exact Hmore|]. split; [exact Hsegs|].
    apply Hpath. reflexivity.
Defined.

Lemma child_node_path_is_relative_witness :
  exists more,
    more <> [] /\ segments userParam = segments usersRoute ++ more /\
    nodePathOf (Node ":id" "routes/users.$id.tsx" "routes/users.$id" false [])
    = removeLeadingSlash
        (default EmptyString (createRoutePath more (index userParam))) /\
    Js.startsWith
      (nodePathOf (Node ":id" "routes/users.$id.tsx" "routes/users.$id" false []))
      "/" = false.
Proof.
  apply (child_node_path_is_relative Posix.join Posix.extname Posix.sep
           Posix.join createRouteId routeModuleExts "/app"
           ["/app/routes/users.tsx"; "/app/routes/users.$id.tsx"] "routes"
           usersWithParam userParam usersRoute
           (fun _ uniqueRoutes => Some (Ok (uniqueRoutes, [])))
           ∅ (<["/users/:id" := "users.$id"]> ∅)).
  - vm_compute. reflexivity.
  - right. left. reflexivity.
  - left. reflexivity.
  - reflexivity.
  - reflexivity.
  - vm_compute. reflexivity.
Defined.

Lemma root_node_path_is_route_path_witness :
  String "/" (nodePathOf (Node "users" "routes/users.tsx" "routes/users" false []))
  = default "/" (path usersRoute) /\
  Js.startsWith
    (nodePathOf (Node "users" "routes/users.tsx" "routes/users" false []))
    "/" = false.
Proof.
  apply (root_node_path_is_route_path Posix.join Posix.extname Posix.sep
           Posix.join createRouteId routeModuleExts "/app"
           ["/app/routes/users.tsx"; "/app/routes/users.$id.tsx"] "routes"
           usersWithParam usersRoute
           (fun _ uniqueRoutes => Some (Ok (uniqueRoutes, [])))
           ∅ (<["/users" := "users"]> ∅)).
  - vm_compute. reflexivity.
  - left. reflexivity.
  - reflexivity.
  - vm_compute. reflexivity.
Defined.

Lemma manifest_lists_the_visitable_routes_witness :
  exists l,
    NoDup l /\
    (forall r, In r l <-> visitable indexWithChild r) /\
    flat_map nodesOf [Node "a" "routes/a._index.tsx" "routes/a._index" true []]
    = map (nodeOf Posix.join "routes") l.
Proof.
  apply (manifest_lists_the_visitable_routes Posix.join Posix.extname Posix.sep
           Posix.join createRouteId routeModuleExts "/app"
           ["/app/routes/a._index.tsx"; "/app/routes/a._index.b.tsx"] "routes").
  - vm_compute. reflexivity.
  - vm_compute. reflexivity.
Defined.


Lemma same_name_same_segments_witness :
  segments dottedRoute = segments folderRoute /\
  (index dottedRoute = index folderRoute -> path dottedRoute = path folderRoute).
Proof.
  apply (same_name_same_segments Posix.join Posix.extname Posix.sep
           createRouteId routeModuleExts "/app"
           ["/app/routes/a.b.tsx"; "/app/routes/a/b/route.tsx"] "routes"
           sameNameRoutes dottedRoute folderRoute).
  - vm_compute. reflexivity.
  - left. reflexivity.
  - right. left. reflexivity.
  - reflexivity.
Defined.
